(** * HMM coverage pipeline: coverage maps, coverage curves and curve similarity

  A shallow embedding of the three modules under
  [hmms/pipeline/coverage/]: [measures.py], [coverage_calculation.py] and
  [hmms.py].

  Conventions of the embedding.
  - Python [int]s are [Z]; [len] and [range] are [Z]-valued.
  - Python/numpy floats are exact rationals in canonical form ([Qc]), so
    arithmetic is the exact arithmetic the float code approximates.
  - A raised exception is a value of [result]; code runs in the [result]
    monad and the first exception raised wins.
  - [print] calls have no effect on any returned value and are left out. *)

From Stdlib Require Import QArith Qcanon ZArith Lia.
From stdpp Require Import base list numbers sorting.
From Stdlib Require Import Strings.Byte Strings.Ascii Strings.String.
From Stdlib Require Import Lqa.
From stdpp Require Import strings pretty.

Local Open Scope Z_scope.

(** ** The Python runtime: exceptions, list indexing, builtins *)

Module py.

Inductive exn : Set :=
| IndexError
| ValueError
| ZeroDivisionError.

Inductive result (A : Type) : Type :=
| Ok (a : A)
| Raise (e : exn).
Global Arguments Ok {A} a.
Global Arguments Raise {A} e.

Global Instance exn_eq_dec : EqDecision exn.
Proof. solve_decision. Defined.

Global Instance result_eq_dec `{EqDecision A} : EqDecision (result A).
Proof. solve_decision. Defined.

(** Sequencing: [x ← r; k] runs [k] on the value of [r] and passes an
    exception of [r] on. *)
Global Instance result_bind : MBind result := λ A B k r,
  match r with
  | Ok a => k a
  | Raise e => Raise e
  end.

Definition len {A} (l : list A) : Z := Z.of_nat (length l).

(** [l[i]] on a Python list or numpy array: a negative index counts from
    the end, anything outside [[-len, len)] raises [IndexError]. *)
Definition getitem {A} (l : list A) (i : Z) : result A :=
  let j := if bool_decide (i < 0) then len l + i else i in
  if bool_decide (0 ≤ j) then
    match l !! Z.to_nat j with
    | Some x => Ok x
    | None => Raise IndexError
    end
  else Raise IndexError.

(** [l[i] = v], same index rule. *)
Definition setitem {A} (l : list A) (i : Z) (v : A) : result (list A) :=
  let j := if bool_decide (i < 0) then len l + i else i in
  if bool_decide (0 ≤ j < len l) then Ok (<[Z.to_nat j := v]> l)
  else Raise IndexError.

(** [min(l)] and [max(l)] keep the first extremal element.  Both are only
    called on [[0.0] + curve], which is never empty. *)
Definition min (l : list Qc) : Qc :=
  match l with
  | [] => 0%Qc
  | x :: l' => foldl (λ m y, if bool_decide (y < m)%Qc then y else m) x l'
  end.

Definition max (l : list Qc) : Qc :=
  match l with
  | [] => 0%Qc
  | x :: l' => foldl (λ m y, if bool_decide (m < y)%Qc then y else m) x l'
  end.

(** [l.remove(x)]: drops the first occurrence.  Every call in the code is
    guarded by [x in l], so the [ValueError] of a missing element cannot
    arise. *)
Fixpoint remove (x : Z) (l : list Z) : list Z :=
  match l with
  | [] => []
  | y :: l' => if bool_decide (x = y) then l' else y :: remove x l'
  end.

(** [sorted(l, key=...)]: a stable sort; elements with equal keys keep
    their order in [l]. *)
Fixpoint insert_by {A} (key : A → Z) (x : A) (l : list A) : list A :=
  match l with
  | [] => [x]
  | y :: l' =>
      if bool_decide (key x ≤ key y) then x :: y :: l'
      else y :: insert_by key x l'
  end.

Fixpoint sorted {A} (key : A → Z) (l : list A) : list A :=
  match l with
  | [] => []
  | x :: l' => insert_by key x (sorted key l')
  end.

End py.

(** ** numpy *)

Module np.
Import py.
Local Open Scope Qc_scope.

(** [np.gradient(f)] with unit spacing and the default [edge_order=1]:
    central differences [(f[i+1] - f[i-1]) / 2] in the interior, one-sided
    differences at the two ends; fewer than two samples raise
    [ValueError]. *)
Fixpoint gradient_from (prev cur : Qc) (rest : list Qc) : list Qc :=
  match rest with
  | [] => [cur - prev]
  | next :: rest' => (next - prev) / 2 :: gradient_from cur next rest'
  end.

Definition gradient (f : list Qc) : result (list Qc) :=
  match f with
  | x0 :: x1 :: rest => Ok ((x1 - x0) :: gradient_from x0 x1 rest)
  | _ => Raise ValueError
  end.

(** [np.logical_or] on two vectors of equal length.  The left operand is
    the running boolean summary, the right one a 0/1 coverage list. *)
Definition logical_or (x1 : list bool) (x2 : list Z) : list bool :=
  zip_with (λ a b, a || bool_decide (b ≠ 0%Z)) x1 x2.

End np.

(** ** measures.py *)

Module measures.
Import py.
Local Open Scope Qc_scope.

Definition normalize (curve : list Qc) : list Qc :=
  let curve := 0 :: curve in
  let min_val := py.min curve in
  let max_val := py.max curve in
  if bool_decide (min_val = max_val) then
    0 :: replicate (length curve - 1) 1
  else
    (λ x, (x - min_val) / (max_val - min_val)) <$> drop 1 curve.

(** A candidate or accepted match: [(index_fuzzer, index_hmm, dist)]. *)
Definition match_t : Type := Z * Z * Z.

(** [[1 if gradient[i] > 0 else 0 for i in range(gradient_number)]];
    [gradient_number] never exceeds the length of [gradient]. *)
Definition increase_bitmap (gradient : list Qc) (gradient_number : Z)
    : list Z :=
  (λ g, if bool_decide (0 < g) then 1%Z else 0%Z)
    <$> take (Z.to_nat gradient_number) gradient.

(** [[i for i in range(gradient_number) if bitmap[i] > 0]]; [bitmap] has
    exactly [gradient_number] entries. *)
Definition increase_indices (bitmap : list Z) (gradient_number : Z)
    : list Z :=
  filter (λ i, from_option (λ b, bool_decide (0 < b)%Z) false
                           (bitmap !! Z.to_nat i) = true)
         (seqZ 0 gradient_number).

(** The inner [for index_hmm] loop for one [current_fuzzer]. *)
Fixpoint matches_of (current_fuzzer : Z) (indices_hmm : list Z)
    (max_distance : Z) : list match_t :=
  match indices_hmm with
  | [] => []
  | current_hmm :: rest =>
      if bool_decide (current_fuzzer > current_hmm + max_distance)%Z then
        matches_of current_fuzzer rest max_distance        (* continue *)
      else if bool_decide (current_fuzzer + max_distance < current_hmm)%Z
      then []                                              (* break *)
      else (current_fuzzer, current_hmm,
            Z.abs (current_fuzzer - current_hmm))
           :: matches_of current_fuzzer rest max_distance
  end.

Definition possible_matches (indices_fuzzer indices_hmm : list Z)
    (max_distance : Z) : list match_t :=
  current_fuzzer ← indices_fuzzer;
  matches_of current_fuzzer indices_hmm max_distance.

(** State of the greedy loop.  [unmatched_fuzzer] and [unmatched_hmm] alias
    [indices_fuzzer] and [indices_hmm], which are not read again once the
    loop starts ([number_indices] is taken before). *)
Record matching : Type := Matching {
  matches : list match_t;
  unmatched_fuzzer : list Z;
  unmatched_hmm : list Z
}.

Definition greedy_step (st : matching) (m : match_t) : matching :=
  let '(index_fuzzer, index_hmm, dist) := m in
  if bool_decide (index_fuzzer ∈ unmatched_fuzzer st
                  ∧ index_hmm ∈ unmatched_hmm st) then
    Matching (matches st ++ [(index_fuzzer, index_hmm, dist)])
             (py.remove index_fuzzer (unmatched_fuzzer st))
             (py.remove index_hmm (unmatched_hmm st))
  else st.

Definition greedy_matching (sorted_matches : list match_t)
    (indices_fuzzer indices_hmm : list Z) : matching :=
  foldl greedy_step (Matching [] indices_fuzzer indices_hmm) sorted_matches.

(** One summand of the matched score:
    [((index_fuzzer - index_hmm) / max_distance) ** 2
      + (gradient_fuzzer[index_fuzzer] - gradient_hmm[index_hmm]) ** 2].
    The quotient of two [int]s raises [ZeroDivisionError] when
    [max_distance] is 0. *)
Definition matched_term (gradient_fuzzer gradient_hmm : list Qc)
    (max_distance : Z) (m : match_t) : result Qc :=
  let '(index_fuzzer, index_hmm, dist) := m in
  if bool_decide (max_distance = 0%Z) then Raise ZeroDivisionError
  else
    gf ← getitem gradient_fuzzer index_fuzzer;
    gh ← getitem gradient_hmm index_hmm;
    Ok ((Qc_of_Z (index_fuzzer - index_hmm) / Qc_of_Z max_distance) ^ 2
        + (gf - gh) ^ 2).

Fixpoint matched_score (gradient_fuzzer gradient_hmm : list Qc)
    (max_distance : Z) (ms : list match_t) (score : Qc) : result Qc :=
  match ms with
  | [] => Ok score
  | m :: ms' =>
      t ← matched_term gradient_fuzzer gradient_hmm max_distance m;
      matched_score gradient_fuzzer gradient_hmm max_distance ms'
                    (score + t)
  end.

(** [for unmatched in l: score += 2]. *)
Definition unmatched_score {A} (l : list A) (score : Qc) : Qc :=
  foldl (λ s _, s + 2) score l.

(** The final [score / (2 * number_indices)].  With [number_indices = 0]
    there are no matches, [score] is still the Python float [0.0] and the
    division raises [ZeroDivisionError]. *)
Definition normalize_score (score : Qc) (number_indices : Z) : result Qc :=
  if bool_decide (2 * number_indices = 0)%Z then Raise ZeroDivisionError
  else Ok (score / Qc_of_Z (2 * number_indices)).

Definition calculate_coverage_similarity (fuzzer hmm : list Qc)
    (max_distance : Z) : result Qc :=
  let fuzzer := normalize fuzzer in
  let hmm := normalize hmm in
  gradient_fuzzer ← np.gradient fuzzer;
  gradient_hmm ← np.gradient hmm;
  let gradient_number := Z.min (len gradient_fuzzer) (len gradient_hmm) in
  let bitmap_fuzzer := increase_bitmap gradient_fuzzer gradient_number in
  let bitmap_hmm := increase_bitmap gradient_hmm gradient_number in
  let indices_fuzzer := increase_indices bitmap_fuzzer gradient_number in
  let indices_hmm := increase_indices bitmap_hmm gradient_number in
  let number_indices := (len indices_fuzzer + len indices_hmm)%Z in
  let possible := possible_matches indices_fuzzer indices_hmm max_distance in
  let sorted_matches := py.sorted (λ x : match_t, x.2) possible in
  let st := greedy_matching sorted_matches indices_fuzzer indices_hmm in
  score ← matched_score gradient_fuzzer gradient_hmm max_distance
                        (matches st) 0;
  let score := unmatched_score (unmatched_fuzzer st) score in
  let score := unmatched_score (unmatched_hmm st) score in
  normalize_score score number_indices.

(** The default [max_distance=5]. *)
Definition default_max_distance : Z := 5.

End measures.

(** ** coverage_calculation.py *)

Module coverage_calculation.
Import py.

(** What [model.viterbi] returns: the log probability and the decoded path,
    a list of [(state index, state)] pairs. *)
Definition viterbi_res (State : Type) : Type := Qc * list (Z * State).

(** The [for i in range(len(estimated_nodes)-1)] loop, one consecutive
    pair per iteration. *)
Fixpoint mark_edges (estimated_nodes : list Z) (number_of_nodes : Z)
    (coverage : list Z) : result (list Z) :=
  match estimated_nodes with
  | src :: (dst :: _) as rest =>
      coverage ← setitem coverage (src * number_of_nodes + dst) 1;
      mark_edges rest number_of_nodes coverage
  | _ => Ok coverage
  end.

Definition generate_coverage_map {State} (res : viterbi_res State)
    (number_of_nodes : Z) : result (list Z) :=
  let estimated_nodes := fst <$> res.2 in
  let coverage := replicate (Z.to_nat (number_of_nodes * number_of_nodes)) 0 in
  mark_edges estimated_nodes number_of_nodes coverage.

(** [sum(coverage_summarized)]: the number of set entries. *)
Definition sum (coverage_summarized : list bool) : Z :=
  len (filter (λ b, b = true) coverage_summarized).

Section calculate_coverage.
Context {File Seq State : Type}.
(** [joblib.load(os.path.join(preprocessed_data_folder, file))] and
    [model.viterbi] belong to external libraries. *)
Variable load : File → list Seq.
Variable viterbi : Seq → viterbi_res State.

(** The running pair [(coverage_summarized, cov_over_time)]. *)
Definition coverage_state : Type := list bool * list Qc.

(** Body of the [for seq in data] loop. *)
Definition coverage_step (no_components : Z) (st : coverage_state)
    (seq : Seq) : result coverage_state :=
  let estimated_nodes := viterbi seq in
  coverage ← generate_coverage_map estimated_nodes no_components;
  let coverage_summarized := np.logical_or st.1 coverage in
  if bool_decide (no_components * no_components = 0) then
    Raise ZeroDivisionError
  else
    Ok (coverage_summarized,
        st.2 ++ [(Qc_of_Z (sum coverage_summarized)
                  / Qc_of_Z (no_components * no_components))%Qc]).

Fixpoint coverage_loop (no_components : Z) (st : coverage_state)
    (data : list Seq) : result coverage_state :=
  match data with
  | [] => Ok st
  | seq :: data' =>
      st ← coverage_step no_components st seq;
      coverage_loop no_components st data'
  end.

(** The outer [for file in files] loop. *)
Fixpoint files_loop (no_components : Z) (st : coverage_state)
    (files : list File) : result coverage_state :=
  match files with
  | [] => Ok st
  | file :: files' =>
      st ← coverage_loop no_components st (load file);
      files_loop no_components st files'
  end.

Definition calculate_coverage (no_components : Z) (files : list File)
    : result coverage_state :=
  let coverage_summarized :=
    replicate (Z.to_nat (no_components * no_components)) false in
  files_loop no_components (coverage_summarized, []) files.

End calculate_coverage.

End coverage_calculation.

(** ** hmms.py *)

Module hmms.

(** What a call of [from_samples] can do: return a model or raise.  The
    first two exceptions are the ones the first [except] clause names. *)
Inductive fit_outcome (Model : Type) : Type :=
| Fitted (m : Model)
| LinAlgError
| UFuncTypeError
| OtherException.
Global Arguments Fitted {Model} m.
Global Arguments LinAlgError {Model}.
Global Arguments UFuncTypeError {Model}.
Global Arguments OtherException {Model}.

(** One entry of the call trace: the [n_components] passed to
    [from_samples] and what the call did. *)
Record attempt (Model : Type) : Type := Attempt {
  requested : Z;
  outcome : fit_outcome Model
}.
Global Arguments Attempt {Model} requested outcome.
Global Arguments requested {Model} a.
Global Arguments outcome {Model} a.

Section create_model.
Context {Model Data World : Type}.
(** [HiddenMarkovModel()], [HiddenMarkovModel.from_samples] (randomised:
    it reads and advances the state of the world) and [model.bake()]
    belong to pomegranate. *)
Variable HiddenMarkovModel : Model.
Variable from_samples : Z → Data → World → fit_outcome Model * World.
Variable bake : Model → Model.

Record loop_state : Type := LoopState {
  model : Model;
  successful : bool;
  i : Z;
  world : World;
  trace : list (attempt Model)
}.

(** Body of the [while] loop: [try] / [except] / [else], then
    [i = i + 1]. *)
Definition attempt_once (no_hmm : Z) (data : Data) (st : loop_state)
    : loop_state :=
  let '(r, w) := from_samples no_hmm data (world st) in
  let tr := trace st ++ [Attempt no_hmm r] in
  match r with
  | Fitted m => LoopState m true (i st + 1) w tr
  | LinAlgError | UFuncTypeError =>                       (* pass *)
      LoopState (model st) (successful st) (i st + 1) w tr
  | OtherException =>                                    (* print *)
      LoopState (model st) (successful st) (i st + 1) w tr
  end.

(** [while not successful and i < threshold]; the loop makes at most
    [threshold - i] further rounds, which bounds the fuel. *)
Fixpoint while_loop (fuel : nat) (no_hmm : Z) (data : Data)
    (threshold : Z) (st : loop_state) : loop_state :=
  match fuel with
  | O => st
  | S fuel' =>
      if bool_decide (successful st = false ∧ i st < threshold) then
        while_loop fuel' no_hmm data threshold (attempt_once no_hmm data st)
      else st
  end.

Definition create_model (n_component : Z) (data : Data) (threshold : Z)
    (w : World) : option Model * World * list (attempt Model) :=
  let no_hmm := n_component - 2 in
  let st := LoopState HiddenMarkovModel false 0 w [] in
  let st := while_loop (Z.to_nat threshold) no_hmm data threshold st in
  if successful st then (Some (bake (model st)), world st, trace st)
  else (None, world st, trace st).

(** The default [threshold=20]. *)
Definition default_threshold : Z := 20.

End create_model.

End hmms.

(** ** Notions used in the statements *)

Module notions.

(** The consecutive pairs [(path[i], path[i+1])] of a decoded path. *)
Definition edges (nodes : list Z) : list (Z * Z) := zip nodes (drop 1 nodes).

(** The flat index [src * N + dst] of an edge. *)
Definition edge_index (number_of_nodes : Z) (e : Z * Z) : Z :=
  e.1 * number_of_nodes + e.2.

(** The number of set entries of a 0/1 coverage list. *)
Definition popcount (coverage : list Z) : nat :=
  length (filter (λ b, b ≠ 0) coverage).

(** The indices a Python list of the given length accepts. *)
Definition valid_index (length : Z) (i : Z) : Prop := - length ≤ i < length.

(** The cumulative OR of a sequence of coverage lists over [N²] edges, and
    the fraction of the [N²] edges it covers. *)
Definition cumulative_or (N : Z) (bitmaps : list (list Z)) : list bool :=
  foldl np.logical_or (replicate (Z.to_nat (N * N)) false) bitmaps.

Definition covered_fraction (N : Z) (bitmaps : list (list Z)) : Qc :=
  (Qc_of_Z (coverage_calculation.sum (cumulative_or N bitmaps))
   / Qc_of_Z (N * N))%Qc.

(** Growth events the way the written description has them: the forward
    difference [trace[i+1] - trace[i]] is strictly positive. *)
Definition forward_difference_event (trace : list Qc) (i : Z) : Prop :=
  0 ≤ i ∧ ∃ x y, trace !! Z.to_nat i = Some x
                 ∧ trace !! S (Z.to_nat i) = Some y ∧ (x < y)%Qc.

(** Orders on candidate matches.  [by_fuzzer] is the order in which
    [possible_matches] produces them (fuzzer index, then hmm index),
    [by_hmm] the same with the two sides exchanged, and [key_then key R]
    is what a stable sort by [key] makes of a list ordered by [R]. *)
Definition by_fuzzer (x y : measures.match_t) : Prop :=
  x.1.1 < y.1.1 ∨ (x.1.1 = y.1.1 ∧ x.1.2 < y.1.2).

Definition by_hmm (x y : measures.match_t) : Prop :=
  x.1.2 < y.1.2 ∨ (x.1.2 = y.1.2 ∧ x.1.1 < y.1.1).

Definition key_then {A} (key : A → Z) (R : relation A) (x y : A) : Prop :=
  key x < key y ∨ (key x = key y ∧ R x y).

(** The sort key of [calculate_coverage_similarity]: the distance. *)
Definition dist (x : measures.match_t) : Z := x.2.

(** Two candidates conflict when they share an endpoint. *)
Definition conflict (x y : measures.match_t) : Prop :=
  x.1.1 = y.1.1 ∨ x.1.2 = y.1.2.

(** A match, and a matching, seen from the other curve. *)
Definition swap (m : measures.match_t) : measures.match_t :=
  (m.1.2, m.1.1, m.2).

Definition swap_matching (st : measures.matching) : measures.matching :=
  measures.Matching (swap <$> measures.matches st)
                    (measures.unmatched_hmm st)
                    (measures.unmatched_fuzzer st).

(** Two runs of the greedy loop agree when they leave the same indices
    unmatched and accepted the same matches, in whatever order. *)
Definition matching_equiv (st st' : measures.matching) : Prop :=
  measures.matches st ≡ₚ measures.matches st'
  ∧ measures.unmatched_fuzzer st = measures.unmatched_fuzzer st'
  ∧ measures.unmatched_hmm st = measures.unmatched_hmm st'.

(** What [calculate_coverage_similarity] does once the two gradients are
    there. *)
Definition similarity_of_gradients (gradient_fuzzer gradient_hmm : list Qc)
    (max_distance : Z) : py.result Qc :=
  let gradient_number :=
    Z.min (py.len gradient_fuzzer) (py.len gradient_hmm) in
  let indices_fuzzer :=
    measures.increase_indices
      (measures.increase_bitmap gradient_fuzzer gradient_number)
      gradient_number in
  let indices_hmm :=
    measures.increase_indices
      (measures.increase_bitmap gradient_hmm gradient_number)
      gradient_number in
  let st :=
    measures.greedy_matching
      (py.sorted dist
         (measures.possible_matches indices_fuzzer indices_hmm max_distance))
      indices_fuzzer indices_hmm in
  score ← measures.matched_score gradient_fuzzer gradient_hmm max_distance
                                 (measures.matches st) 0%Qc;
  measures.normalize_score
    (measures.unmatched_score (measures.unmatched_hmm st)
       (measures.unmatched_score (measures.unmatched_fuzzer st) score))
    (py.len indices_fuzzer + py.len indices_hmm).

(** The match of an index with itself. *)
Definition diagonal (e : Z) : measures.match_t := (e, e, 0).

(** A fitting attempt that raised. *)
Definition failed {Model} (a : hmms.attempt Model) : Prop :=
  ∀ m, hmms.outcome a ≠ hmms.Fitted m.

(** What holds of the loop state before and after every round: the trace
    has one entry per round, every entry asked for [no_hmm] states, and
    [successful] is set exactly when the last entry is the only one that
    did not raise, in which case [model] is what that call returned. *)
Record loop_inv {Model World} (no_hmm : Z)
    (st : @hmms.loop_state Model World) : Prop := LoopInv {
  inv_requested : Forall (λ a, hmms.requested a = no_hmm) (hmms.trace st);
  inv_rounds : hmms.i st = Z.of_nat (length (hmms.trace st));
  inv_failed : hmms.successful st = false → Forall failed (hmms.trace st);
  inv_fitted : hmms.successful st = true →
    ∃ m pre, hmms.trace st = pre ++ [hmms.Attempt no_hmm (hmms.Fitted m)]
             ∧ Forall failed pre ∧ hmms.model st = m
}.

End notions.

(** ** Concrete inputs used in examples *)

Module examples.
Import coverage_calculation.

(** One file holding three sequences, already decoded to the paths
    [[0, 0]], [[0, 1]], [[0, 0]] of a two-state model, and the coverage
    lists of these paths. *)
Definition example_load (_ : unit) : list (list Z) :=
  [[0; 0]; [0; 1]; [0; 0]].
Definition example_viterbi (path : list Z) : viterbi_res unit :=
  (0%Qc, (λ s, (s, tt)) <$> path).
Definition example_bitmaps : list (list Z) :=
  [[1; 0; 0; 0]; [0; 1; 0; 0]; [1; 0; 0; 0]].

(** A fitting routine that raises [LinAlgError] on its first two calls and
    returns a model on the third; the world counts the calls made, a model
    records the number of states asked for and the call that built it. *)
Definition example_from_samples (n_components : Z) (_ : unit) (calls : nat)
    : hmms.fit_outcome (Z * nat) * nat :=
  (if bool_decide (calls < 2)%nat then hmms.LinAlgError
   else hmms.Fitted (n_components, calls),
   S calls).

(** The two traces of the end-to-end scenario,
    [[0, 0.2, 0.2, 0.8, 0.8]] and [[0, 0.1, 0.3, 0.3, 0.9]]. *)
Definition example_trace_a : list Qc :=
  [0; 1 / Qc_of_Z 5; 1 / Qc_of_Z 5; Qc_of_Z 4 / Qc_of_Z 5;
   Qc_of_Z 4 / Qc_of_Z 5]%Qc.
Definition example_trace_b : list Qc :=
  [0; 1 / Qc_of_Z 10; Qc_of_Z 3 / Qc_of_Z 10; Qc_of_Z 3 / Qc_of_Z 10;
   Qc_of_Z 9 / Qc_of_Z 10]%Qc.

End examples.

(** ** Python [bytes] *)

Module py_bytes.
Import py.

(** [b.ljust(width, fill)]: pads on the right up to [width] bytes and leaves
    longer values alone. *)
Definition ljust (b : list byte) (width : Z) (fill : byte) : list byte :=
  b ++ replicate (Z.to_nat (width - len b)) fill.

(** [l[0:stop]]: a negative [stop] counts from the end, and nothing is
    out of range for a slice. *)
Definition slice_to {A} (l : list A) (stop : Z) : list A :=
  take (Z.to_nat (if bool_decide (stop < 0) then len l + stop else stop)) l.

(** [format(byte, '08b')]: the eight binary digits of a byte, most
    significant first. *)
Definition format_08b (byte : byte) : list ascii :=
  (λ k, if N.testbit (Byte.to_N byte) k then "1"%char else "0"%char)
    <$> [7; 6; 5; 4; 3; 2; 1; 0]%N.

(** [float(int(float(a)))] for a one-character string [a]: the value of a
    decimal digit, [ValueError] for any other character. *)
Definition float_of_char (a : ascii) : result Qc :=
  let code := Z.of_N (N_of_ascii a) in
  if bool_decide (48 ≤ code ≤ 57) then Ok (Qc_of_Z (code - 48))
  else Raise ValueError.

End py_bytes.

(** ** preprocessing/util.py *)

Module util.
Import py py_bytes.

(** [[float(int(float(a))) for a in bytes_as_bits]]. *)
Fixpoint floats_of (bytes_as_bits : list ascii) : result (list Qc) :=
  match bytes_as_bits with
  | [] => Ok []
  | a :: rest =>
      x ← float_of_char a;
      xs ← floats_of rest;
      Ok (x :: xs)
  end.

Definition bytes_as_bits_list (input_bytes : list byte) : result (list Qc) :=
  let bytes_as_bits := input_bytes ≫= format_08b in
  floats_of bytes_as_bits.

Definition scale_packet_values (input_bytes : list byte) : list Qc :=
  (λ byte, (Qc_of_Z (Z.of_N (Byte.to_N byte)) / Qc_of_Z 255)%Qc)
    <$> input_bytes.

Definition scale_packet_length (input_bytes : list byte) (length : Z)
    : list byte :=
  if bool_decide (len input_bytes ≤ length) then
    ljust input_bytes length Byte.x00
  else slice_to input_bytes length.

(** The default [length=1500]. *)
Definition default_length : Z := 1500.

End util.

(** ** coverage_calculation.py, the single-sequence entry point *)

Module coverage_single.
Import py coverage_calculation.

Section calculate_coverage_single.
Context {Seq State : Type}.
Variable viterbi : Seq → viterbi_res State.

(** The warning printed when the batch does not hold exactly one sequence
    changes nothing in what is returned; [preprocessed_data[0]] raises
    [IndexError] on an empty batch. *)
Definition calculate_coverage_single (no_components : Z)
    (preprocessed_data : list Seq) : result (list Z) :=
  seq ← getitem preprocessed_data 0;
  let estimated_nodes := viterbi seq in
  generate_coverage_map estimated_nodes no_components.

End calculate_coverage_single.

End coverage_single.

(** ** Python [dict] *)

Module py_dict.

(** A [dict] keeps its keys in the order in which they were first set: an
    association list without repeated keys. *)
Definition dict (K V : Type) : Type := list (K * V).

(** [d[k]], where [None] stands for the [KeyError] of a missing key. *)
Fixpoint get `{EqDecision K} {V} (d : dict K V) (k : K) : option V :=
  match d with
  | [] => None
  | (k', v) :: d' => if decide (k = k') then Some v else get d' k
  end.

(** [d[k] = v]: replaces the value of a key that is there, where it is, and
    puts a new key at the end. *)
Fixpoint set `{EqDecision K} {V} (d : dict K V) (k : K) (v : V) : dict K V :=
  match d with
  | [] => [(k, v)]
  | (k', v') :: d' =>
      if decide (k = k') then (k, v) :: d' else (k', v') :: set d' k v
  end.

(** [d.items()], [list(d)] and [len(d)]. *)
Definition items {K V} (d : dict K V) : list (K * V) := d.
Definition keys {K V} (d : dict K V) : list K := d.*1.
Definition values {K V} (d : dict K V) : list V := d.*2.

End py_dict.

(** ** load_data.py *)

Module load_data.
Import py py_dict.

(** What the code reads of a scapy packet: whether it has an IP and a TCP
    layer ([IP in pkt], [TCP in pkt]), [pkt[IP].src], [str(pkt[TCP].flags)],
    [pkt[TCP].sport], [pkt[TCP].dport] and [raw(pkt)].  The fields of a
    layer are only read when the layer is there. *)
Record packet : Type := Packet {
  has_IP : bool;
  has_TCP : bool;
  ip_src : string;
  tcp_flags : string;
  tcp_sport : Z;
  tcp_dport : Z;
  raw : list byte
}.

(** [IP in pkt and TCP in pkt and str(pkt[TCP].flags) == 'S']. *)
Definition is_syn (pkt : packet) : bool :=
  has_IP pkt && has_TCP pkt && bool_decide (tcp_flags pkt = "S"%string).

(** State of the loop of [load_and_split_data_syn]. *)
Record syn_state : Type := SynState {
  packets_filtered_split : dict Z (list (list byte));
  current_sequence : list (list byte);
  sequence_no : Z
}.

Definition syn_step (st : syn_state) (pkt : packet) : syn_state :=
  let st :=
    if is_syn pkt then
      (* new sequence *)
      if bool_decide (len (current_sequence st) > 0) then
        SynState (set (packets_filtered_split st) (sequence_no st)
                      (current_sequence st))
                 [] (sequence_no st + 1)
      else st
    else st in
  SynState (packets_filtered_split st) (current_sequence st ++ [raw pkt])
           (sequence_no st).

(** The loop and the last assignment, on the packets [load_data]
    returned. *)
Definition split_syn (packets_filtered : list packet)
    : dict Z (list (list byte)) :=
  let st := foldl syn_step (SynState [] [] 0) packets_filtered in
  set (packets_filtered_split st) (sequence_no st) (current_sequence st).

(** State of the loop of [load_and_split_data_ports]. *)
Record ports_state : Type := PortsState {
  seen_ports : list Z;
  ports_split : dict string (list (list byte))
}.

(** The port that names the connection of a packet: the source port of a
    packet from the sender, the destination port of a packet from the
    target, none for a packet from anyone else ([continue]). *)
Definition connection_port (ip_addr_sender ip_addr_target : string)
    (pkt : packet) : option Z :=
  if bool_decide (ip_src pkt = ip_addr_sender) then Some (tcp_sport pkt)
  else if bool_decide (ip_src pkt = ip_addr_target) then Some (tcp_dport pkt)
  else None.

(** One round; [None] stands for the [KeyError] of
    [packets_filtered_split[str(port)]]. *)
Definition ports_step (ip_addr_sender ip_addr_target : string)
    (st : ports_state) (pkt : packet) : option ports_state :=
  if has_IP pkt && has_TCP pkt then
    match connection_port ip_addr_sender ip_addr_target pkt with
    | None => Some st
    | Some port =>
        if bool_decide (port ∈ seen_ports st) then
          sequence ← get (ports_split st) (pretty port);
          Some (PortsState (seen_ports st)
                           (set (ports_split st) (pretty port)
                                (sequence ++ [raw pkt])))
        else
          Some (PortsState (seen_ports st ++ [port])
                           (set (ports_split st) (pretty port) [raw pkt]))
    end
  else Some st.

Fixpoint ports_loop (ip_addr_sender ip_addr_target : string)
    (st : ports_state) (packets_filtered : list packet)
    : option ports_state :=
  match packets_filtered with
  | [] => Some st
  | pkt :: rest =>
      st ← ports_step ip_addr_sender ip_addr_target st pkt;
      ports_loop ip_addr_sender ip_addr_target st rest
  end.

Definition split_ports (ip_addr_sender ip_addr_target : string)
    (packets_filtered : list packet)
    : option (dict string (list (list byte))) :=
  st ← ports_loop ip_addr_sender ip_addr_target (PortsState [] [])
                  packets_filtered;
  Some (ports_split st).

Section load.
Context {Path : Type}.
(** [load_data], that is scapy's [sniff(offline=..., filter=...)], reads
    the capture. *)
Variable load_data : Path → string → list packet.

Definition load_and_split_data_syn (path : Path) (filter_expr : string)
    : dict Z (list (list byte)) :=
  let packets_filtered := load_data path filter_expr in
  split_syn packets_filtered.

Definition load_and_split_data_ports (path : Path)
    (ip_addr_sender ip_addr_target : string) (filter_expr : string)
    : option (dict string (list (list byte))) :=
  let packets_filtered := load_data path filter_expr in
  split_ports ip_addr_sender ip_addr_target packets_filtered.

End load.

End load_data.

(** ** preprocess.py *)

Module preprocess.
Import py py_dict util.

Section preprocess.
Context {Model Row : Type}.
(** [encoder.predict(np.array(pkts_scaled), verbose=0)]: the rows of the
    array the encoder returns for the packets of one sequence. *)
Variable predict : Model → list (list Qc) → list Row.
(** [np.concatenate(model.transform(np.array([pkt_scaled])))]: the row the
    PCA returns for one packet. *)
Variable transform : Model → list Qc → Row.

Definition preprocess_autoencoder {K} (data : dict K (list (list byte)))
    (encoder : Model) (sample_size : Z) : list (list Row) :=
  (λ '((key, pkts) : K * list (list byte)),
     let pkts_scaled :=
       (λ pkt, scale_packet_values (scale_packet_length pkt sample_size))
         <$> pkts in
     predict encoder pkts_scaled) <$> items data.

(** [K.clear_session()] frees the backend's state and changes nothing in
    what is returned. *)
Definition preprocess_chiu {K} (data : dict K (list (list byte)))
    (encoder : Model) (sample_size : Z) : list (list Row) :=
  (λ '((key, pkts) : K * list (list byte)),
     let pkts_scaled :=
       (λ pkt, scale_packet_values (scale_packet_length pkt sample_size))
         <$> pkts in
     predict encoder pkts_scaled) <$> items data.

Definition preprocess_pca {K} (data : dict K (list (list byte)))
    (model : Model) (sample_size : Z) : list (list Row) :=
  (λ '((key, pkts) : K * list (list byte)),
     (λ pkt,
        let pkt_scaled :=
          scale_packet_values (scale_packet_length pkt sample_size) in
        transform model pkt_scaled) <$> pkts) <$> items data.

Definition preprocess {K} (data : dict K (list (list byte))) (model : Model)
    (model_type : string) (sample_size : Z) : result (list (list Row)) :=
  if bool_decide (model_type = "pca"%string) then
    Ok (preprocess_pca data model sample_size)
  else if bool_decide (model_type = "ae"%string) then
    Ok (preprocess_autoencoder data model sample_size)
  else if bool_decide (model_type = "chiu"%string) then
    Ok (preprocess_chiu data model sample_size)
  else Raise ValueError.

End preprocess.

End preprocess.

(** ** scripts/hmm_coverage.py *)

Module hmm_coverage.
Import py_dict.

(** What the script raises: the [AssertionError] of its own checks, the
    exceptions of the pipeline, and the error of using a global that is
    still [None]. *)
Inductive exn : Set :=
| AssertionError
| Pipeline (e : py.exn)
| NoneUse.

Inductive outcome (A : Type) : Type :=
| Return (a : A)
| Raise (e : exn).
Global Arguments Return {A} a.
Global Arguments Raise {A} e.

Global Instance exn_eq_dec : EqDecision exn.
Proof. solve_decision. Defined.

Global Instance outcome_eq_dec `{EqDecision A} : EqDecision (outcome A).
Proof. solve_decision. Defined.

Global Instance outcome_bind : MBind outcome := λ A B k r,
  match r with
  | Return a => k a
  | Raise e => Raise e
  end.

(** A call into the pipeline. *)
Definition call {A} (r : py.result A) : outcome A :=
  match r with
  | py.Ok a => Return a
  | py.Raise e => Raise (Pipeline e)
  end.

Definition SAMPLE_SIZE : Z := 1504.

(** The keys [init] reads of the configuration file. *)
Record config : Type := Config {
  config_preprocessor_type : string;
  config_preprocessor_path : string;
  config_model_path : string;
  config_model_nodes : Z
}.

Section script.
Context {Path Model Row HMM State : Type}.
Variable sniff : Path → string → list load_data.packet.
Variable predict : Model → list (list Qc) → list Row.
Variable transform : Model → list Qc → Row.
(** [joblib.load(preprocessor_path)] and
    [tf.keras.models.load_model(preprocessor_path, compile=False)]. *)
Variable joblib_load : string → Model.
Variable load_model : string → Model.
(** [HiddenMarkovModel().from_dict(joblib.load(config['model_path']))]. *)
Variable from_dict : string → HMM.
(** [model.viterbi(seq)]. *)
Variable viterbi : HMM → list Row → coverage_calculation.viterbi_res State.

(** The globals of the module. *)
Record globals : Type := Globals {
  model : option HMM;
  number_of_nodes : option Z;
  preprocessor : option Model;
  preprocessor_type : string;
  initialized : bool
}.

(** The values the module starts with. *)
Definition start : globals := Globals None None None "" false.

(** [init] returns the globals it leaves behind, also when it raises:
    [preprocessor_type] is assigned before it is checked. *)
Definition init (g : globals) (config : config) : globals * outcome unit :=
  let g := Globals (model g) (number_of_nodes g) (preprocessor g)
                   (config_preprocessor_type config) (initialized g) in
  if bool_decide (preprocessor_type g = "pca"%string)
     || bool_decide (preprocessor_type g = "ae"%string)
     || bool_decide (preprocessor_type g = "ae_chiu"%string)
  then
    let preprocessor_path := config_preprocessor_path config in
    let preprocessor :=
      if bool_decide (preprocessor_type g = "pca"%string)
      then joblib_load preprocessor_path
      else load_model preprocessor_path in
    let model := from_dict (config_model_path config) in
    let number_of_nodes := config_model_nodes config in
    (Globals (Some model) (Some number_of_nodes) (Some preprocessor)
             (preprocessor_type g) true,
     Return ())
  else (g, Raise AssertionError).

(** The globals are only read once [initialized] holds; they are set by
    then, and the last case does not arise. *)
Definition calculate_coverage (g : globals) (pcap_path : Path)
    : outcome (list Z) :=
  if negb (initialized g) then Raise AssertionError
  else
    let data := load_data.load_and_split_data_syn sniff pcap_path "" in
    match preprocessor g, model g, number_of_nodes g with
    | Some preprocessor, Some model, Some number_of_nodes =>
        preprocessed_data ←
          call (preprocess.preprocess predict transform data preprocessor
                                      (preprocessor_type g) SAMPLE_SIZE);
        if bool_decide (py.len preprocessed_data = 1) then
          call (coverage_single.calculate_coverage_single
                  (viterbi model) number_of_nodes preprocessed_data)
        else Raise AssertionError
    | _, _, _ => Raise NoneUse
    end.


End script.

End hmm_coverage.

(** ** measures.py, [dtw_normalized_increases] *)

Module dtw.
Import py.

(** State of the loop of [dtw_normalized_increases]. *)
Record increases_state : Type := IncreasesState {
  number_of_increases_fuzzer : Z;
  number_of_increases_hmm : Z;
  normalized_fuzzer : list Z;
  normalized_hmm : list Z
}.

Definition increases_step (fuzzer hmm : list Qc) (st : increases_state)
    (i : Z) : result increases_state :=
  fuzzer_i ← getitem fuzzer i;
  fuzzer_p ← getitem fuzzer (i - 1);
  let number_of_increases_fuzzer :=
    if bool_decide (fuzzer_p < fuzzer_i)%Qc
    then number_of_increases_fuzzer st + 1
    else number_of_increases_fuzzer st in
  let normalized_fuzzer :=
    normalized_fuzzer st ++ [number_of_increases_fuzzer] in
  hmm_i ← getitem hmm i;
  hmm_p ← getitem hmm (i - 1);
  let number_of_increases_hmm :=
    if bool_decide (hmm_p < hmm_i)%Qc
    then number_of_increases_hmm st + 1
    else number_of_increases_hmm st in
  let normalized_hmm := normalized_hmm st ++ [number_of_increases_hmm] in
  Ok (IncreasesState number_of_increases_fuzzer number_of_increases_hmm
                     normalized_fuzzer normalized_hmm).

Fixpoint increases_loop (fuzzer hmm : list Qc) (st : increases_state)
    (indices : list Z) : result increases_state :=
  match indices with
  | [] => Ok st
  | i :: rest =>
      st ← increases_step fuzzer hmm st i;
      increases_loop fuzzer hmm st rest
  end.

(** [data[:, j] = values] on an array of [rows] rows: the values must be
    as many as the rows, or one value that is then repeated; anything else
    raises [ValueError]. *)
Definition column (rows : Z) (values : list Z) : result (list Qc) :=
  if bool_decide (len values = rows) then Ok (Qc_of_Z <$> values)
  else
    match values with
    | [v] => Ok (replicate (Z.to_nat rows) (Qc_of_Z v))
    | _ => Raise ValueError
    end.

(** An array of two columns, as the list of its rows. *)
Definition array2 (rows : Z) (column0 column1 : list Z)
    : result (list (Qc * Qc)) :=
  c0 ← column rows column0;
  c1 ← column rows column1;
  Ok (zip c0 c1).

Section dtw.
Context {D : Type}.
(** [sm.dtw(data1, data2, metric="euclidean")[0]]. *)
Variable sm_dtw : list (Qc * Qc) → list (Qc * Qc) → D.

(** The function prints the distance and returns nothing; the model
    returns the distance it prints. *)
Definition dtw_normalized_increases (fuzzer hmm : list Qc) : result D :=
  st ← increases_loop fuzzer hmm (IncreasesState 0 0 [0] [0])
                      (seqZ 1 (len fuzzer - 1));
  let xs := seqZ 0 (len (normalized_fuzzer st)) in
  data1 ← array2 (len (normalized_fuzzer st)) xs (normalized_fuzzer st);
  data2 ← array2 (len (normalized_hmm st)) xs (normalized_hmm st);
  Ok (sm_dtw data1 data2).

End dtw.

End dtw.

(** ** More concrete inputs *)

Module more_examples.

(** Two files that hold the same two decoded paths in opposite orders, and
    a file that holds one path. *)
Definition example_load_order (reversed : bool) : list (list Z) :=
  if reversed then [[0; 1]; [0; 0]] else [[0; 0]; [0; 1]].

Definition example_load_one (_ : unit) : list (list Z) := [[0; 1]].

(** Two captures: the one at [false] holds one connection, a SYN packet
    and a data packet; the one at [true] goes on with a second SYN
    packet. *)
Definition example_sniff (two : bool) (_ : string) : list load_data.packet :=
  [load_data.Packet true true "10.0.0.1" "S" 40000 80 ["001"%byte];
   load_data.Packet true true "10.0.0.1" "PA" 40000 80 ["002"%byte]]
  ++ if two
     then [load_data.Packet true true "10.0.0.1" "S" 40001 80 ["003"%byte]]
     else [].

(** A preprocessor that keeps the first value of a packet's vector, and a
    model that decodes every sequence to the path that stays in state 0. *)
Definition example_predict (_ : unit) (pkts : list (list Qc))
    : list (list Qc) := take 1 <$> pkts.
Definition example_transform (_ : unit) (pkt : list Qc) : list Qc :=
  take 1 pkt.
Definition example_loader (_ : string) : unit := tt.
Definition example_decode (_ : unit) (rows : list (list Qc))
    : coverage_calculation.viterbi_res unit :=
  (0%Qc, (λ _, (0, tt)) <$> rows).
Definition example_config (preprocessor_type : string)
    : hmm_coverage.config :=
  hmm_coverage.Config preprocessor_type "preprocessor" "model" 2.

(** A distance that keeps the two curves it is given. *)
Definition example_dtw (data1 data2 : list (Qc * Qc))
    : list (Qc * Qc) * list (Qc * Qc) := (data1, data2).

End more_examples.

(** ** Notions used in the statements on packets *)

Module packet_notions.

(** Reading eight 0/1 values back as a byte, most significant bit first,
    and a list of such values as bytes. *)
Definition byte_of_bits (bits : list Qc) : option byte :=
  Byte.of_N
    (foldl (λ acc x, (2 * acc + (if bool_decide (x = 1%Qc) then 1 else 0))%N)
           0%N bits).

Fixpoint bytes_of_bits (bits : list Qc) : option (list byte) :=
  match bits with
  | [] => Some []
  | b7 :: b6 :: b5 :: b4 :: b3 :: b2 :: b1 :: b0 :: rest =>
      byte ← byte_of_bits [b7; b6; b5; b4; b3; b2; b1; b0];
      bytes ← bytes_of_bits rest;
      Some (byte :: bytes)
  | _ => None
  end.

(** The eight values that stand for one byte: its bits, most significant
    first. *)
Definition bits_of_byte (b : byte) : list Qc :=
  (λ k, Qc_of_Z (Z.b2z (N.testbit (Byte.to_N b) k)))
    <$> [7; 6; 5; 4; 3; 2; 1; 0]%N.

(** The number of SYN packets of a capture, a leading one not counted. *)
Definition later_syns (packets : list load_data.packet) : nat :=
  length (filter (λ p, load_data.is_syn p = true) (drop 1 packets)).

(** A run of packets that belongs to one connection: it has no SYN packet
    after its first packet. *)
Definition one_connection (g : list load_data.packet) : Prop :=
  Forall (λ p, load_data.is_syn p = false) (drop 1 g).

(** A run of packets that starts with a SYN packet. *)
Definition starts_with_syn (g : list load_data.packet) : Prop :=
  ∃ p, head g = Some p ∧ load_data.is_syn p = true.

(** The dictionary that numbers the runs from 0 and holds the raw bytes of
    their packets. *)
Definition numbered (groups : list (list load_data.packet))
    : py_dict.dict Z (list (list byte)) :=
  imap (λ i g, (Z.of_nat i, load_data.raw <$> g)) groups.

(** What the loop of [load_and_split_data_syn] has built after the packets
    [prefix]: the runs [groups] are stored, the run [cur] is being
    collected. *)
Record syn_inv (prefix : list load_data.packet) (st : load_data.syn_state)
    (groups : list (list load_data.packet)) (cur : list load_data.packet)
    : Prop := SynInv {
  syn_stored : load_data.packets_filtered_split st = numbered groups;
  syn_current : load_data.current_sequence st = load_data.raw <$> cur;
  syn_number : load_data.sequence_no st = Z.of_nat (length groups);
  syn_concat : concat groups ++ cur = prefix;
  syn_count : length groups = later_syns prefix;
  syn_nonempty : prefix ≠ [] → cur ≠ [];
  syn_groups : ∀ i g, groups !! i = Some g →
    g ≠ [] ∧ one_connection g ∧ ((0 < i)%nat → starts_with_syn g);
  syn_cur : one_connection cur
            ∧ ((0 < length groups)%nat → starts_with_syn cur)
}.

(** The port that names the connection of a packet in
    [load_and_split_data_ports], for the packets that have one. *)
Definition port_of (ip_addr_sender ip_addr_target : string)
    (pkt : load_data.packet) : option Z :=
  if load_data.has_IP pkt && load_data.has_TCP pkt
  then load_data.connection_port ip_addr_sender ip_addr_target pkt
  else None.

(** The packets of a capture that belong to the connection of a port. *)
Definition connection (ip_addr_sender ip_addr_target : string) (port : Z)
    (packets : list load_data.packet) : list load_data.packet :=
  filter (λ p, port_of ip_addr_sender ip_addr_target p = Some port) packets.

(** The elements of a list without repetition, each where it is first. *)
Definition first_occurrences `{EqDecision A} (l : list A) : list A :=
  reverse (remove_dups (reverse l)).

(** What the loop of [load_and_split_data_ports] has built after the
    packets [prefix]. *)
Record ports_inv (ip_addr_sender ip_addr_target : string)
    (prefix : list load_data.packet) (st : load_data.ports_state)
    : Prop := PortsInv {
  ports_seen : load_data.seen_ports st
    = first_occurrences (omap (port_of ip_addr_sender ip_addr_target) prefix);
  ports_keys : py_dict.keys (load_data.ports_split st)
    = pretty <$> load_data.seen_ports st;
  ports_get : ∀ port,
    py_dict.get (load_data.ports_split st) (pretty port)
    = if bool_decide (port ∈ load_data.seen_ports st)
      then Some (load_data.raw
                   <$> connection ip_addr_sender ip_addr_target port prefix)
      else None
}.

End packet_notions.

(** ** Notions used in the statements on the script and on the curves *)

Module curve_notions.

(** The vector the preprocessors compute of a packet. *)
Definition packet_vector (pkt : load_data.packet) : list Qc :=
  util.scale_packet_values
    (util.scale_packet_length (load_data.raw pkt) hmm_coverage.SAMPLE_SIZE).

(** The number of places at which a curve goes up from one sample to the
    next. *)
Fixpoint increases (curve : list Qc) : nat :=
  match curve with
  | a :: (b :: _) as rest =>
      ((if bool_decide (a < b)%Qc then 1 else 0) + increases rest)%nat
  | _ => 0%nat
  end.

(** The number of increases among the samples 0..i of a curve. *)
Definition steps (curve : list Qc) (i : nat) : Z :=
  Z.of_nat (increases (take (S i) curve)).

(** The first [samples] points of the step curve of a curve, and one
    point at least: the point at [i] is the number of increases among the
    samples 0..i. *)
Definition step_curve (samples : nat) (curve : list Qc) : list (Qc * Qc) :=
  (λ i, (Qc_of_Z (Z.of_nat i), Qc_of_Z (steps curve i)))
    <$> seq 0 (Nat.max 1 samples).

(** What the loop of [dtw_normalized_increases] has built after the index
    [j]. *)
Definition increases_inv (fuzzer hmm : list Qc) (j : nat)
    (st : dtw.increases_state) : Prop :=
  dtw.number_of_increases_fuzzer st = steps fuzzer j
  ∧ dtw.number_of_increases_hmm st = steps hmm j
  ∧ dtw.normalized_fuzzer st = steps fuzzer <$> seq 0 (S j)
  ∧ dtw.normalized_hmm st = steps hmm <$> seq 0 (S j).

(** The sequence the script hands to the model for a capture: the rows the
    preprocessor of the configuration computes of the packets. *)
Definition encoded {Model Row : Type}
    (predict : Model → list (list Qc) → list Row)
    (transform : Model → list Qc → Row)
    (joblib_load load_model : string → Model)
    (config : hmm_coverage.config) (packets : list load_data.packet)
    : list Row :=
  let path := hmm_coverage.config_preprocessor_path config in
  if bool_decide (hmm_coverage.config_preprocessor_type config = "pca"%string)
  then transform (joblib_load path) <$> (packet_vector <$> packets)
  else predict (load_model path) (packet_vector <$> packets).

End curve_notions.

(** * Properties *)

Import py.

(** ** Arithmetic on [Qc] *)

Section qc_facts.
Local Open Scope Qc_scope.

Lemma Qc_sub_nonneg (a b : Qc) : a ≤ b → 0 ≤ b - a.
Proof.
  intros H. apply (Qcplus_le_mono_r _ _ a). rewrite Qcplus_0_l.
  by replace (b - a + a) with b by ring.
Qed.

Lemma Qc_sub_pos (a b : Qc) : a < b → 0 < b - a.
Proof.
  intros H. apply (Qcplus_lt_mono_r _ _ a). rewrite Qcplus_0_l.
  by replace (b - a + a) with b by ring.
Qed.

Lemma Qc_div_nonneg (a b : Qc) : 0 ≤ a → 0 < b → 0 ≤ a / b.
Proof.
  intros Ha Hb. unfold Qcdiv. apply Qcmult_nonneg_nonneg; [done|].
  apply Qclt_le_weak. by apply Qcinv_pos.
Qed.

Lemma Qc_div_pos (a b : Qc) : 0 < a → 0 < b → 0 < a / b.
Proof.
  intros Ha Hb. unfold Qcdiv. apply Qcmult_pos_pos; [done|].
  by apply Qcinv_pos.
Qed.

Lemma Qc_div_diag (b : Qc) : b ≠ 0 → b / b = 1.
Proof. intros Hb. unfold Qcdiv. by apply Qcmult_inv_r. Qed.

Lemma Qc_div_le_1 (a b : Qc) : a ≤ b → 0 < b → a / b ≤ 1.
Proof.
  intros Hab Hb.
  assert (b ≠ 0) as Hb0 by (intros ->; by apply (Qclt_not_eq 0 0)).
  rewrite <-(Qc_div_diag b Hb0). unfold Qcdiv.
  apply Qcmult_le_mono_nonneg_r; [|done].
  apply Qclt_le_weak. by apply Qcinv_pos.
Qed.

Lemma Qc_div_0_l (b : Qc) : 0 / b = 0.
Proof. unfold Qcdiv. apply Qcmult_0_l. Qed.

Lemma Qc_lt_neq (a b : Qc) : a < b → a ≠ b.
Proof. apply Qclt_not_eq. Qed.

Lemma Qc_le_lt_or_eq (a b : Qc) : a ≤ b → a < b ∨ a = b.
Proof.
  intros H. destruct (decide (a = b)) as [|Hne]; [by right|left].
  apply Qcnot_le_lt. intros H'. apply Hne. by apply Qcle_antisym.
Qed.

End qc_facts.

(** ** [min] and [max] *)

Section min_max.
Local Open Scope Qc_scope.

Lemma foldl_min_spec (l : list Qc) (x : Qc) :
  let m := foldl (λ m y, if bool_decide (y < m) then y else m) x l in
  m ∈ x :: l ∧ ∀ y, y ∈ x :: l → m ≤ y.
Proof.
  revert x. induction l as [|z l IH]; intros x; simpl.
  - split; [apply elem_of_cons; auto|]. intros y ->%list_elem_of_singleton. apply Qcle_refl.
  - destruct (IH (if bool_decide (z < x) then z else x)) as [Hin Hle].
    simpl in Hin, Hle. split.
    + case_bool_decide; rewrite !elem_of_cons in *; tauto.
    + intros y Hy.
      assert ((if bool_decide (z < x) then z else x) ≤ x
              ∧ (if bool_decide (z < x) then z else x) ≤ z) as [Hx Hz].
      { case_bool_decide as Hlt.
        - split; [by apply Qclt_le_weak|apply Qcle_refl].
        - split; [apply Qcle_refl|by apply Qcnot_lt_le]. }
      apply elem_of_cons in Hy as [->|Hy].
      * eapply Qcle_trans; [|exact Hx]. apply Hle; rewrite !elem_of_cons; auto.
      * apply elem_of_cons in Hy as [->|Hy].
        -- eapply Qcle_trans; [|exact Hz]. apply Hle; rewrite !elem_of_cons; auto.
        -- apply Hle; rewrite !elem_of_cons; auto.
Qed.

Lemma foldl_max_spec (l : list Qc) (x : Qc) :
  let m := foldl (λ m y, if bool_decide (m < y) then y else m) x l in
  m ∈ x :: l ∧ ∀ y, y ∈ x :: l → y ≤ m.
Proof.
  revert x. induction l as [|z l IH]; intros x; simpl.
  - split; [apply elem_of_cons; auto|]. intros y ->%list_elem_of_singleton. apply Qcle_refl.
  - destruct (IH (if bool_decide (x < z) then z else x)) as [Hin Hle].
    simpl in Hin, Hle. split.
    + case_bool_decide; rewrite !elem_of_cons in *; tauto.
    + intros y Hy.
      assert (x ≤ (if bool_decide (x < z) then z else x)
              ∧ z ≤ (if bool_decide (x < z) then z else x)) as [Hx Hz].
      { case_bool_decide as Hlt.
        - split; [by apply Qclt_le_weak|apply Qcle_refl].
        - split; [apply Qcle_refl|by apply Qcnot_lt_le]. }
      apply elem_of_cons in Hy as [->|Hy].
      * eapply Qcle_trans; [exact Hx|]. apply Hle; rewrite !elem_of_cons; auto.
      * apply elem_of_cons in Hy as [->|Hy].
        -- eapply Qcle_trans; [exact Hz|]. apply Hle; rewrite !elem_of_cons; auto.
        -- apply Hle; rewrite !elem_of_cons; auto.
Qed.

Lemma min_elem (x : Qc) (l : list Qc) : py.min (x :: l) ∈ x :: l.
Proof. apply foldl_min_spec. Qed.

Lemma min_le (x y : Qc) (l : list Qc) : y ∈ x :: l → py.min (x :: l) ≤ y.
Proof. apply foldl_min_spec. Qed.

Lemma max_elem (x : Qc) (l : list Qc) : py.max (x :: l) ∈ x :: l.
Proof. apply foldl_max_spec. Qed.

Lemma max_ge (x y : Qc) (l : list Qc) : y ∈ x :: l → y ≤ py.max (x :: l).
Proof. apply foldl_max_spec. Qed.

(** A lower bound that occurs in the list is its minimum. *)
Lemma min_unique (m x : Qc) (l : list Qc) :
  m ∈ x :: l → (∀ y, y ∈ x :: l → m ≤ y) → py.min (x :: l) = m.
Proof.
  intros Hin Hlow. apply Qcle_antisym; [by apply min_le|].
  apply Hlow, min_elem.
Qed.

Lemma max_unique (m x : Qc) (l : list Qc) :
  m ∈ x :: l → (∀ y, y ∈ x :: l → y ≤ m) → py.max (x :: l) = m.
Proof.
  intros Hin Hup. apply Qcle_antisym; [apply Hup, max_elem|].
  by apply max_ge.
Qed.

End min_max.

(** ** [normalize] *)

Section normalize_facts.
Import measures.
Local Open Scope Qc_scope.

(** With the leading [0.0] every extremum is taken over a list that
    contains 0. *)
Lemma normalize_min_nonpos (curve : list Qc) : py.min (0 :: curve) ≤ 0.
Proof. apply min_le, elem_of_cons. by left. Qed.

Lemma normalize_max_nonneg (curve : list Qc) : 0 ≤ py.max (0 :: curve).
Proof. apply max_ge, elem_of_cons. by left. Qed.

Lemma normalize_nondegenerate (curve : list Qc) :
  py.min (0 :: curve) ≠ py.max (0 :: curve) →
  normalize curve
  = (λ x, (x - py.min (0 :: curve))
          / (py.max (0 :: curve) - py.min (0 :: curve))) <$> curve.
Proof. intros Hne. unfold normalize. by rewrite bool_decide_eq_false_2. Qed.

Lemma normalize_degenerate (curve : list Qc) :
  py.min (0 :: curve) = py.max (0 :: curve) →
  normalize curve = 0 :: replicate (length curve) 1.
Proof.
  intros Heq. unfold normalize. rewrite bool_decide_eq_true_2 by done.
  simpl. by rewrite Nat.sub_0_r.
Qed.

Lemma min_lt_max (curve : list Qc) :
  py.min (0 :: curve) ≠ py.max (0 :: curve) →
  py.min (0 :: curve) < py.max (0 :: curve).
Proof.
  intros Hne.
  destruct (Qc_le_lt_or_eq (py.min (0 :: curve)) (py.max (0 :: curve)))
    as [|]; [|done|done].
  eapply Qcle_trans; [apply normalize_min_nonpos|apply normalize_max_nonneg].
Qed.

Lemma normalize_bounds (curve : list Qc) (x : Qc) :
  x ∈ normalize curve → 0 ≤ x ≤ 1.
Proof.
  destruct (decide (py.min (0 :: curve) = py.max (0 :: curve))) as [Heq|Hne].
  - rewrite (normalize_degenerate _ Heq).
    intros [->|[-> _]%elem_of_replicate]%elem_of_cons; by split.
  - rewrite (normalize_nondegenerate _ Hne).
    intros (y & -> & Hy)%list_elem_of_fmap.
    pose proof (min_lt_max _ Hne) as Hlt.
    assert (y ∈ 0 :: curve) as Hy' by (apply elem_of_cons; by right).
    split.
    + apply Qc_div_nonneg; [|by apply Qc_sub_pos].
      by apply Qc_sub_nonneg, min_le.
    + apply Qc_div_le_1; [|by apply Qc_sub_pos].
      apply Qcplus_le_mono_r. by apply max_ge.
Qed.

End normalize_facts.

Section normalize_claims.
Import measures.
Local Open Scope Qc_scope.

Lemma min_max_replicate_0 (n : nat) :
  py.min (0 :: replicate n 0) = 0 ∧ py.max (0 :: replicate n 0) = 0.
Proof.
  split; [apply min_unique|apply max_unique];
    try (apply elem_of_cons; by left);
    intros y [->|[-> _]%elem_of_replicate]%elem_of_cons; apply Qcle_refl.
Qed.

Lemma min_max_replicate_pos (n : nat) (c : Qc) :
  0 < c →
  py.min (0 :: replicate (S n) c) = 0 ∧ py.max (0 :: replicate (S n) c) = c.
Proof.
  intros Hc. split; [apply min_unique|apply max_unique].
  - apply elem_of_cons; by left.
  - intros y [->|[-> _]%elem_of_replicate]%elem_of_cons;
      [apply Qcle_refl|by apply Qclt_le_weak].
  - apply elem_of_cons; right. apply elem_of_replicate. by split.
  - intros y [->|[-> _]%elem_of_replicate]%elem_of_cons;
      [by apply Qclt_le_weak|apply Qcle_refl].
Qed.

(** C1, as the code has it.  The degenerate branch of [normalize] tests
    the curve after the leading [0.0] was put in front, so it is taken by
    the all-zero curves only: those give [0.0] followed by one [1.0] per
    input element.  A curve that is flat at a positive level is an
    ordinary curve: every element maps to [1.0] and the output has as many
    elements as the input (no leading [0.0]). *)
Theorem normalize_flat (n : nat) :
  normalize (replicate n 0) = 0 :: replicate n 1
  ∧ ∀ c : Qc, 0 < c → normalize (replicate (S n) c) = replicate (S n) 1.
Proof.
  split.
  - destruct (min_max_replicate_0 n) as [Hmin Hmax].
    rewrite normalize_degenerate by congruence.
    by rewrite length_replicate.
  - intros c Hc. destruct (min_max_replicate_pos n c Hc) as [Hmin Hmax].
    assert (c ≠ 0) as Hc0 by (intros ->; by apply (Qclt_not_eq 0 0)).
    rewrite normalize_nondegenerate by congruence.
    rewrite Hmin, Hmax, fmap_replicate. f_equal.
    replace (c - 0) with c by ring. by apply Qc_div_diag.
Qed.

Lemma normalize_flat_witness :
  0 < Qc_of_Z 5
  ∧ normalize (replicate 3 (Qc_of_Z 5)) = replicate 3 1.
Proof.
  split; [reflexivity|].
  apply (proj2 (normalize_flat 2) (Qc_of_Z 5)). reflexivity.
Defined.

(** C1 as written fails at its own example: [normalize([5,5,5])] is
    [[1.0, 1.0, 1.0]], not [[0.0, 1.0, 1.0, 1.0]]. *)
Lemma normalize_flat_counterexample :
  normalize [Qc_of_Z 5; Qc_of_Z 5; Qc_of_Z 5] = [1; 1; 1]
  ∧ normalize [Qc_of_Z 5; Qc_of_Z 5; Qc_of_Z 5] ≠ [0; 1; 1; 1].
Proof.
  split.
  - apply (bool_decide_unpack _). vm_compute. exact I.
  - vm_compute. discriminate.
Qed.

(** The first element of a strictly increasing curve bounds the rest. *)
Lemma sorted_head_lt (c0 : Qc) (rest : list Qc) :
  Sorted Qclt (c0 :: rest) → ∀ y, y ∈ rest → c0 < y.
Proof.
  intros Hs%Sorted_StronglySorted; [|intros ???; apply Qclt_trans].
  inversion_clear Hs as [|?? _ Hall]. intros y Hy.
  by eapply Forall_forall in Hall.
Qed.

(** C3, as the code has it.  Every value [normalize] returns lies in
    [[0,1]].  The non-degenerate branch drops the leading [0.0] again, so
    the first output belongs to the first input element: for a strictly
    increasing curve it is [0.0] when that element is at most 0 (or the
    curve is empty), and positive when that element is positive. *)
Theorem normalize_range (curve : list Qc) :
  (∀ x, x ∈ normalize curve → 0 ≤ x ≤ 1)
  ∧ (Sorted Qclt curve →
     (∀ c0, head curve = Some c0 → c0 ≤ 0) →
     head (normalize curve) = Some 0)
  ∧ (Sorted Qclt curve →
     ∀ c0, head curve = Some c0 → 0 < c0 →
     ∃ y, head (normalize curve) = Some y ∧ 0 < y).
Proof.
  split; [apply normalize_bounds|]. split.
  - intros Hs Hhd.
    destruct (decide (py.min (0 :: curve) = py.max (0 :: curve)))
      as [Heq|Hne]; [by rewrite normalize_degenerate|].
    rewrite normalize_nondegenerate by done.
    destruct curve as [|c0 rest].
    { exfalso. by apply Hne. }
    assert (py.min (0 :: c0 :: rest) = c0) as ->.
    { apply min_unique.
      - rewrite !elem_of_cons. auto.
      - intros y [->|[->|Hy]%elem_of_cons]%elem_of_cons.
        + by apply Hhd.
        + apply Qcle_refl.
        + by apply Qclt_le_weak, (sorted_head_lt c0 rest). }
    rewrite fmap_cons. cbn [head]. f_equal.
    replace (c0 - c0) with 0 by ring. apply Qc_div_0_l.
  - intros Hs c0 Hhd Hc0. destruct curve as [|c0' rest]; [done|].
    injection Hhd as ->.
    assert (py.min (0 :: c0 :: rest) = 0) as Hmin.
    { apply min_unique.
      - apply elem_of_cons. by left.
      - intros y [->|[->|Hy]%elem_of_cons]%elem_of_cons.
        + apply Qcle_refl.
        + by apply Qclt_le_weak.
        + apply Qclt_le_weak. eapply Qclt_trans; [exact Hc0|].
          by apply (sorted_head_lt c0 rest). }
    assert (c0 ≤ py.max (0 :: c0 :: rest)) as Hmax.
    { apply max_ge. rewrite !elem_of_cons. auto. }
    assert (0 < py.max (0 :: c0 :: rest)) as Hpos
      by (eapply Qclt_le_trans; eauto).
    rewrite normalize_nondegenerate
      by (rewrite Hmin; by apply Qclt_not_eq).
    rewrite Hmin, fmap_cons. cbn [head]. eexists; split; [done|].
    replace (c0 - 0) with c0 by ring.
    replace (py.max (0 :: c0 :: rest) - 0)
      with (py.max (0 :: c0 :: rest)) by ring.
    by apply Qc_div_pos.
Qed.

Lemma normalize_range_witness :
  Sorted Qclt [0; 1; Qc_of_Z 2]
  ∧ head (normalize [0; 1; Qc_of_Z 2]) = Some 0.
Proof.
  assert (Sorted Qclt [0; 1; Qc_of_Z 2]) as Hs
    by (repeat constructor; reflexivity).
  split; [exact Hs|].
  apply (proj1 (proj2 (normalize_range [0; 1; Qc_of_Z 2])) Hs).
  intros c0 [= <-]. discriminate.
Defined.

(** C3 as written fails on the strictly increasing curve [[1, 2]]:
    [normalize] returns [[0.5, 1.0]], whose first element is not [0.0]. *)
Lemma normalize_range_counterexample :
  Sorted Qclt [1; Qc_of_Z 2]
  ∧ head (normalize [1; Qc_of_Z 2]) = Some (1 / Qc_of_Z 2)
  ∧ head (normalize [1; Qc_of_Z 2]) ≠ Some 0.
Proof.
  split; [repeat constructor; reflexivity|]. split.
  - apply (bool_decide_unpack _). vm_compute. exact I.
  - vm_compute. discriminate.
Qed.

End normalize_claims.

(** ** [generate_coverage_map] *)

Section coverage_map_facts.
Import coverage_calculation notions.

Lemma len_replicate {A} (n : Z) (x : A) :
  len (replicate (Z.to_nat (n * n)) x) = n * n.
Proof. unfold len. rewrite length_replicate. nia. Qed.

Lemma setitem_valid {A} (l : list A) (i : Z) (v : A) :
  valid_index (len l) i →
  ∃ j, (j < length l)%nat ∧ setitem l i v = Ok (<[j := v]> l)
       ∧ Z.of_nat j = if bool_decide (i < 0) then len l + i else i.
Proof.
  unfold valid_index, setitem, len. intros Hi.
  exists (Z.to_nat (if bool_decide (i < 0) then len l + i else i)).
  unfold len. cbv zeta.
  destruct (bool_decide (i < 0)) eqn:Hneg;
    [apply bool_decide_eq_true in Hneg|apply bool_decide_eq_false in Hneg];
    (rewrite bool_decide_eq_true_2 by lia); repeat split; lia.
Qed.

Lemma setitem_invalid {A} (l : list A) (i : Z) (v : A) :
  ¬ valid_index (len l) i → setitem l i v = Raise IndexError.
Proof.
  unfold valid_index, setitem, len. intros Hi. cbv zeta.
  destruct (bool_decide (i < 0)) eqn:Hneg;
    [apply bool_decide_eq_true in Hneg|apply bool_decide_eq_false in Hneg];
    by rewrite bool_decide_eq_false_2 by lia.
Qed.

Lemma popcount_insert (coverage : list Z) (j : nat) (v : Z) :
  (popcount (<[j := v]> coverage) ≤ S (popcount coverage))%nat.
Proof.
  unfold popcount. revert j. induction coverage as [|b l IH]; intros j.
  - simpl. lia.
  - destruct j as [|j]; simpl.
    + rewrite !filter_cons. repeat case_decide; simpl; lia.
    + specialize (IH j). rewrite !filter_cons.
      case_decide; simpl; lia.
Qed.

Lemma popcount_replicate_0 (n : nat) : popcount (replicate n 0) = 0%nat.
Proof.
  unfold popcount. induction n as [|n IH]; [done|]. simpl.
  rewrite filter_cons. by case_decide.
Qed.

Lemma edges_cons (src dst : Z) (rest : list Z) :
  edges (src :: dst :: rest) = (src, dst) :: edges (dst :: rest).
Proof. done. Qed.

Lemma length_edges (nodes : list Z) :
  length (edges nodes) = (length nodes - 1)%nat.
Proof.
  unfold edges. rewrite length_zip_with, length_drop. lia.
Qed.

(** An edge between states of [[0, N)] has a flat index in [[0, N²)]. *)
Lemma edge_index_in_range (N src dst : Z) :
  0 ≤ src < N → 0 ≤ dst < N → 0 ≤ edge_index N (src, dst) < N * N.
Proof. unfold edge_index. simpl. nia. Qed.

Lemma edges_in_range (N : Z) (nodes : list Z) :
  Forall (λ s, 0 ≤ s < N) nodes →
  Forall (λ e, 0 ≤ edge_index N e < N * N) (edges nodes).
Proof.
  induction nodes as [|src [|dst rest] IH]; intros Hall;
    [constructor|constructor|].
  rewrite edges_cons. inversion_clear Hall as [|?? Hsrc Hrest].
  constructor; [|by apply IH].
  inversion_clear Hrest. by apply edge_index_in_range.
Qed.

(** The marking loop when every flat index is accepted: it returns a list
    of the same length in which exactly the edge entries were overwritten
    by 1. *)
Lemma mark_edges_ok (N : Z) (nodes : list Z) (coverage : list Z) :
  Forall (λ e, valid_index (len coverage) (edge_index N e)) (edges nodes) →
  ∃ bm, mark_edges nodes N coverage = Ok bm
        ∧ length bm = length coverage
        ∧ (popcount bm ≤ popcount coverage + length (edges nodes))%nat.
Proof.
  revert coverage.
  induction nodes as [|src [|dst rest] IH]; intros coverage Hall.
  - exists coverage. simpl. repeat split; lia.
  - exists coverage. simpl. repeat split; lia.
  - rewrite edges_cons in Hall. inversion_clear Hall as [|?? Hhd Htl].
    destruct (setitem_valid coverage (src * N + dst) 1 Hhd)
      as (j & Hj & Hset & _).
    assert (len (<[j:=1]> coverage) = len coverage) as Hlen
      by (unfold len; by rewrite length_insert).
    destruct (IH (<[j:=1]> coverage)) as (bm & Hbm & Hlbm & Hpop).
    { by rewrite Hlen. }
    exists bm. split; [|split].
    + change (mark_edges (src :: dst :: rest) N coverage)
        with (coverage' ← setitem coverage (src * N + dst) 1;
              mark_edges (dst :: rest) N coverage').
      by rewrite Hset.
    + by rewrite Hlbm, length_insert.
    + rewrite edges_cons. simpl length.
      pose proof (popcount_insert coverage j 1). lia.
Qed.

(** The marking loop when some flat index is rejected. *)
Lemma mark_edges_error (N : Z) (nodes : list Z) (coverage : list Z) :
  Exists (λ e, ¬ valid_index (len coverage) (edge_index N e)) (edges nodes) →
  mark_edges nodes N coverage = Raise IndexError.
Proof.
  revert coverage.
  induction nodes as [|src [|dst rest] IH]; intros coverage Hex.
  - by apply Exists_nil in Hex.
  - by apply Exists_nil in Hex.
  - change (mark_edges (src :: dst :: rest) N coverage)
      with (coverage' ← setitem coverage (src * N + dst) 1;
            mark_edges (dst :: rest) N coverage').
    destruct (decide (valid_index (len coverage) (src * N + dst)))
      as [Hv|Hv].
    + destruct (setitem_valid coverage (src * N + dst) 1 Hv)
        as (j & Hj & -> & _).
      simpl. apply IH. rewrite edges_cons in Hex.
      apply Exists_cons in Hex as [Hhd|Htl]; [done|].
      unfold len in *. by rewrite length_insert.
    + by rewrite (setitem_invalid _ _ _ Hv).
Qed.

End coverage_map_facts.

Section coverage_map_claims.
Import coverage_calculation notions.
Context {State : Type}.

(** C8.  A decoded path of length [L] whose states all lie in [[0, N)]
    gives a coverage list of length [N²] with at most [L - 1] set entries
    (one per consecutive pair, none for [L ≤ 1], where the list is all
    zero); for [N = 3] and the path [[0, 1, 2, 1]] exactly the entries 1,
    5 and 7 are set. *)
Theorem generate_coverage_map_bits :
  (∀ (res : viterbi_res State) (N : Z),
     Forall (λ s, 0 ≤ s.1 < N) res.2 →
     ∃ bm, generate_coverage_map res N = Ok bm
           ∧ length bm = Z.to_nat (N * N)
           ∧ (popcount bm ≤ length res.2 - 1)%nat
           ∧ ((length res.2 ≤ 1)%nat → bm = replicate (Z.to_nat (N * N)) 0))
  ∧ (∀ (logp : Qc) (s0 s1 s2 s3 : State),
       generate_coverage_map (logp, [(0, s0); (1, s1); (2, s2); (1, s3)]) 3
       = Ok [0; 1; 0; 0; 0; 1; 0; 1; 0]).
Proof.
  split; [|done].
  intros [logp path] N Hall. unfold generate_coverage_map. simpl in *.
  set (nodes := path.*1).
  set (coverage := replicate (Z.to_nat (N * N)) 0).
  assert (Forall (λ s, 0 ≤ s < N) nodes) as Hnodes
    by (subst nodes; by apply Forall_fmap).
  destruct (mark_edges_ok N nodes coverage) as (bm & Hbm & Hlen & Hpop).
  { eapply Forall_impl; [by apply edges_in_range|].
    intros e He. unfold valid_index. subst coverage.
    rewrite len_replicate. simpl in He. lia. }
  exists bm. split; [done|]. split; [|split].
  - subst coverage. by rewrite Hlen, length_replicate.
  - subst coverage. rewrite popcount_replicate_0, length_edges in Hpop.
    subst nodes. rewrite length_fmap in Hpop. lia.
  - intros HL. destruct path as [|p [|p' path]]; simpl in HL; [| |lia].
    + simpl in Hbm. congruence.
    + simpl in Hbm. congruence.
Qed.

(** C10, as the code has it.  The only check is the one Python makes on
    the flat index [src * N + dst]: [generate_coverage_map] raises
    [IndexError] exactly when the flat index of some consecutive pair lies
    outside [[-N², N²)], and returns a coverage list otherwise. *)
Theorem generate_coverage_map_index_error (res : viterbi_res State) (N : Z) :
  (Exists (λ e, ¬ valid_index (N * N) (edge_index N e)) (edges (res.2.*1)) →
   generate_coverage_map res N = Raise IndexError)
  ∧ (Forall (λ e, valid_index (N * N) (edge_index N e)) (edges (res.2.*1)) →
     ∃ bm, generate_coverage_map res N = Ok bm).
Proof.
  unfold generate_coverage_map. split; intros H.
  - apply mark_edges_error. by rewrite len_replicate.
  - destruct (mark_edges_ok N (res.2.*1) (replicate (Z.to_nat (N * N)) 0))
      as (bm & Hbm & _); [by rewrite len_replicate|]. by exists bm.
Qed.

End coverage_map_claims.

Section coverage_map_instances.
Import coverage_calculation notions.

Lemma generate_coverage_map_bits_witness :
  Forall (λ p : Z * unit, 0 ≤ p.1 < 3) [(0, tt); (1, tt); (2, tt); (1, tt)]
  ∧ ∃ bm, generate_coverage_map (0%Qc, [(0, tt); (1, tt); (2, tt); (1, tt)]) 3
          = Ok bm
          ∧ length bm = 9%nat ∧ (popcount bm ≤ 3)%nat.
Proof.
  assert (Forall (λ p : Z * unit, 0 ≤ p.1 < 3)
                 [(0, tt); (1, tt); (2, tt); (1, tt)]) as Hall
    by (repeat constructor; simpl; lia).
  split; [exact Hall|].
  destruct (proj1 generate_coverage_map_bits
              (0%Qc, [(0, tt); (1, tt); (2, tt); (1, tt)]) 3 Hall)
    as (bm & Hbm & Hlen & Hpop & _).
  exists bm. auto.
Defined.

Lemma generate_coverage_map_index_error_witness :
  generate_coverage_map (0%Qc, [(2, tt); (3, tt)]) 3 = Raise IndexError.
Proof.
  apply (proj1 (generate_coverage_map_index_error (0%Qc, [(2, tt); (3, tt)]) 3)).
  apply Exists_cons_hd. unfold valid_index, edge_index. simpl. lia.
Defined.

(** C10 as written fails: with [N = 3] the paths [[0, 3]] and [[0, -1]]
    contain a state outside [[0, 3)] in a consecutive pair, yet a coverage
    list comes back, with entry 3 (the edge 1 → 0) and entry 8 (the edge
    2 → 2) set. *)
Lemma generate_coverage_map_index_error_counterexample :
  ¬ (0 ≤ 3 < 3) ∧ ¬ (0 ≤ -1 < 3)
  ∧ generate_coverage_map (0%Qc, [(0, tt); (3, tt)]) 3
    = Ok [0; 0; 0; 1; 0; 0; 0; 0; 0]
  ∧ generate_coverage_map (0%Qc, [(0, tt); (-1, tt)]) 3
    = Ok [0; 0; 0; 0; 0; 0; 0; 0; 1].
Proof. split; [lia|]. split; [lia|]. split; reflexivity. Qed.

End coverage_map_instances.

(** ** [calculate_coverage] *)

Section calculate_coverage_facts.
Import coverage_calculation notions.

Lemma mark_edges_length (N : Z) (nodes coverage bm : list Z) :
  mark_edges nodes N coverage = Ok bm → length bm = length coverage.
Proof.
  revert coverage.
  induction nodes as [|src [|dst rest] IH]; intros coverage;
    [by intros [= <-]|by intros [= <-]|].
  change (mark_edges (src :: dst :: rest) N coverage)
    with (coverage' ← setitem coverage (src * N + dst) 1;
          mark_edges (dst :: rest) N coverage').
  unfold setitem. case_bool_decide; [|done]. simpl.
  intros ->%IH. apply length_insert.
Qed.

Lemma generate_coverage_map_length {State} (res : viterbi_res State)
    (N : Z) (bm : list Z) :
  generate_coverage_map res N = Ok bm → length bm = Z.to_nat (N * N).
Proof.
  unfold generate_coverage_map. intros ->%mark_edges_length.
  apply length_replicate.
Qed.

Lemma length_logical_or (cs : list bool) (bm : list Z) :
  length cs = length bm → length (np.logical_or cs bm) = length cs.
Proof. intros H. unfold np.logical_or. rewrite length_zip_with. lia. Qed.

(** OR only ever sets entries: the count of set entries cannot drop. *)
Lemma sum_logical_or_mono (cs : list bool) (bm : list Z) :
  length cs = length bm → sum cs ≤ sum (np.logical_or cs bm).
Proof.
  unfold sum, len, np.logical_or. revert bm.
  induction cs as [|c cs IH]; intros [|b bm] Hlen; simplify_eq/=; [done|].
  specialize (IH bm ltac:(done)). rewrite !filter_cons.
  destruct c; simpl; [simpl; lia|].
  case_decide; simpl; lia.
Qed.

Lemma sum_nonneg (cs : list bool) : 0 ≤ sum cs.
Proof. unfold sum, len. lia. Qed.

End calculate_coverage_facts.

Section calculate_coverage_claims.
Import coverage_calculation notions.
Local Open Scope Qc_scope.
Context {File Seq State : Type}.
Variable load : File → list Seq.
Variable viterbi : Seq → viterbi_res State.

(** The fraction the loop appends for a summary [cs]. *)
Let ratio (N : Z) (cs : list bool) : Qc :=
  Qc_of_Z (sum cs) / Qc_of_Z (N * N).

Lemma coverage_loop_app (N : Z) (st : coverage_state) (l1 l2 : list Seq) :
  coverage_loop viterbi N st (l1 ++ l2)
  = (st' ← coverage_loop viterbi N st l1; coverage_loop viterbi N st' l2).
Proof.
  revert st. induction l1 as [|seq l1 IH]; intros st; [done|]. simpl.
  destruct (coverage_step viterbi N st seq) as [st'|e]; [|done].
  apply IH.
Qed.

(** The two nested loops visit the sequences of all files in order. *)
Lemma files_loop_flatten (N : Z) (st : coverage_state) (files : list File) :
  files_loop load viterbi N st files
  = coverage_loop viterbi N st (files ≫= load).
Proof.
  revert st. induction files as [|file files IH]; intros st; [done|].
  simpl. rewrite coverage_loop_app.
  destruct (coverage_loop viterbi N st (load file)) as [st'|e]; [|done].
  apply IH.
Qed.

Lemma coverage_loop_ok (N : Z) (st : coverage_state) (seqs : list Seq)
    (bitmaps : list (list Z)) :
  (N * N)%Z ≠ 0%Z →
  Forall2 (λ seq bm, generate_coverage_map (viterbi seq) N = Ok bm)
          seqs bitmaps →
  coverage_loop viterbi N st seqs
  = Ok (foldl np.logical_or st.1 bitmaps,
        st.2 ++ ((λ k, ratio N (foldl np.logical_or st.1
                                      (take (S k) bitmaps)))
                 <$> seq 0 (length bitmaps))).
Proof.
  intros HN Hall. revert st.
  induction Hall as [|seq bm seqs bitmaps Hbm _ IH]; intros st.
  - simpl. rewrite app_nil_r. by destruct st.
  - simpl. unfold coverage_step. rewrite Hbm. simpl.
    rewrite bool_decide_eq_false_2 by done. simpl. rewrite IH. simpl.
    do 2 f_equal. rewrite <-app_assoc. f_equal. simpl. f_equal.
    rewrite <-fmap_S_seq, <-list_fmap_compose. done.
Qed.

Lemma length_foldl_logical_or (n : nat) (cs : list bool)
    (bitmaps : list (list Z)) :
  length cs = n → Forall (λ bm, length bm = n) bitmaps →
  length (foldl np.logical_or cs bitmaps) = n.
Proof.
  intros Hcs Hall. revert cs Hcs.
  induction Hall as [|bm bitmaps Hbm _ IH]; intros cs Hcs; [done|].
  simpl. apply IH. rewrite length_logical_or; congruence.
Qed.

(** C7.  When every decoded path yields a coverage list (and [N ≠ 0], so
    that [N²] can divide), [calculate_coverage] returns the cumulative OR
    of the lists together with a trace that has one element per list, the
    [i]-th being the set entries of the OR of the first [i + 1] lists
    over [N²], and the trace never decreases. *)
Theorem calculate_coverage_trace (N : Z) (files : list File)
    (bitmaps : list (list Z)) :
  N ≠ 0%Z →
  Forall2 (λ seq bm, generate_coverage_map (viterbi seq) N = Ok bm)
          (files ≫= load) bitmaps →
  ∃ trace,
    calculate_coverage load viterbi N files
    = Ok (cumulative_or N bitmaps, trace)
    ∧ length trace = length bitmaps
    ∧ (∀ i, (i < length bitmaps)%nat →
            trace !! i = Some (covered_fraction N (take (S i) bitmaps)))
    ∧ (∀ i j x y, (i ≤ j)%nat →
                  trace !! i = Some x → trace !! j = Some y → x ≤ y).
Proof.
  intros HN Hall.
  assert ((N * N)%Z ≠ 0%Z) as HNN by nia.
  assert (0 < Qc_of_Z (N * N)) as Hpos.
  { rewrite <-Z2Qc_inj_0. apply (proj1 (Z2Qc_inj_lt 0 (N * N))).
    pose proof (Z.square_nonneg N). lia. }
  set (trace := (λ k, covered_fraction N (take (S k) bitmaps))
                  <$> seq 0 (length bitmaps)).
  assert (∀ i, (i < length bitmaps)%nat →
               trace !! i = Some (covered_fraction N (take (S i) bitmaps)))
    as Hlookup.
  { intros i Hi. subst trace. rewrite list_lookup_fmap.
    by rewrite lookup_seq_lt. }
  assert (length trace = length bitmaps) as Hlen
    by (subst trace; by rewrite length_fmap, length_seq).
  assert (Forall (λ bm, length bm = Z.to_nat (N * N)) bitmaps) as Hlens.
  { clear -Hall. induction Hall as [|???? Hbm]; constructor; [|done].
    by eapply generate_coverage_map_length. }
  assert (∀ i x y, trace !! i = Some x → trace !! (S i) = Some y → x ≤ y)
    as Hstep.
  { intros i x y Hx Hy.
    assert (S i < length bitmaps)%nat as Hi
      by (rewrite <-Hlen; by eapply lookup_lt_Some).
    rewrite Hlookup in Hx, Hy by lia. injection Hx as <-. injection Hy as <-.
    destruct (lookup_lt_is_Some_2 bitmaps (S i) Hi) as [bm Hbm].
    rewrite (take_S_r bitmaps (S i) bm Hbm).
    unfold covered_fraction, cumulative_or. rewrite foldl_snoc.
    unfold Qcdiv. apply Qcmult_le_mono_nonneg_r;
      [by apply Qclt_le_weak, Qcinv_pos|].
    apply (proj1 (Z2Qc_inj_le _ _)), sum_logical_or_mono.
    rewrite (length_foldl_logical_or (Z.to_nat (N * N))).
    - symmetry. eapply Forall_lookup_1 in Hlens; eauto.
    - apply length_replicate.
    - by apply Forall_take. }
  exists trace. split; [|split; [done|split; [done|]]].
  - unfold calculate_coverage. rewrite files_loop_flatten.
    by rewrite (coverage_loop_ok N _ _ bitmaps HNN Hall).
  - intros i j x y Hij. revert y. induction Hij as [|j Hij IH]; intros y Hx Hy.
    + rewrite Hx in Hy. injection Hy as <-. apply Qcle_refl.
    + assert (is_Some (trace !! j)) as [z Hz].
      { apply lookup_lt_is_Some_2. apply lookup_lt_Some in Hy. lia. }
      eapply Qcle_trans; [by apply IH|]. by eapply Hstep.
Qed.

End calculate_coverage_claims.

Section calculate_coverage_instances.
Import coverage_calculation notions examples.
Local Open Scope Qc_scope.

Example calculate_coverage_example :
  calculate_coverage example_load example_viterbi 2 [tt]
  = Ok ([true; true; false; false],
        [1 / Qc_of_Z 4; 1 / Qc_of_Z 2; 1 / Qc_of_Z 2]).
Proof. apply (bool_decide_unpack _). vm_compute. exact I. Qed.

Lemma calculate_coverage_trace_witness :
  ∃ trace,
    calculate_coverage example_load example_viterbi 2 [tt]
    = Ok (cumulative_or 2 example_bitmaps, trace)
    ∧ length trace = 3%nat.
Proof.
  destruct (calculate_coverage_trace example_load example_viterbi 2 [tt]
              example_bitmaps) as (trace & Heq & Hlen & _).
  - discriminate.
  - repeat constructor.
  - exists trace. split; [exact Heq|exact Hlen].
Defined.

End calculate_coverage_instances.

(** ** [create_model] *)

Section create_model_claims.
Import hmms notions.
Context {Model Data World : Type}.
Variable HiddenMarkovModel : Model.
Variable from_samples : Z → Data → World → fit_outcome Model * World.
Variable bake : Model → Model.

Lemma attempt_once_inv (no_hmm : Z) (data : Data) (st : @loop_state Model World) :
  successful st = false →
  loop_inv no_hmm st →
  loop_inv no_hmm (attempt_once from_samples no_hmm data st)
  ∧ i (attempt_once from_samples no_hmm data st) = i st + 1.
Proof.
  intros Hs [Hreq Hi Hfail _]. specialize (Hfail Hs).
  unfold attempt_once.
  destruct (from_samples no_hmm data (world st)) as [r w].
  assert (∀ r', Forall (λ a, requested a = no_hmm)
                       (trace st ++ [Attempt no_hmm r'])) as Hreq'
    by (intros r'; apply Forall_app; split; [done|by repeat constructor]).
  assert (∀ r', Z.of_nat (length (trace st ++ [Attempt no_hmm r']))
                = i st + 1) as Hlen
    by (intros r'; rewrite length_app; simpl; lia).
  destruct r as [m| | |]; (split; [|done]); split; simpl;
    try done; try (by rewrite Hlen); try congruence.
  - intros _. by exists m, (trace st).
  - intros _. apply Forall_app. split; [done|]. by repeat constructor.
  - intros _. apply Forall_app. split; [done|]. by repeat constructor.
  - intros _. apply Forall_app. split; [done|]. by repeat constructor.
Qed.

Lemma while_loop_inv (no_hmm : Z) (data : Data) (threshold : Z)
    (fuel : nat) (st : @loop_state Model World) :
  loop_inv no_hmm st →
  threshold - i st ≤ Z.of_nat fuel →
  let st' := while_loop from_samples fuel no_hmm data threshold st in
  loop_inv no_hmm st'
  ∧ (successful st' = true ∨ threshold ≤ i st')
  ∧ i st' ≤ Z.max (i st) threshold.
Proof.
  revert st. induction fuel as [|fuel IH]; intros st Hinv Hfuel; simpl.
  - split; [done|]. split; [right; lia|lia].
  - case_bool_decide as Hcond.
    + destruct Hcond as [Hs Hlt].
      destruct (attempt_once_inv no_hmm data st Hs Hinv) as [Hinv' Hi'].
      destruct (IH _ Hinv' ltac:(lia)) as (? & ? & ?).
      split; [done|]. split; [done|lia].
    + split; [done|]. split; [|lia].
      destruct (successful st); [by left|right].
      destruct (decide (i st < threshold)); [|lia].
      exfalso. by apply Hcond.
Qed.

(** C9.  For every [n_component], [threshold] and state of the world,
    every call of the fitting routine asks for [n_component - 2] states,
    there are at most [threshold] calls, every call before the last one
    raised, a model is returned exactly when the last call returned one
    (and it is that model after [bake]), and [None] is returned, with no
    exception, exactly when all [threshold] calls raised. *)
Theorem create_model_attempts (n_component : Z) (data : Data)
    (threshold : Z) (w : World) :
  let '(result, _, calls) :=
    create_model HiddenMarkovModel from_samples bake
                 n_component data threshold w in
  Forall (λ a, requested a = n_component - 2) calls
  ∧ Z.of_nat (length calls) ≤ Z.max 0 threshold
  ∧ match result with
    | Some fitted =>
        ∃ m earlier, calls = earlier ++ [Attempt (n_component - 2) (Fitted m)]
                     ∧ Forall failed earlier
                     ∧ fitted = bake m
    | None =>
        Forall failed calls
        ∧ Z.of_nat (length calls) = Z.max 0 threshold
    end.
Proof.
  unfold create_model.
  set (st0 := LoopState HiddenMarkovModel false 0 w []).
  assert (loop_inv (n_component - 2) st0) as Hinv0
    by (split; simpl; [constructor|done|constructor|done]).
  destruct (while_loop_inv (n_component - 2) data threshold
              (Z.to_nat threshold) st0 Hinv0)
    as ([Hreq Hi Hfail Hfit] & Hend & Hbound); [simpl; lia|].
  simpl in Hbound.
  destruct (successful _) eqn:Hs.
  - split; [done|]. split; [lia|].
    destruct (Hfit eq_refl) as (m & pre & Htr & Hpre & Hm).
    exists m, pre. by rewrite Hm.
  - split; [done|]. split; [lia|]. split; [by apply Hfail|].
    destruct Hend as [|]; [done|lia].
Qed.

End create_model_claims.

(** ** [np.gradient] and the growth events *)

Section gradient_facts.
Import measures notions.
Local Open Scope Qc_scope.

Lemma length_gradient_from (prev cur : Qc) (rest : list Qc) :
  length (np.gradient_from prev cur rest) = S (length rest).
Proof.
  revert prev cur. induction rest as [|next rest IH]; intros prev cur;
    [done|]. simpl. by rewrite IH.
Qed.

Lemma length_gradient (f g : list Qc) :
  np.gradient f = Ok g → length g = length f ∧ (2 ≤ length f)%nat.
Proof.
  destruct f as [|x0 [|x1 rest]]; [done|done|]. intros [= <-]. simpl.
  rewrite length_gradient_from. lia.
Qed.

Lemma gradient_is_Ok (f : list Qc) :
  (2 ≤ length f)%nat → ∃ g, np.gradient f = Ok g.
Proof.
  destruct f as [|x0 [|x1 rest]]; simpl; [lia|lia|]. intros _. eauto.
Qed.

Lemma Qc_half_pos (x : Qc) : 0 < x / 2 ↔ 0 < x.
Proof.
  split; intros H.
  - assert (x / 2 + x / 2 = x) as Hx by (field; discriminate).
    rewrite <-Hx. by apply Qcplus_pos_pos.
  - by apply Qc_div_pos.
Qed.

Lemma Qc_sub_pos_iff (a b : Qc) : 0 < b - a ↔ a < b.
Proof.
  split; [|apply Qc_sub_pos]. intros H.
  apply (Qcplus_lt_mono_r _ _ (- a)).
  by replace (a + - a) with 0 by ring.
Qed.

(** The sign of the interior and right-end differences: entry [k] of
    [gradient_from prev cur rest] compares the samples left and right of
    position [k + 1] of [prev :: cur :: rest]. *)
Lemma gradient_from_sign (prev cur : Qc) (rest : list Qc) (k : nat) (gk : Qc) :
  np.gradient_from prev cur rest !! k = Some gk →
  ∃ lo hi, (prev :: cur :: rest) !! k = Some lo
           ∧ (prev :: cur :: rest) !! (Nat.min (k + 2) (S (length rest)))
             = Some hi
           ∧ (0 < gk ↔ lo < hi).
Proof.
  revert prev cur k. induction rest as [|next rest IH]; intros prev cur k.
  - destruct k as [|k]; [|done]. intros [= <-]. exists prev, cur.
    split; [done|]. split; [done|]. apply Qc_sub_pos_iff.
  - destruct k as [|k].
    + intros [= <-]. exists prev, next. split; [done|]. split; [done|].
      rewrite Qc_half_pos. apply Qc_sub_pos_iff.
    + simpl. intros (lo & hi & Hlo & Hhi & Hsign)%IH.
      by exists lo, hi.
Qed.

(** The sign of entry [k] of [np.gradient f]: positive exactly when the
    sample right of [k] (the last one at the right end) is above the
    sample left of [k] (the first one at the left end). *)
Lemma gradient_sign (f g : list Qc) (k : nat) (gk : Qc) :
  np.gradient f = Ok g → g !! k = Some gk →
  ∃ lo hi, f !! (k - 1)%nat = Some lo
           ∧ f !! (Nat.min (k + 1) (length f - 1)) = Some hi
           ∧ (0 < gk ↔ lo < hi).
Proof.
  destruct f as [|x0 [|x1 rest]]; [done|done|]. intros [= <-].
  destruct k as [|k].
  - intros [= <-]. exists x0, x1. split; [done|]. split; [done|].
    apply Qc_sub_pos_iff.
  - simpl. intros (lo & hi & Hlo & Hhi & Hsign)%gradient_from_sign.
    exists lo, hi. rewrite Nat.sub_0_r.
    replace ((k + 2) `min` S (length rest))%nat
      with (S ((k + 1) `min` length rest)) in Hhi by lia.
    done.
Qed.

(** Membership in the index list of the increases. *)
Lemma elem_of_increase_indices (g : list Qc) (n i : Z) :
  i ∈ increase_indices (increase_bitmap g n) n
  ↔ (0 ≤ i < n)%Z ∧ ∃ gk, g !! Z.to_nat i = Some gk ∧ 0 < gk.
Proof.
  unfold increase_indices, increase_bitmap.
  rewrite list_elem_of_filter, elem_of_seqZ, list_lookup_fmap.
  split.
  - intros [Hb Hi]. split; [lia|].
    rewrite lookup_take_lt in Hb by lia.
    destruct (g !! Z.to_nat i) as [gk|]; [|done]. simpl in Hb.
    exists gk. split; [done|].
    destruct (decide (0 < gk)) as [|Hn]; [done|].
    rewrite (bool_decide_eq_false_2 (0 < gk)) in Hb by done.
    by apply bool_decide_eq_true in Hb.
  - intros [Hi (gk & Hgk & Hpos)]. split; [|lia].
    rewrite lookup_take_lt by lia. rewrite Hgk. simpl.
    rewrite (bool_decide_eq_true_2 (0 < gk)) by done.
    by apply bool_decide_eq_true_2.
Qed.

Lemma length_increase_indices (bitmap : list Z) (n : Z) :
  (0 ≤ n)%Z → (len (increase_indices bitmap n) ≤ n)%Z.
Proof.
  intros Hn. unfold increase_indices, len.
  pose proof (length_filter
    (λ i, from_option (λ b, bool_decide (0 < b)%Z) false
                      (bitmap !! Z.to_nat i) = true) (seqZ 0 n)) as H.
  rewrite length_seqZ in H. lia.
Qed.

End gradient_facts.

Section growth_event_claims.
Import measures notions.
Local Open Scope Qc_scope.

(** C4, as the code has it.  The events are read off [np.gradient], a
    central difference: index [i] (below [gradient_number]) is an event
    exactly when the sample after [i] (the last sample, at the right end)
    is strictly above the sample before [i] (the first sample, at the left
    end).  A trace of length [L] therefore yields at most [L] events. *)
Theorem growth_events_gradient (trace g : list Qc) (n i : Z) :
  np.gradient trace = Ok g → (0 ≤ n ≤ len g)%Z →
  (i ∈ increase_indices (increase_bitmap g n) n
   ↔ (0 ≤ i < n)%Z
     ∧ ∃ lo hi, trace !! Z.to_nat (Z.max 0 (i - 1)) = Some lo
                ∧ trace !! Z.to_nat (Z.min (i + 1) (len trace - 1)) = Some hi
                ∧ lo < hi)
  ∧ (len (increase_indices (increase_bitmap g n) n) ≤ n ≤ len trace)%Z.
Proof.
  intros Hg Hn. destruct (length_gradient _ _ Hg) as [Hlen Hlen2].
  unfold len in *. split.
  - rewrite elem_of_increase_indices. split.
    + intros [Hi (gk & Hgk & Hpos)]. split; [done|].
      destruct (gradient_sign _ _ _ _ Hg Hgk) as (lo & hi & Hlo & Hhi & Hs).
      exists lo, hi.
      replace (Z.to_nat (Z.max 0 (i - 1))) with (Z.to_nat i - 1)%nat by lia.
      replace (Z.to_nat (Z.min (i + 1) (Z.of_nat (length trace) - 1)))
        with (Nat.min (Z.to_nat i + 1) (length trace - 1)) by lia.
      split; [done|]. split; [done|]. by apply Hs.
    + intros [Hi (lo & hi & Hlo & Hhi & Hlt)]. split; [done|].
      destruct (lookup_lt_is_Some_2 g (Z.to_nat i)) as [gk Hgk]; [lia|].
      exists gk. split; [done|].
      destruct (gradient_sign _ _ _ _ Hg Hgk) as (lo' & hi' & Hlo' & Hhi' & Hs).
      replace (Z.to_nat (Z.max 0 (i - 1))) with (Z.to_nat i - 1)%nat
        in Hlo by lia.
      replace (Z.to_nat (Z.min (i + 1) (Z.of_nat (length trace) - 1)))
        with (Nat.min (Z.to_nat i + 1) (length trace - 1)) in Hhi by lia.
      apply Hs. congruence.
  - pose proof (length_increase_indices (increase_bitmap g n) n) as H.
    unfold len in H. lia.
Qed.

Lemma growth_events_gradient_witness :
  1%Z ∈ increase_indices
          (increase_bitmap [1; 1 / Qc_of_Z 2; 0] 3) 3.
Proof.
  apply (proj1 (growth_events_gradient [0; 1; 1] [1; 1 / Qc_of_Z 2; 0] 3 1
                  ltac:(apply (bool_decide_unpack _); vm_compute; exact I)
                  ltac:(unfold len; simpl; lia))).
  split; [lia|]. exists 0, 1. split; [reflexivity|].
  split; [reflexivity|reflexivity].
Defined.

(** C4 as written fails.  On the normalized trace [[0, 1, 1]] (it is
    [normalize([0, 1, 1])]) index 1 is an event although the forward
    difference there is [1 - 1 = 0]; on [[0, 0.5, 1]] (it is
    [normalize([0, 1, 2])]), of length 3, all three indices are
    events. *)
Lemma growth_events_gradient_counterexample :
  normalize [0; 1; 1] = [0; 1; 1]
  ∧ np.gradient [0; 1; 1] = Ok [1; 1 / Qc_of_Z 2; 0]
  ∧ 1%Z ∈ increase_indices (increase_bitmap [1; 1 / Qc_of_Z 2; 0] 3) 3
  ∧ ¬ forward_difference_event [0; 1; 1] 1
  ∧ normalize [0; 1; Qc_of_Z 2] = [0; 1 / Qc_of_Z 2; 1]
  ∧ np.gradient [0; 1 / Qc_of_Z 2; 1]
    = Ok [1 / Qc_of_Z 2; 1 / Qc_of_Z 2; 1 / Qc_of_Z 2]
  ∧ increase_indices
      (increase_bitmap [1 / Qc_of_Z 2; 1 / Qc_of_Z 2; 1 / Qc_of_Z 2] 3) 3
    = [0; 1; 2]%Z.
Proof.
  split; [apply (bool_decide_unpack _); vm_compute; exact I|].
  split; [apply (bool_decide_unpack _); vm_compute; exact I|].
  split; [apply (bool_decide_unpack _); vm_compute; exact I|].
  split.
  { intros (_ & x & y & [= <-] & [= <-] & Hlt). by apply Qclt_not_eq in Hlt. }
  split; [apply (bool_decide_unpack _); vm_compute; exact I|].
  split; [apply (bool_decide_unpack _); vm_compute; exact I|].
  apply (bool_decide_unpack _); vm_compute; exact I.
Qed.

End growth_event_claims.

(** ** [calculate_coverage_similarity] without growth events *)

Section no_event_claims.
Import measures notions.
Local Open Scope Qc_scope.

(** With no increase on either side nothing is matched, the score is still
    [0.0] and [number_indices] is 0: the final division raises. *)
Lemma similarity_no_events (fuzzer hmm gf gh : list Qc) (max_distance : Z) :
  np.gradient (normalize fuzzer) = Ok gf →
  np.gradient (normalize hmm) = Ok gh →
  increase_indices (increase_bitmap gf (Z.min (len gf) (len gh)))
                   (Z.min (len gf) (len gh)) = [] →
  increase_indices (increase_bitmap gh (Z.min (len gf) (len gh)))
                   (Z.min (len gf) (len gh)) = [] →
  calculate_coverage_similarity fuzzer hmm max_distance
  = Raise ZeroDivisionError.
Proof.
  intros Hgf Hgh Hf Hh. unfold calculate_coverage_similarity.
  rewrite Hgf. simpl. rewrite Hgh. simpl. by rewrite Hf, Hh.
Qed.

(** C2 on the code.  Two curves that are flat at the level 5 have no
    growth events and the call raises [ZeroDivisionError]; two all-zero
    curves, which [normalize] treats as degenerate, give [0.0]. *)
Theorem similarity_flat_zero_division :
  calculate_coverage_similarity
    [Qc_of_Z 5; Qc_of_Z 5; Qc_of_Z 5] [Qc_of_Z 5; Qc_of_Z 5; Qc_of_Z 5]
    default_max_distance
  = Raise ZeroDivisionError
  ∧ calculate_coverage_similarity [0; 0; 0] [0; 0; 0] default_max_distance
    = Ok 0.
Proof.
  split.
  - apply (similarity_no_events _ _ [0; 0; 0] [0; 0; 0]);
      apply (bool_decide_unpack _); vm_compute; exact I.
  - apply (bool_decide_unpack _). vm_compute. exact I.
Qed.

End no_event_claims.

(** ** Candidate matches *)

Section candidate_facts.
Import measures notions.

Lemma StronglySorted_seqZ (m n : Z) : StronglySorted Z.lt (seqZ m n).
Proof.
  unfold seqZ. apply (StronglySorted_fmap _ lt); [intros; lia|].
  generalize 0%nat. induction (Z.to_nat n) as [|k IH]; intros start;
    [constructor|].
  simpl. constructor; [apply IH|].
  apply Forall_forall. intros y Hy%elem_of_seq. lia.
Qed.

Lemma StronglySorted_filter {A} (R : relation A) (P : A → Prop)
    `{∀ x, Decision (P x)} (l : list A) :
  StronglySorted R l → StronglySorted R (filter P l).
Proof.
  induction 1 as [|x l Hl IH Hx]; [constructor|].
  rewrite filter_cons. case_decide; [|done].
  constructor; [done|]. apply Forall_forall.
  intros y [_ Hy]%list_elem_of_filter. by eapply Forall_forall in Hx.
Qed.

Lemma filter_none {A} (P : A → Prop) `{∀ x, Decision (P x)} (l : list A) :
  Forall (λ x, ¬ P x) l → filter P l = [].
Proof.
  induction 1 as [|x l Hx _ IH]; [done|]. by rewrite filter_cons_False.
Qed.

Lemma increase_indices_sorted (bitmap : list Z) (n : Z) :
  StronglySorted Z.lt (increase_indices bitmap n).
Proof. apply StronglySorted_filter, StronglySorted_seqZ. Qed.

(** Skipping with [continue] and stopping with [break] select the same
    candidates as the bound check [abs(a - b) <= max_distance], for index
    lists in increasing order. *)
Lemma matches_of_filter (a : Z) (indices_hmm : list Z) (w : Z) :
  StronglySorted Z.lt indices_hmm →
  matches_of a indices_hmm w
  = (λ b, (a, b, Z.abs (a - b)))
      <$> filter (λ b, Z.abs (a - b) ≤ w) indices_hmm.
Proof.
  induction 1 as [|b rest Hrest IH Hb]; [done|].
  simpl. rewrite filter_cons.
  case_bool_decide as Hcont.
  { rewrite decide_False by lia. done. }
  case_bool_decide as Hbreak.
  { rewrite decide_False by lia.
    rewrite filter_none; [done|]. apply Forall_forall.
    intros b' Hb'. eapply Forall_forall in Hb; [|done]. simpl. lia. }
  rewrite decide_True by lia. by rewrite fmap_cons, IH.
Qed.

Lemma elem_of_possible_matches (indices_fuzzer indices_hmm : list Z)
    (w : Z) (m : match_t) :
  StronglySorted Z.lt indices_hmm →
  m ∈ possible_matches indices_fuzzer indices_hmm w
  ↔ m.1.1 ∈ indices_fuzzer ∧ m.1.2 ∈ indices_hmm
    ∧ Z.abs (m.1.1 - m.1.2) ≤ w ∧ m.2 = Z.abs (m.1.1 - m.1.2).
Proof.
  intros Hs. unfold possible_matches. rewrite list_elem_of_bind.
  destruct m as [[a b] d]. simpl. split.
  - intros (a' & Hm & Ha'). rewrite matches_of_filter in Hm by done.
    apply list_elem_of_fmap in Hm as (b' & [= -> -> ->] & Hb').
    apply list_elem_of_filter in Hb' as [Hw Hb']. done.
  - intros (Ha & Hb & Hw & ->). exists a. split; [|done].
    rewrite matches_of_filter by done. apply list_elem_of_fmap.
    exists b. split; [done|]. by apply list_elem_of_filter.
Qed.

(** The candidates are produced in the order [by_fuzzer]. *)
Lemma possible_matches_sorted (indices_fuzzer indices_hmm : list Z) (w : Z) :
  StronglySorted Z.lt indices_fuzzer →
  StronglySorted Z.lt indices_hmm →
  StronglySorted by_fuzzer (possible_matches indices_fuzzer indices_hmm w).
Proof.
  intros Hf Hh. unfold possible_matches.
  induction Hf as [|a rest Hrest IH Ha]; [constructor|].
  rewrite bind_cons. apply StronglySorted_app_2; [| |done].
  - intros x y Hx Hy. rewrite matches_of_filter in Hx by done.
    apply list_elem_of_fmap in Hx as (b & -> & _).
    apply list_elem_of_bind in Hy as (a' & Hy & Ha').
    rewrite matches_of_filter in Hy by done.
    apply list_elem_of_fmap in Hy as (b' & -> & _).
    eapply Forall_forall in Ha; [|done]. left. simpl. lia.
  - rewrite matches_of_filter by done.
    apply (StronglySorted_fmap _ Z.lt).
    + intros b b' Hlt. right. simpl. done.
    + by apply StronglySorted_filter.
Qed.

End candidate_facts.

(** ** [sorted] *)

Section sorted_facts.
Import notions.
Context {A : Type} (key : A → Z).

Lemma insert_by_perm (x : A) (l : list A) : insert_by key x l ≡ₚ x :: l.
Proof.
  induction l as [|y l IH]; [done|]. simpl. case_bool_decide; [done|].
  rewrite IH. apply Permutation_swap.
Qed.

Lemma sorted_perm (l : list A) : py.sorted key l ≡ₚ l.
Proof.
  induction l as [|x l IH]; [done|]. simpl.
  by rewrite insert_by_perm, IH.
Qed.

Lemma insert_by_sorted (R : relation A) (x : A) (l : list A) :
  StronglySorted (key_then key R) l → Forall (R x) l →
  StronglySorted (key_then key R) (insert_by key x l).
Proof.
  induction 1 as [|y l Hl IH Hy]; intros Hx; [by repeat constructor|].
  inversion_clear Hx as [|?? Hxy Hxl]. simpl. case_bool_decide as Hk.
  - constructor; [by constructor|].
    assert (Forall (λ z, key y ≤ key z) l) as Hkeys.
    { eapply Forall_impl; [exact Hy|]. intros z [?|[? _]]; lia. }
    constructor.
    + unfold key_then. destruct (decide (key x = key y)); [right|left]; [done|lia].
    + apply Forall_forall. intros z Hz.
      eapply Forall_forall in Hkeys; [|done].
      eapply Forall_forall in Hxl; [|done].
      unfold key_then. destruct (decide (key x = key z)); [right|left]; [done|lia].
  - constructor; [by apply IH|].
    apply Forall_forall. intros z Hz. rewrite insert_by_perm in Hz.
    apply elem_of_cons in Hz as [->|Hz].
    + left. lia.
    + by eapply Forall_forall in Hy.
Qed.

(** A stable sort of a list ordered by [R] orders it by the key first and
    by [R] among equal keys. *)
Lemma sorted_stable (R : relation A) (l : list A) :
  StronglySorted R l → StronglySorted (key_then key R) (py.sorted key l).
Proof.
  induction 1 as [|x l Hl IH Hx]; [constructor|]. simpl.
  apply insert_by_sorted; [done|]. by rewrite sorted_perm.
Qed.

Lemma insert_by_least (x : A) (l : list A) :
  Forall (λ y, key x ≤ key y) l → insert_by key x l = x :: l.
Proof.
  destruct 1 as [|y l Hy _]; [done|]. simpl.
  by rewrite bool_decide_eq_true_2.
Qed.

Lemma insert_by_app_lt (x : A) (l1 l2 : list A) :
  Forall (λ y, key y < key x) l1 →
  insert_by key x (l1 ++ l2) = l1 ++ insert_by key x l2.
Proof.
  induction 1 as [|y l1 Hy _ IH]; [done|]. simpl.
  rewrite bool_decide_eq_false_2 by lia. by rewrite IH.
Qed.

(** With non-negative keys the elements of key 0 come first, in their
    original order. *)
Lemma sorted_zero_first (l : list A) :
  Forall (λ y, 0 ≤ key y) l →
  py.sorted key l
  = filter (λ y, key y = 0) l ++ py.sorted key (filter (λ y, key y ≠ 0) l).
Proof.
  induction 1 as [|x l Hx Hl IH]; [done|]. simpl.
  rewrite !filter_cons, IH. destruct (decide (key x = 0)) as [H0|H0].
  - rewrite decide_False by lia. rewrite insert_by_least; [done|].
    apply Forall_forall. intros y Hy.
    rewrite <-IH, sorted_perm in Hy.
    eapply Forall_forall in Hl; [|done]. lia.
  - rewrite decide_True by done. simpl. apply insert_by_app_lt.
    apply Forall_forall. intros y [Hy _]%list_elem_of_filter. lia.
Qed.

End sorted_facts.

(** ** The greedy loop *)

Section greedy_facts.
Import measures notions.

Lemma elem_of_remove_ne (x y : Z) (l : list Z) :
  x ≠ y → y ∈ py.remove x l ↔ y ∈ l.
Proof.
  intros Hne. induction l as [|z l IH]; [done|]. simpl.
  case_bool_decide as Hz.
  - subst z. rewrite elem_of_cons. split; [by right|].
    intros [Hy|Hy]; [by subst y|done].
  - rewrite !elem_of_cons, IH. done.
Qed.

Lemma remove_comm (x y : Z) (l : list Z) :
  py.remove x (py.remove y l) = py.remove y (py.remove x l).
Proof.
  induction l as [|z l IH]; [done|]. simpl.
  destruct (decide (y = z)) as [->|Hy], (decide (x = z)) as [->|Hx].
  - done.
  - rewrite (bool_decide_eq_true_2 (z = z)) by done.
    rewrite bool_decide_eq_false_2 by done. simpl.
    by rewrite bool_decide_eq_true_2.
  - rewrite (bool_decide_eq_true_2 (z = z)) by done.
    rewrite bool_decide_eq_false_2 by done. simpl.
    by rewrite bool_decide_eq_true_2.
  - rewrite !bool_decide_eq_false_2 by done. simpl.
    rewrite !bool_decide_eq_false_2 by done. by rewrite IH.
Qed.

Lemma greedy_step_accept (ms : list match_t) (uf uh : list Z) (a b d : Z) :
  a ∈ uf → b ∈ uh →
  greedy_step (Matching ms uf uh) (a, b, d)
  = Matching (ms ++ [(a, b, d)]) (py.remove a uf) (py.remove b uh).
Proof. intros Ha Hb. unfold greedy_step. simpl. by rewrite bool_decide_eq_true_2. Qed.

Lemma greedy_step_reject (st : matching) (a b d : Z) :
  ¬ (a ∈ unmatched_fuzzer st ∧ b ∈ unmatched_hmm st) →
  greedy_step st (a, b, d) = st.
Proof. intros H. unfold greedy_step. by rewrite bool_decide_eq_false_2. Qed.

Lemma matching_equiv_refl (st : matching) : matching_equiv st st.
Proof. by repeat split. Qed.

Lemma matching_equiv_sym (st st' : matching) :
  matching_equiv st st' → matching_equiv st' st.
Proof. intros (? & ? & ?). by repeat split. Qed.

Lemma matching_equiv_trans (st1 st2 st3 : matching) :
  matching_equiv st1 st2 → matching_equiv st2 st3 → matching_equiv st1 st3.
Proof.
  intros (? & ? & ?) (? & ? & ?).
  split; [by etrans|]. split; congruence.
Qed.

Lemma greedy_step_equiv (st st' : matching) (m : match_t) :
  matching_equiv st st' →
  matching_equiv (greedy_step st m) (greedy_step st' m).
Proof.
  destruct st as [ms uf uh], st' as [ms' uf' uh'], m as [[a b] d].
  intros (Hms & Huf & Huh). simpl in *. subst uf' uh'.
  unfold greedy_step. simpl. case_bool_decide.
  - split; [|done]. simpl. by rewrite Hms.
  - by split.
Qed.

Lemma foldl_greedy_equiv (l : list match_t) (st st' : matching) :
  matching_equiv st st' →
  matching_equiv (foldl greedy_step st l) (foldl greedy_step st' l).
Proof.
  revert st st'. induction l as [|m l IH]; intros st st' H; [done|].
  simpl. by apply IH, greedy_step_equiv.
Qed.

(** Candidates that share no endpoint can be processed in either order. *)
Lemma greedy_step_exchange (st : matching) (x y : match_t) :
  ¬ conflict x y →
  matching_equiv (greedy_step (greedy_step st x) y)
                 (greedy_step (greedy_step st y) x).
Proof.
  destruct st as [ms uf uh], x as [[a b] d], y as [[a' b'] d'].
  intros Hnc. unfold conflict in Hnc. simpl in Hnc.
  assert (a ≠ a' ∧ b ≠ b') as [Ha Hb] by (split; intros ->; apply Hnc; auto).
  destruct (decide (a ∈ uf ∧ b ∈ uh)) as [[Hx1 Hx2]|Hx],
           (decide (a' ∈ uf ∧ b' ∈ uh)) as [[Hy1 Hy2]|Hy].
  - rewrite (greedy_step_accept ms uf uh a b d) by done.
    rewrite (greedy_step_accept ms uf uh a' b' d') by done.
    rewrite !greedy_step_accept by (by apply elem_of_remove_ne).
    repeat split; simpl.
    + rewrite <-!app_assoc. apply Permutation_app_head, Permutation_swap.
    + apply remove_comm.
    + apply remove_comm.
  - rewrite (greedy_step_accept ms uf uh a b d) by done.
    rewrite (greedy_step_reject (Matching ms uf uh) a' b' d') by done.
    rewrite (greedy_step_accept ms uf uh a b d) by done.
    rewrite greedy_step_reject; [apply matching_equiv_refl|].
    simpl. by rewrite !elem_of_remove_ne.
  - rewrite (greedy_step_reject (Matching ms uf uh) a b d) by done.
    rewrite (greedy_step_accept ms uf uh a' b' d') by done.
    rewrite greedy_step_reject; [apply matching_equiv_refl|].
    simpl. by rewrite !elem_of_remove_ne.
  - rewrite (greedy_step_reject (Matching ms uf uh) a b d) by done.
    rewrite (greedy_step_reject (Matching ms uf uh) a' b' d') by done.
    rewrite (greedy_step_reject (Matching ms uf uh) a b d) by done.
    apply matching_equiv_refl.
Qed.

Lemma greedy_move_front (x : match_t) (l1 l2 : list match_t) (st : matching) :
  Forall (λ y, ¬ conflict x y) l1 →
  matching_equiv (foldl greedy_step st (l1 ++ x :: l2))
                 (foldl greedy_step st (x :: l1 ++ l2)).
Proof.
  intros Hl1. revert st.
  induction Hl1 as [|y l1 Hy _ IH]; intros st; [apply matching_equiv_refl|].
  simpl. eapply matching_equiv_trans; [apply IH|]. simpl.
  apply foldl_greedy_equiv, matching_equiv_sym, greedy_step_exchange, Hy.
Qed.

(** Two orders of the same candidates that agree on every pair of
    conflicting candidates give the same matching. *)
Lemma greedy_reorder (R1 R2 : relation match_t) (l l' : list match_t)
    (st : matching) :
  (∀ x y, R1 x y → R2 y x → ¬ conflict x y) →
  StronglySorted R1 l → StronglySorted R2 l' → l ≡ₚ l' →
  matching_equiv (foldl greedy_step st l) (foldl greedy_step st l').
Proof.
  intros Hagree Hl. revert l' st.
  induction Hl as [|x l Hl IH Hx]; intros l' st Hl' Hperm.
  - apply Permutation_nil_l in Hperm as ->. apply matching_equiv_refl.
  - assert (x ∈ l') as Hin by (rewrite <-Hperm; apply elem_of_cons; by left).
    apply list_elem_of_split in Hin as (l1 & l2 & ->).
    apply Permutation_cons_app_inv in Hperm.
    apply StronglySorted_app in Hl' as (Hcross & Hl1 & Hl2).
    inversion_clear Hl2 as [|?? Hl2' Hxl2].
    apply matching_equiv_sym.
    eapply matching_equiv_trans; [apply greedy_move_front|].
    + apply Forall_forall. intros y Hy. apply Hagree.
      * eapply Forall_forall in Hx; [done|]. rewrite Hperm.
        apply elem_of_app. by left.
      * apply Hcross; [done|]. apply elem_of_cons. by left.
    + simpl. apply matching_equiv_sym, IH; [|done].
      apply StronglySorted_app_2; [|done|done].
      intros y z Hy Hz. apply Hcross; [done|]. apply elem_of_cons. by right.
Qed.

End greedy_facts.

(** ** The score *)

Section score_facts.
Import measures notions.
Local Open Scope Qc_scope.

Lemma similarity_unfold (fuzzer hmm : list Qc) (max_distance : Z) :
  calculate_coverage_similarity fuzzer hmm max_distance
  = (gradient_fuzzer ← np.gradient (normalize fuzzer);
     gradient_hmm ← np.gradient (normalize hmm);
     similarity_of_gradients gradient_fuzzer gradient_hmm max_distance).
Proof. reflexivity. Qed.

Lemma gradient_raises (f : list Qc) (e : exn) :
  np.gradient f = Raise e → e = ValueError.
Proof. destruct f as [|x0 [|x1 rest]]; simpl; congruence. Qed.

Lemma getitem_raises {A} (l : list A) (i : Z) (e : exn) :
  getitem l i = Raise e → e = IndexError.
Proof.
  unfold getitem. case_bool_decide; [|congruence].
  destruct (l !! _); congruence.
Qed.

Lemma getitem_in_range {A} (l : list A) (i : Z) :
  (0 ≤ i < len l)%Z → ∃ x, getitem l i = Ok x.
Proof.
  unfold getitem, len. intros Hi.
  rewrite (bool_decide_eq_false_2 (i < 0)%Z) by lia.
  rewrite bool_decide_eq_true_2 by lia.
  destruct (lookup_lt_is_Some_2 l (Z.to_nat i)) as [x ->]; [lia|]. eauto.
Qed.

Lemma unmatched_score_eq {A} (l : list A) (score : Qc) :
  unmatched_score l score = score + Qc_of_Z (2 * len l).
Proof.
  unfold unmatched_score, len. revert score.
  induction l as [|x l IH]; intros score.
  - cbn [foldl length]. change (2 * Z.of_nat 0)%Z with 0%Z.
    rewrite Z2Qc_inj_0. ring.
  - simpl foldl. rewrite IH. simpl length.
    replace (2 * Z.of_nat (S (length l)))%Z
      with (2 + 2 * Z.of_nat (length l))%Z by lia.
    rewrite Z2Qc_inj_add, Z2Qc_inj_2. ring.
Qed.

(** [matched_term] raises one kind of exception per call of
    [calculate_coverage_similarity]: [ZeroDivisionError] when
    [max_distance] is 0, [IndexError] otherwise. *)
Lemma matched_term_raises (gf gh : list Qc) (w : Z) (m : match_t) (e : exn) :
  matched_term gf gh w m = Raise e →
  e = if bool_decide (w = 0%Z) then ZeroDivisionError else IndexError.
Proof.
  destruct m as [[a b] d]. unfold matched_term.
  case_bool_decide; [congruence|].
  destruct (getitem gf a) as [x|e1] eqn:Ha; simpl.
  - destruct (getitem gh b) as [y|e2] eqn:Hb; simpl; [done|].
    apply getitem_raises in Hb. congruence.
  - apply getitem_raises in Ha. congruence.
Qed.

Lemma matched_term_swap (gf gh : list Qc) (w : Z) (m : match_t) :
  matched_term gh gf w (swap m) = matched_term gf gh w m.
Proof.
  destruct m as [[a b] d]. unfold matched_term, swap. simpl.
  case_bool_decide as Hw; [done|].
  destruct (getitem gf a) as [x|e1] eqn:Ha,
           (getitem gh b) as [y|e2] eqn:Hb; simpl.
  - f_equal.
    replace (b - a)%Z with (- (a - b))%Z by lia.
    rewrite Z2Qc_inj_opp. simpl Qcpower.
    assert (Qc_of_Z w ≠ 0) as Hw'
      by (rewrite <-Z2Qc_inj_0; intros Heq%Z2Qc_inj; done).
    field. done.
  - done.
  - apply getitem_raises in Ha. by subst e1.
  - apply getitem_raises in Ha. apply getitem_raises in Hb. congruence.
Qed.

Lemma matched_score_swap (gf gh : list Qc) (w : Z) (ms : list match_t)
    (score : Qc) :
  matched_score gh gf w (swap <$> ms) score = matched_score gf gh w ms score.
Proof.
  revert score. induction ms as [|m ms IH]; intros score; [done|].
  rewrite fmap_cons. cbn [matched_score]. rewrite matched_term_swap.
  destruct (matched_term gf gh w m); simpl; [apply IH|done].
Qed.

(** The matched score does not depend on the order of the matches. *)
Lemma matched_score_perm (gf gh : list Qc) (w : Z) (ms ms' : list match_t)
    (score : Qc) :
  ms ≡ₚ ms' →
  matched_score gf gh w ms score = matched_score gf gh w ms' score.
Proof.
  intros Hperm. revert score.
  induction Hperm as [|m ms ms' _ IH|m1 m2 ms|ms1 ms2 ms3 _ IH1 _ IH2];
    intros score.
  - done.
  - simpl. destruct (matched_term gf gh w m); simpl; [apply IH|done].
  - simpl.
    destruct (matched_term gf gh w m1) as [t1|e1] eqn:H1,
             (matched_term gf gh w m2) as [t2|e2] eqn:H2; simpl;
      rewrite ?H1, ?H2; simpl; try done.
    + f_equal. ring.
    + apply matched_term_raises in H1. apply matched_term_raises in H2.
      congruence.
  - by rewrite IH1, IH2.
Qed.

End score_facts.

(** ** Symmetry of the score *)

Section symmetry_facts.
Import measures notions.
Local Open Scope Qc_scope.

Lemma swap_swap (m : match_t) : swap (swap m) = m.
Proof. by destruct m as [[a b] d]. Qed.

Global Instance swap_inj : Inj (=) (=) swap.
Proof. intros x y H. by rewrite <-(swap_swap x), H, swap_swap. Qed.

Lemma fmap_swap_swap (l : list match_t) : swap <$> (swap <$> l) = l.
Proof.
  induction l as [|m l IH]; [done|]. by rewrite !fmap_cons, swap_swap, IH.
Qed.

Lemma greedy_step_swap (st : matching) (m : match_t) :
  greedy_step (swap_matching st) (swap m) = swap_matching (greedy_step st m).
Proof.
  destruct st as [ms uf uh], m as [[a b] d].
  unfold greedy_step, swap_matching, swap. simpl.
  destruct (decide (a ∈ uf ∧ b ∈ uh)) as [[Ha Hb]|Hn].
  - rewrite !bool_decide_eq_true_2 by done. simpl.
    by rewrite fmap_app.
  - rewrite !bool_decide_eq_false_2; [done|done|]. intros [??]. by apply Hn.
Qed.

Lemma foldl_greedy_swap (l : list match_t) (st : matching) :
  foldl greedy_step (swap_matching st) (swap <$> l)
  = swap_matching (foldl greedy_step st l).
Proof.
  revert st. induction l as [|m l IH]; intros st; [done|].
  rewrite fmap_cons. cbn [foldl]. by rewrite greedy_step_swap, IH.
Qed.

Lemma StronglySorted_NoDup {A} (R : relation A) (l : list A) :
  (∀ x, ¬ R x x) → StronglySorted R l → NoDup l.
Proof.
  intros Hirr. induction 1 as [|x l _ IH Hx]; constructor; [|done].
  intros Hin. eapply Forall_forall in Hx; [|done]. by eapply Hirr.
Qed.

Lemma by_fuzzer_irrefl (x : match_t) : ¬ by_fuzzer x x.
Proof. unfold by_fuzzer. lia. Qed.

(** Exchanging the curves exchanges the sides of every candidate. *)
Lemma possible_matches_swap (indices_fuzzer indices_hmm : list Z) (w : Z) :
  StronglySorted Z.lt indices_fuzzer →
  StronglySorted Z.lt indices_hmm →
  possible_matches indices_fuzzer indices_hmm w
  ≡ₚ swap <$> possible_matches indices_hmm indices_fuzzer w.
Proof.
  intros Hf Hh. apply NoDup_Permutation.
  - eapply StronglySorted_NoDup; [apply by_fuzzer_irrefl|].
    by apply possible_matches_sorted.
  - apply (NoDup_fmap_2 _).
    eapply StronglySorted_NoDup; [apply by_fuzzer_irrefl|].
    by apply possible_matches_sorted.
  - intros m. rewrite <-(swap_swap m) at 2.
    rewrite (list_elem_of_fmap_inj swap).
    rewrite !elem_of_possible_matches by done.
    destruct m as [[a b] d]. simpl.
    replace (Z.abs (b - a)) with (Z.abs (a - b)) by lia. tauto.
Qed.

(** The order after sorting, and the order after sorting seen from the
    other curve, agree wherever two candidates share an endpoint. *)
Lemma orders_agree (x y : match_t) :
  key_then dist by_fuzzer x y → key_then dist by_hmm y x → ¬ conflict x y.
Proof. unfold key_then, by_fuzzer, by_hmm, conflict, dist. lia. Qed.

Lemma by_hmm_swap (x y : match_t) :
  key_then dist by_fuzzer x y → key_then dist by_hmm (swap x) (swap y).
Proof.
  destruct x as [[a b] d], y as [[a' b'] d'].
  unfold key_then, by_fuzzer, by_hmm, dist, swap. simpl. lia.
Qed.

Lemma similarity_of_gradients_sym (gf gh : list Qc) (w : Z) :
  similarity_of_gradients gf gh w = similarity_of_gradients gh gf w.
Proof.
  unfold similarity_of_gradients. rewrite (Z.min_comm (len gh) (len gf)).
  set (n := Z.min (len gf) (len gh)).
  set (EA := increase_indices (increase_bitmap gf n) n).
  set (EB := increase_indices (increase_bitmap gh n) n).
  assert (StronglySorted Z.lt EA) as HEA by apply increase_indices_sorted.
  assert (StronglySorted Z.lt EB) as HEB by apply increase_indices_sorted.
  unfold greedy_matching.
  set (L1 := py.sorted dist (possible_matches EA EB w)).
  set (L2 := py.sorted dist (possible_matches EB EA w)).
  set (st1 := foldl greedy_step (Matching [] EA EB) L1).
  set (st2' := foldl greedy_step (Matching [] EA EB) (swap <$> L2)).
  assert (foldl greedy_step (Matching [] EB EA) L2 = swap_matching st2')
    as ->.
  { subst st2'. rewrite <-foldl_greedy_swap. unfold swap_matching. simpl.
    by rewrite fmap_swap_swap. }
  assert (matching_equiv st1 st2') as (Hms & Huf & Huh).
  { apply (greedy_reorder (key_then dist by_fuzzer) (key_then dist by_hmm)).
    - apply orders_agree.
    - by apply sorted_stable, possible_matches_sorted.
    - apply (StronglySorted_fmap _ (key_then dist by_fuzzer));
        [apply by_hmm_swap|].
      by apply sorted_stable, possible_matches_sorted.
    - subst L1 L2. rewrite !sorted_perm. by apply possible_matches_swap. }
  unfold swap_matching. simpl.
  rewrite matched_score_swap, <-(matched_score_perm _ _ _ _ _ _ Hms).
  rewrite <-Huf, <-Huh.
  destruct (matched_score gf gh w (matches st1) 0) as [score|e]; [|done].
  simpl. rewrite !unmatched_score_eq.
  rewrite (Z.add_comm (len EB) (len EA)). f_equal. ring.
Qed.

End symmetry_facts.

Section symmetry_claims.
Import measures notions.
Local Open Scope Qc_scope.

(** C5.  For all curves and every window, exchanging the two curves does
    not change what [calculate_coverage_similarity] returns or raises
    ([sorted] is stable, which fixes the order among candidates of equal
    distance). *)
Theorem similarity_symmetric (fuzzer hmm : list Qc) (max_distance : Z) :
  calculate_coverage_similarity fuzzer hmm max_distance
  = calculate_coverage_similarity hmm fuzzer max_distance.
Proof.
  rewrite !similarity_unfold.
  destruct (np.gradient (normalize fuzzer)) as [gf|e1] eqn:Hf,
           (np.gradient (normalize hmm)) as [gh|e2] eqn:Hh; simpl;
    try done.
  - apply similarity_of_gradients_sym.
  - apply gradient_raises in Hf. apply gradient_raises in Hh. congruence.
Qed.

End symmetry_claims.

(** ** A curve against itself *)

Section self_facts.
Import measures notions.
Local Open Scope Qc_scope.

Lemma dist_nonneg (indices_fuzzer indices_hmm : list Z) (w : Z) :
  StronglySorted Z.lt indices_hmm →
  Forall (λ m, (0 ≤ dist m)%Z)
         (possible_matches indices_fuzzer indices_hmm w).
Proof.
  intros Hs. apply Forall_forall. intros m Hm.
  apply elem_of_possible_matches in Hm as (_ & _ & _ & Hd); [|done].
  unfold dist. lia.
Qed.

(** Among the candidates of one index only the one with itself has
    distance 0. *)
Lemma zero_matches (a : Z) (indices : list Z) (w : Z) :
  StronglySorted Z.lt indices → (0 ≤ w)%Z →
  filter (λ m, dist m = 0%Z) (matches_of a indices w)
  = if decide (a ∈ indices) then [diagonal a] else [].
Proof.
  intros Hs Hw. induction Hs as [|b rest Hrest IH Hb]; [done|].
  assert (∀ x, x ∈ rest → (b < x)%Z) as Hb'
    by (intros x Hx; by eapply Forall_forall in Hb).
  simpl. case_bool_decide as Hcont.
  { rewrite IH. destruct (decide (a ∈ rest)) as [Hin|Hnin].
    - rewrite decide_True; [done|]. by apply elem_of_cons; right.
    - rewrite decide_False; [done|].
      intros [->|?]%elem_of_cons; [lia|done]. }
  case_bool_decide as Hbreak.
  { rewrite decide_False; [done|].
    intros [->|Hin%Hb']%elem_of_cons; lia. }
  rewrite filter_cons. unfold dist at 1. simpl.
  destruct (decide (Z.abs (a - b) = 0%Z)) as [H0|H0].
  - assert (a = b) as -> by lia. rewrite IH.
    rewrite decide_False by (intros Hin%Hb'; lia).
    rewrite decide_True by (apply elem_of_cons; by left).
    unfold diagonal. by rewrite Z.sub_diag.
  - rewrite IH. destruct (decide (a ∈ rest)) as [Hin|Hnin].
    + rewrite decide_True; [done|]. by apply elem_of_cons; right.
    + rewrite decide_False; [done|].
      intros [->|?]%elem_of_cons; [lia|done].
Qed.

Lemma zero_possible_matches (outer indices : list Z) (w : Z) :
  StronglySorted Z.lt indices → (0 ≤ w)%Z →
  Forall (λ a, a ∈ indices) outer →
  filter (λ m, dist m = 0%Z) (possible_matches outer indices w)
  = diagonal <$> outer.
Proof.
  intros Hs Hw Hall. unfold possible_matches.
  induction Hall as [|a outer Ha _ IH]; [done|].
  rewrite bind_cons, filter_app, zero_matches, IH by done.
  by rewrite decide_True.
Qed.

Lemma greedy_diagonal (indices : list Z) (ms : list match_t) :
  foldl greedy_step (Matching ms indices indices) (diagonal <$> indices)
  = Matching (ms ++ (diagonal <$> indices)) [] [].
Proof.
  revert ms. induction indices as [|e indices IH]; intros ms.
  - simpl. by rewrite app_nil_r.
  - rewrite fmap_cons. cbn [foldl]. unfold diagonal at 1.
    rewrite greedy_step_accept by (apply elem_of_cons; by left).
    simpl. rewrite bool_decide_eq_true_2 by done.
    rewrite IH, <-app_assoc. done.
Qed.

Lemma greedy_nothing_left (l : list match_t) (ms : list match_t) :
  foldl greedy_step (Matching ms [] []) l = Matching ms [] [].
Proof.
  induction l as [|[[a b] d] l IH]; [done|]. cbn [foldl].
  rewrite greedy_step_reject; [done|].
  simpl. intros [Ha _]. by apply elem_of_nil in Ha.
Qed.

(** An index matched with itself adds nothing to the score. *)
Lemma matched_term_diagonal (g : list Qc) (w e : Z) :
  w ≠ 0%Z → (0 ≤ e < len g)%Z →
  matched_term g g w (diagonal e) = Ok 0.
Proof.
  intros Hw He. destruct (getitem_in_range g e He) as [x Hx].
  unfold matched_term, diagonal.
  rewrite bool_decide_eq_false_2 by done. rewrite Hx. simpl. f_equal.
  rewrite Z.sub_diag, Z2Qc_inj_0, Qc_div_0_l. ring.
Qed.

Lemma matched_score_diagonal (g : list Qc) (w : Z) (indices : list Z) :
  w ≠ 0%Z →
  Forall (λ e, (0 ≤ e < len g)%Z) indices →
  matched_score g g w (diagonal <$> indices) 0 = Ok 0.
Proof.
  intros Hw. induction 1 as [|e indices He _ IH]; [done|].
  rewrite fmap_cons. cbn [matched_score].
  rewrite matched_term_diagonal by done. simpl.
  by replace (0 + 0) with 0 by ring.
Qed.

Lemma similarity_of_gradients_self (g : list Qc) (w : Z) :
  (0 < w)%Z →
  increase_indices (increase_bitmap g (len g)) (len g) ≠ [] →
  similarity_of_gradients g g w = Ok 0.
Proof.
  intros Hw Hne. unfold similarity_of_gradients.
  rewrite Z.min_id.
  set (E := increase_indices (increase_bitmap g (len g)) (len g)) in *.
  assert (StronglySorted Z.lt E) as HE by apply increase_indices_sorted.
  unfold greedy_matching.
  rewrite sorted_zero_first by (by apply dist_nonneg).
  rewrite zero_possible_matches;
    [|done|lia|by apply Forall_forall].
  rewrite foldl_app, greedy_diagonal, greedy_nothing_left. simpl.
  rewrite matched_score_diagonal; [|lia|].
  - simpl. unfold unmatched_score, normalize_score. simpl.
    rewrite bool_decide_eq_false_2.
    + by rewrite Qc_div_0_l.
    + destruct E; [done|]. unfold len. simpl. lia.
  - apply Forall_forall. intros e He.
    apply elem_of_increase_indices in He as [He _]. done.
Qed.

End self_facts.

Section self_claims.
Import measures notions.
Local Open Scope Qc_scope.

(** C6.  For every curve whose normalization has at least one growth
    event, and every positive window (the default 5 among them), the score
    of the curve against itself is [0.0]: every event is matched with
    itself and nothing is left unmatched. *)
Theorem similarity_self (curve g : list Qc) (max_distance : Z) :
  (0 < max_distance)%Z →
  np.gradient (normalize curve) = Ok g →
  increase_indices (increase_bitmap g (len g)) (len g) ≠ [] →
  calculate_coverage_similarity curve curve max_distance = Ok 0.
Proof.
  intros Hw Hg Hne. rewrite similarity_unfold, Hg. simpl.
  by apply similarity_of_gradients_self.
Qed.

Lemma similarity_self_witness :
  calculate_coverage_similarity
    [0; 1 / Qc_of_Z 5; 1 / Qc_of_Z 5; Qc_of_Z 4 / Qc_of_Z 5;
     Qc_of_Z 4 / Qc_of_Z 5]
    [0; 1 / Qc_of_Z 5; 1 / Qc_of_Z 5; Qc_of_Z 4 / Qc_of_Z 5;
     Qc_of_Z 4 / Qc_of_Z 5]
    default_max_distance
  = Ok 0.
Proof.
  apply (similarity_self _
           [1 / Qc_of_Z 4; 1 / Qc_of_Z 8; Qc_of_Z 3 / Qc_of_Z 8;
            Qc_of_Z 3 / Qc_of_Z 8; 0]).
  - reflexivity.
  - apply (bool_decide_unpack _). vm_compute. exact I.
  - vm_compute. discriminate.
Defined.

End self_claims.

(** ** Worked examples *)

Section worked_examples.
Import measures hmms examples.
Local Open Scope Qc_scope.

(** The third call succeeds; with a budget of two calls nothing is
    returned. *)
Example create_model_example :
  create_model (0%Z, 0%nat) example_from_samples id 5 tt default_threshold 0%nat
  = (Some (3%Z, 2%nat), 3%nat,
     [Attempt 3 LinAlgError; Attempt 3 LinAlgError;
      Attempt 3 (Fitted (3%Z, 2%nat))])
  ∧ create_model (0%Z, 0%nat) example_from_samples id 5 tt 2 0%nat
    = (None, 2%nat, [Attempt 3 LinAlgError; Attempt 3 LinAlgError]).
Proof. split; reflexivity. Qed.

(** The end-to-end scenario: every growth event finds a partner within the
    window, and the score is small, 10847/93312 (about 0.116). *)
Example similarity_example :
  calculate_coverage_similarity example_trace_a example_trace_b
                                default_max_distance
  = Ok (Qc_of_Z 10847 / Qc_of_Z 93312).
Proof. apply (bool_decide_unpack _). vm_compute. exact I. Qed.

End worked_examples.

(** * Further properties *)

(** ** preprocessing/util.py *)

Section util_facts.
Import py_bytes util packet_notions.
Local Open Scope Qc_scope.

Lemma float_of_bit_char (t : bool) :
  float_of_char (if t then "1"%char else "0"%char) = Ok (Qc_of_Z (Z.b2z t)).
Proof. by destruct t. Qed.

Lemma floats_of_app (s1 s2 : list ascii) (xs1 xs2 : list Qc) :
  floats_of s1 = Ok xs1 → floats_of s2 = Ok xs2 →
  floats_of (s1 ++ s2) = Ok (xs1 ++ xs2).
Proof.
  revert xs1. induction s1 as [|a s1 IH]; intros xs1; simpl.
  - by intros [= <-].
  - destruct (float_of_char a) as [x|]; simpl; [|done].
    destruct (floats_of s1) as [xs|]; simpl; [|done].
    intros [= <-] H2. by rewrite (IH xs eq_refl H2).
Qed.

Lemma floats_of_format (b : byte) :
  floats_of (format_08b b) = Ok (bits_of_byte b).
Proof.
  unfold format_08b, bits_of_byte.
  induction [7; 6; 5; 4; 3; 2; 1; 0]%N as [|k ks IH]; [done|].
  rewrite !fmap_cons. cbn [floats_of].
  by rewrite float_of_bit_char, IH.
Qed.

Lemma byte_of_bits_of_byte (b : byte) : byte_of_bits (bits_of_byte b) = Some b.
Proof. destruct b; vm_compute; reflexivity. Qed.

Lemma bits_of_byte_01 (b : byte) :
  Forall (λ x, x = 0 ∨ x = 1) (bits_of_byte b).
Proof.
  unfold bits_of_byte. apply Forall_fmap, Forall_forall. intros k _. simpl.
  destruct (N.testbit _ _); [right|left]; apply Qc_is_canon; reflexivity.
Qed.

Lemma scale_packet_values_bounds (input_bytes : list byte) (x : Qc) :
  x ∈ scale_packet_values input_bytes → 0 ≤ x ≤ 1.
Proof.
  assert (0 < Qc_of_Z 255) as H255 by reflexivity.
  unfold scale_packet_values. intros (b & -> & _)%list_elem_of_fmap.
  pose proof (Byte.to_N_bounded b) as Hb. split.
  - apply Qc_div_nonneg; [|done]. rewrite <-Z2Qc_inj_0.
    apply (proj1 (Z2Qc_inj_le _ _)). lia.
  - apply Qc_div_le_1; [|done]. apply (proj1 (Z2Qc_inj_le _ _)). lia.
Qed.

Lemma scale_packet_length_nonneg (input_bytes : list byte) (length : Z) :
  (0 ≤ length)%Z →
  scale_packet_length input_bytes length
  = take (Z.to_nat length) input_bytes
    ++ replicate (Z.to_nat length - List.length input_bytes) Byte.x00
  ∧ py.len (scale_packet_length input_bytes length) = length.
Proof.
  unfold scale_packet_length, ljust, slice_to, py.len.
  intros Hn. case_bool_decide as Hlen.
  - rewrite take_ge by lia.
    replace (Z.to_nat (length - Z.of_nat (List.length input_bytes)))
      with (Z.to_nat length - List.length input_bytes)%nat by lia.
    split; [done|]. rewrite length_app, length_replicate. lia.
  - rewrite bool_decide_eq_false_2 by lia.
    replace (Z.to_nat length - List.length input_bytes)%nat with 0%nat by lia.
    simpl. rewrite app_nil_r. split; [done|]. rewrite length_take. lia.
Qed.

Lemma byte_to_N_inj (b b' : byte) : Byte.to_N b = Byte.to_N b' → b = b'.
Proof.
  intros H. pose proof (Byte.of_to_N b) as Hb. rewrite H, Byte.of_to_N in Hb.
  congruence.
Qed.

End util_facts.

Section util_claims.
Import py_bytes util packet_notions.
Local Open Scope Qc_scope.

(** X1.  [bytes_as_bits_list] never raises: it returns eight values per
    byte, each 0.0 or 1.0, and reading the values back eight at a time,
    most significant bit first, gives the bytes it was called with. *)
Theorem bytes_as_bits_list_round_trip (input_bytes : list byte) :
  ∃ bits, bytes_as_bits_list input_bytes = Ok bits
          ∧ length bits = (8 * length input_bytes)%nat
          ∧ Forall (λ x, x = 0 ∨ x = 1) bits
          ∧ bytes_of_bits bits = Some input_bytes.
Proof.
  unfold bytes_as_bits_list.
  induction input_bytes as [|b bs (bits & Hbits & Hlen & H01 & Hback)].
  - exists []. by repeat split.
  - exists (bits_of_byte b ++ bits). rewrite bind_cons. split; [|split; [|split]].
    + by apply floats_of_app; [apply floats_of_format|].
    + rewrite length_app, Hlen. unfold bits_of_byte. rewrite length_fmap.
      simpl. lia.
    + apply Forall_app. split; [apply bits_of_byte_01|done].
    + pose proof (byte_of_bits_of_byte b) as Hb. unfold bits_of_byte in *.
      rewrite !fmap_cons, fmap_nil in *. cbn [app bytes_of_bits].
      rewrite Hb. simpl. by rewrite Hback.
Qed.

(** X2.  [scale_packet_values] keeps the length, returns values in [[0,1]]
    only, and loses nothing: different byte strings give different
    vectors. *)
Theorem scale_packet_values_range (input_bytes : list byte) :
  length (scale_packet_values input_bytes) = length input_bytes
  ∧ (∀ x, x ∈ scale_packet_values input_bytes → 0 ≤ x ≤ 1)
  ∧ (∀ other, scale_packet_values input_bytes = scale_packet_values other →
              input_bytes = other).
Proof.
  split; [apply length_fmap|]. split; [apply scale_packet_values_bounds|].
  unfold scale_packet_values.
  - intros other. apply list_fmap_eq_inj. intros b b' Heq.
    apply byte_to_N_inj, N2Z.inj, Z2Qc_inj.
    assert (∀ x y : Qc, x / Qc_of_Z 255 = y / Qc_of_Z 255 → x = y) as Hinj.
    { intros x y Hxy.
      assert (x = x / Qc_of_Z 255 * Qc_of_Z 255) as -> by (field; discriminate).
      assert (y = y / Qc_of_Z 255 * Qc_of_Z 255) as -> by (field; discriminate).
      by rewrite Hxy. }
    by apply Hinj.
Qed.

(** X3.  For a non-negative [length], [scale_packet_length] returns exactly
    [length] bytes: the first [length] bytes of the packet, followed by zero
    bytes when the packet is shorter.  A negative [length] is not rejected:
    the slice then drops that many bytes from the end of the packet. *)
Theorem scale_packet_length_spec (input_bytes : list byte) (length : Z) :
  ((0 ≤ length)%Z →
   scale_packet_length input_bytes length
   = take (Z.to_nat length) input_bytes
     ++ replicate (Z.to_nat length - List.length input_bytes) Byte.x00
   ∧ py.len (scale_packet_length input_bytes length) = length)
  ∧ ((length < 0)%Z →
     scale_packet_length input_bytes length
     = take (List.length input_bytes - Z.to_nat (- length)) input_bytes).
Proof.
  split; [apply scale_packet_length_nonneg|].
  unfold scale_packet_length, ljust, slice_to, py.len.
  - intros Hn. rewrite bool_decide_eq_false_2 by lia.
    rewrite bool_decide_eq_true_2 by done. f_equal. lia.
Qed.

Lemma scale_packet_length_spec_witness :
  scale_packet_length [Byte.x01; Byte.x02] 4
  = [Byte.x01; Byte.x02; Byte.x00; Byte.x00]
  ∧ scale_packet_length [Byte.x01; Byte.x02; Byte.x03] (-1)
    = [Byte.x01; Byte.x02].
Proof.
  split.
  - apply (proj1 (scale_packet_length_spec [Byte.x01; Byte.x02] 4)). lia.
  - apply (proj2 (scale_packet_length_spec
                    [Byte.x01; Byte.x02; Byte.x03] (-1))). lia.
Defined.

(** X4.  What the preprocessors feed to the encoder: for a non-negative
    [sample_size], a packet becomes a vector of exactly [sample_size] values
    in [[0,1]], and every position past the end of the packet holds 0. *)
Theorem scaled_packet_vector (pkt : list byte) (sample_size : Z) :
  (0 ≤ sample_size)%Z →
  let v := scale_packet_values (scale_packet_length pkt sample_size) in
  py.len v = sample_size
  ∧ (∀ x, x ∈ v → 0 ≤ x ≤ 1)
  ∧ (∀ i, (List.length pkt ≤ i)%nat → (Z.of_nat i < sample_size)%Z →
          v !! i = Some 0).
Proof.
  intros Hn v. subst v.
  destruct (scale_packet_length_nonneg pkt sample_size Hn) as [Heq Hl].
  split; [|split; [apply scale_packet_values_bounds|]].
  - unfold py.len, scale_packet_values in *. by rewrite length_fmap.
  - intros i Hi Hi'. rewrite Heq. unfold scale_packet_values.
    rewrite list_lookup_fmap, lookup_app_r by (rewrite length_take; lia).
    rewrite lookup_replicate_2 by (rewrite length_take; lia).
    simpl. f_equal. apply Qc_is_canon. reflexivity.
Qed.

Lemma scaled_packet_vector_witness :
  py.len (scale_packet_values (scale_packet_length [Byte.xff] 3)) = 3%Z.
Proof.
  apply (scaled_packet_vector [Byte.xff] 3). lia.
Defined.

End util_claims.

(** ** The greedy matching of [calculate_coverage_similarity] *)

Section matching_facts.
Import measures notions.

Lemma remove_perm (x : Z) (l : list Z) : x ∈ l → x :: py.remove x l ≡ₚ l.
Proof.
  induction l as [|y l IH]; [by intros ?%elem_of_nil|].
  simpl. case_bool_decide as Hxy; [by subst|].
  intros [?|Hin]%elem_of_cons; [done|].
  rewrite Permutation_swap. by rewrite IH.
Qed.

Lemma elem_of_remove (x y : Z) (l : list Z) : y ∈ py.remove x l → y ∈ l.
Proof.
  induction l as [|z l IH]; [done|]. simpl. case_bool_decide.
  - intros ?. apply elem_of_cons. by right.
  - rewrite !elem_of_cons. intros [?|?]; [by left|right; by apply IH].
Qed.

Lemma NoDup_remove (x : Z) (l : list Z) :
  NoDup l → NoDup (py.remove x l) ∧ x ∉ py.remove x l.
Proof.
  induction 1 as [|y l Hy Hl [IH1 IH2]]; [split; [constructor|by intros ?%elem_of_nil]|].
  simpl. case_bool_decide as Hxy.
  - subst y. done.
  - split.
    + constructor; [|done]. by intros ?%elem_of_remove.
    + intros [?|?]%elem_of_cons; done.
Qed.

(** Every round keeps the matched and the unmatched indices of either side
    a rearrangement of what was there, and only accepts the candidate at
    hand. *)
Lemma greedy_partition (l : list match_t) (st : matching) :
  let st' := foldl greedy_step st l in
  ((λ m : match_t, m.1.1) <$> matches st') ++ unmatched_fuzzer st'
  ≡ₚ ((λ m : match_t, m.1.1) <$> matches st) ++ unmatched_fuzzer st
  ∧ ((λ m : match_t, m.1.2) <$> matches st') ++ unmatched_hmm st'
    ≡ₚ ((λ m : match_t, m.1.2) <$> matches st) ++ unmatched_hmm st
  ∧ ∀ m, m ∈ matches st' → m ∈ matches st ∨ m ∈ l.
Proof.
  revert st. induction l as [|[[a b] d] l IH]; intros st; cbn [foldl].
  - split; [done|]. split; [done|]. auto.
  - destruct (IH (greedy_step st (a, b, d))) as (Hf & Hh & Hin).
    destruct st as [ms uf uh].
    destruct (decide (a ∈ uf ∧ b ∈ uh)) as [[Ha Hb]|Hn].
    + rewrite greedy_step_accept in * by done. simpl in Hf, Hh, Hin.
      cbn [matches unmatched_fuzzer unmatched_hmm].
      rewrite Hf, Hh, !fmap_app, <-!app_assoc. simpl.
      split; [by rewrite remove_perm|]. split; [by rewrite remove_perm|].
      intros m [[Hm|Hm%list_elem_of_singleton]%elem_of_app|Hm]%Hin.
      * by left.
      * right. subst m. apply elem_of_cons. by left.
      * right. apply elem_of_cons. by right.
    + rewrite greedy_step_reject in * by done.
      split; [done|]. split; [done|].
      intros m [Hm|Hm]%Hin; [by left|right]. apply elem_of_cons. by right.
Qed.

(** The unmatched lists only shrink. *)
Lemma greedy_unmatched_subset (l : list match_t) (st : matching) :
  (∀ x, x ∈ unmatched_fuzzer (foldl greedy_step st l) → x ∈ unmatched_fuzzer st)
  ∧ (∀ x, x ∈ unmatched_hmm (foldl greedy_step st l) → x ∈ unmatched_hmm st)
  ∧ (NoDup (unmatched_fuzzer st) →
     NoDup (unmatched_fuzzer (foldl greedy_step st l)))
  ∧ (NoDup (unmatched_hmm st) →
     NoDup (unmatched_hmm (foldl greedy_step st l))).
Proof.
  revert st. induction l as [|[[a b] d] l IH]; intros st; cbn [foldl];
    [done|].
  destruct (IH (greedy_step st (a, b, d))) as (Hf & Hh & Hnf & Hnh).
  destruct st as [ms uf uh].
  destruct (decide (a ∈ uf ∧ b ∈ uh)) as [[Ha Hb]|Hn].
  - rewrite greedy_step_accept in * by done. simpl in *.
    split; [intros x ?%Hf; by eapply elem_of_remove|].
    split; [intros x ?%Hh; by eapply elem_of_remove|].
    split; intros Hnd; [apply Hnf|apply Hnh]; by apply NoDup_remove.
  - by rewrite greedy_step_reject in * by done.
Qed.

(** Once a candidate was looked at, its two endpoints are never both
    unmatched again. *)
Lemma greedy_maximal (l : list match_t) (st : matching) (m : match_t) :
  NoDup (unmatched_fuzzer st) → NoDup (unmatched_hmm st) →
  m ∈ l →
  ¬ (m.1.1 ∈ unmatched_fuzzer (foldl greedy_step st l)
     ∧ m.1.2 ∈ unmatched_hmm (foldl greedy_step st l)).
Proof.
  revert st. induction l as [|[[a b] d] l IH]; intros st Hnf Hnh Hm;
    [by apply elem_of_nil in Hm|].
  cbn [foldl].
  assert (NoDup (unmatched_fuzzer (greedy_step st (a, b, d)))
          ∧ NoDup (unmatched_hmm (greedy_step st (a, b, d)))) as [Hnf' Hnh'].
  { destruct (greedy_unmatched_subset [(a, b, d)] st) as (_ & _ & H1 & H2).
    split; [by apply H1|by apply H2]. }
  apply elem_of_cons in Hm as [->|Hm]; [|by apply IH].
  destruct (greedy_unmatched_subset l (greedy_step st (a, b, d)))
    as (Hf & Hh & _ & _).
  intros [Ha%Hf Hb%Hh]. destruct st as [ms uf uh].
  destruct (decide (a ∈ uf ∧ b ∈ uh)) as [[Ha' Hb']|Hn].
  - rewrite greedy_step_accept in Ha by done. simpl in Ha, Hnf.
    by apply (NoDup_remove a uf Hnf).
  - rewrite greedy_step_reject in Ha, Hb by done. by apply Hn.
Qed.

End matching_facts.

Section matching_claims.
Import measures notions.

(** X5.  The greedy loop never uses an index twice: started on index lists
    without repetitions, whatever the candidates, the matched fuzzer indices
    are pairwise different, so are the matched hmm indices, and on either
    side every index ends up either in exactly one match or in the
    unmatched list. *)
Theorem greedy_matching_no_reuse (sorted_matches : list match_t)
    (indices_fuzzer indices_hmm : list Z) :
  NoDup indices_fuzzer → NoDup indices_hmm →
  let st := greedy_matching sorted_matches indices_fuzzer indices_hmm in
  NoDup ((λ m : match_t, m.1.1) <$> matches st)
  ∧ NoDup ((λ m : match_t, m.1.2) <$> matches st)
  ∧ ((λ m : match_t, m.1.1) <$> matches st) ++ unmatched_fuzzer st
    ≡ₚ indices_fuzzer
  ∧ ((λ m : match_t, m.1.2) <$> matches st) ++ unmatched_hmm st
    ≡ₚ indices_hmm.
Proof.
  intros Hf Hh st. subst st. unfold greedy_matching.
  destruct (greedy_partition sorted_matches
              (Matching [] indices_fuzzer indices_hmm)) as (Hpf & Hph & _).
  simpl in Hpf, Hph.
  split; [|split; [|done]].
  - rewrite <-Hpf in Hf. by apply NoDup_app in Hf as [? _].
  - rewrite <-Hph in Hh. by apply NoDup_app in Hh as [? _].
Qed.

Lemma greedy_matching_no_reuse_witness :
  NoDup ((λ m : match_t, m.1.1)
           <$> matches (greedy_matching [(0, 1, 1); (2, 1, 1); (2, 3, 1)]
                                        [0; 2] [1; 3])).
Proof.
  apply (greedy_matching_no_reuse [(0, 1, 1); (2, 1, 1); (2, 3, 1)]
                                  [0; 2] [1; 3]);
    apply (bool_decide_unpack _); vm_compute; exact I.
Defined.

(** X6.  The matching [calculate_coverage_similarity] builds from two index
    lists in increasing order: every match joins an index of either list at
    the recorded distance, which is within the window; and what stays
    unmatched could not have been matched, any unmatched fuzzer index and
    any unmatched hmm index being more than [max_distance] apart. *)
Theorem similarity_matching_maximal (indices_fuzzer indices_hmm : list Z)
    (max_distance : Z) :
  StronglySorted Z.lt indices_fuzzer → StronglySorted Z.lt indices_hmm →
  let st := greedy_matching
              (py.sorted dist
                 (possible_matches indices_fuzzer indices_hmm max_distance))
              indices_fuzzer indices_hmm in
  (∀ a b d, (a, b, d) ∈ matches st →
            a ∈ indices_fuzzer ∧ b ∈ indices_hmm
            ∧ d = Z.abs (a - b) ∧ d ≤ max_distance)
  ∧ (∀ a b, a ∈ unmatched_fuzzer st → b ∈ unmatched_hmm st →
            max_distance < Z.abs (a - b)).
Proof.
  intros Hf Hh st. subst st. unfold greedy_matching.
  set (L := py.sorted dist (possible_matches indices_fuzzer indices_hmm
                                             max_distance)).
  set (st0 := Matching [] indices_fuzzer indices_hmm).
  assert (∀ x, ¬ Z.lt x x) as Hirr by (intros x; lia).
  split.
  - intros a b d Hm.
    destruct (greedy_partition L st0) as (_ & _ & Hin).
    apply Hin in Hm as [Hm|Hm]; [by apply elem_of_nil in Hm|].
    subst L. rewrite sorted_perm in Hm.
    apply elem_of_possible_matches in Hm as (? & ? & ? & ?); [|done].
    simpl in *. repeat split; [done|done|done|lia].
  - intros a b Ha Hb.
    destruct (decide (max_distance < Z.abs (a - b))) as [|Hn]; [done|].
    exfalso.
    destruct (greedy_unmatched_subset L st0) as (Hsf & Hsh & _ & _).
    apply (greedy_maximal L st0 (a, b, Z.abs (a - b))).
    + by eapply StronglySorted_NoDup.
    + by eapply StronglySorted_NoDup.
    + subst L. rewrite sorted_perm. apply elem_of_possible_matches; [done|].
      simpl. repeat split; [by apply Hsf|by apply Hsh|lia].
    + done.
Qed.

Lemma similarity_matching_maximal_witness :
  20 ∈ unmatched_fuzzer
         (greedy_matching
            (py.sorted dist (possible_matches [0; 20] [1; 40] 5))
            [0; 20] [1; 40])
  ∧ 40 ∈ unmatched_hmm
           (greedy_matching
              (py.sorted dist (possible_matches [0; 20] [1; 40] 5))
              [0; 20] [1; 40])
  ∧ 5 < Z.abs (20 - 40).
Proof.
  assert (20 ∈ unmatched_fuzzer
                 (greedy_matching
                    (py.sorted dist (possible_matches [0; 20] [1; 40] 5))
                    [0; 20] [1; 40])) as Ha
    by (apply (bool_decide_unpack _); vm_compute; exact I).
  assert (40 ∈ unmatched_hmm
                 (greedy_matching
                    (py.sorted dist (possible_matches [0; 20] [1; 40] 5))
                    [0; 20] [1; 40])) as Hb
    by (apply (bool_decide_unpack _); vm_compute; exact I).
  split; [exact Ha|]. split; [exact Hb|].
  apply (proj2 (similarity_matching_maximal [0; 20] [1; 40] 5
                  ltac:(repeat constructor; lia)
                  ltac:(repeat constructor; lia)) 20 40 Ha Hb).
Defined.

End matching_claims.

(** ** The range of the score *)

Section qc_bridge.
Local Open Scope Qc_scope.

Lemma this_plus (x y : Qc) : (this (x + y) == this x + this y)%Q.
Proof. apply Qred_correct. Qed.

Lemma this_mult (x y : Qc) : (this (x * y) == this x * this y)%Q.
Proof. apply Qred_correct. Qed.

Lemma this_opp (x : Qc) : (this (- x) == - this x)%Q.
Proof. apply Qred_correct. Qed.

Lemma this_minus (x y : Qc) : (this (x - y) == this x - this y)%Q.
Proof. unfold Qcminus. rewrite this_plus, this_opp. reflexivity. Qed.

Lemma this_Q2Qc (q : Q) : (this (Q2Qc q) == q)%Q.
Proof. apply Qred_correct. Qed.

End qc_bridge.

(** Orders on [Qc] are orders on the underlying fractions; this moves a
    goal there, where [lra] and [nra] apply. *)
Ltac qc_to_q :=
  unfold Qcle, Qclt in *;
  repeat match goal with
  | H : context [this (_ + _)%Qc] |- _ => rewrite this_plus in H
  | H : context [this (_ - _)%Qc] |- _ => rewrite this_minus in H
  | H : context [this (_ * _)%Qc] |- _ => rewrite this_mult in H
  | H : context [this (- _)%Qc] |- _ => rewrite this_opp in H
  | H : context [this (Q2Qc _)] |- _ => rewrite this_Q2Qc in H
  | |- context [this (_ + _)%Qc] => rewrite this_plus
  | |- context [this (_ - _)%Qc] => rewrite this_minus
  | |- context [this (_ * _)%Qc] => rewrite this_mult
  | |- context [this (- _)%Qc] => rewrite this_opp
  | |- context [this (Q2Qc _)] => rewrite this_Q2Qc
  end.

Section score_range_facts.
Import measures notions.
Local Open Scope Qc_scope.

Lemma Qc_square_le_1 (x y : Qc) :
  0 ≤ x → x ≤ 1 → 0 ≤ y → y ≤ 1 → (x - y) * (x - y) ≤ 1.
Proof. intros. qc_to_q. nra. Qed.

Lemma Qc_square_nonneg (x : Qc) : 0 ≤ x * x.
Proof. qc_to_q. nra. Qed.

Lemma Qc_sub_le_1 (a b : Qc) : a ≤ 1 → 0 ≤ b → a - b ≤ 1.
Proof. intros. qc_to_q. lra. Qed.

Lemma Qc_half_le_1 (x : Qc) : x ≤ 1 → x / 2 ≤ 1.
Proof.
  intros Hx. assert (x / 2 + x / 2 = x) as Hh by (field; discriminate).
  destruct (decide (x / 2 ≤ 1)) as [|Hn%Qcnot_le_lt]; [done|].
  exfalso. rewrite <-Hh in Hx. qc_to_q. lra.
Qed.

Lemma gradient_from_le_1 (prev cur : Qc) (rest : list Qc) :
  Forall (λ x, 0 ≤ x ≤ 1) (prev :: cur :: rest) →
  Forall (λ x, x ≤ 1) (np.gradient_from prev cur rest).
Proof.
  revert prev cur. induction rest as [|next rest IH]; intros prev cur Hall.
  - inversion_clear Hall as [|?? [Hp _] Hall']. inversion_clear Hall' as [|?? [_ Hc] _].
    repeat constructor. by apply Qc_sub_le_1.
  - inversion_clear Hall as [|?? [Hp _] Hall'].
    pose proof Hall' as Hall''.
    inversion_clear Hall' as [|?? _ Hr]. inversion_clear Hr as [|?? [_ Hn] _].
    simpl. constructor; [|by apply IH].
    by apply Qc_half_le_1, Qc_sub_le_1.
Qed.

(** The differences of a curve with values in [[0,1]] are at most 1. *)
Lemma gradient_le_1 (f g : list Qc) :
  np.gradient f = Ok g → Forall (λ x, 0 ≤ x ≤ 1) f → Forall (λ x, x ≤ 1) g.
Proof.
  destruct f as [|x0 [|x1 rest]]; [done|done|]. intros [= <-] Hall.
  constructor; [|by apply gradient_from_le_1].
  inversion_clear Hall as [|?? [Hp _] Hall']. inversion_clear Hall' as [|?? [_ Hc] _].
  by apply Qc_sub_le_1.
Qed.

Lemma getitem_lookup {A} (l : list A) (i : Z) (x : A) :
  (0 ≤ i)%Z → getitem l i = Ok x → l !! Z.to_nat i = Some x.
Proof.
  intros Hi. unfold getitem. rewrite (bool_decide_eq_false_2 (i < 0)%Z) by lia.
  rewrite bool_decide_eq_true_2 by done.
  destruct (l !! Z.to_nat i); [|done]. by intros [= ->].
Qed.

Lemma Qc_ratio_square (p w : Z) :
  (0 < w)%Z → (Z.abs p ≤ w)%Z →
  0 ≤ (Qc_of_Z p / Qc_of_Z w) ^ 2 ≤ 1.
Proof.
  intros Hw Hp.
  assert (Qc_of_Z w ≠ 0) as Hw0
    by (rewrite <-Z2Qc_inj_0; intros ?%Z2Qc_inj; lia).
  assert ((Qc_of_Z p / Qc_of_Z w) ^ 2 = Qc_of_Z (p * p) / Qc_of_Z (w * w))
    as -> by (rewrite !Z2Qc_inj_mul; simpl; by field).
  assert (0 < Qc_of_Z (w * w)) as Hpos
    by (rewrite <-Z2Qc_inj_0; apply (proj1 (Z2Qc_inj_lt _ _)); nia).
  split.
  - apply Qc_div_nonneg; [|done]. rewrite <-Z2Qc_inj_0.
    apply (proj1 (Z2Qc_inj_le _ _)). nia.
  - apply Qc_div_le_1; [|done]. apply (proj1 (Z2Qc_inj_le _ _)). nia.
Qed.

(** A summand of the matched score lies in [[0,2]] when the two indices
    are within a positive window and both gradients lie in [[0,1]]. *)
Lemma matched_term_range (gf gh : list Qc) (w a b d : Z) (t : Qc) :
  (0 ≤ a)%Z → (0 ≤ b)%Z → (Z.abs (a - b) ≤ w)%Z →
  (∀ x, gf !! Z.to_nat a = Some x → 0 ≤ x ≤ 1) →
  (∀ y, gh !! Z.to_nat b = Some y → 0 ≤ y ≤ 1) →
  matched_term gf gh w (a, b, d) = Ok t → 0 ≤ t ≤ 2.
Proof.
  intros Ha Hb Hab Hx Hy. unfold matched_term.
  case_bool_decide as Hw0; [done|].
  destruct (getitem gf a) as [x|] eqn:Hgf; simpl; [|done].
  destruct (getitem gh b) as [y|] eqn:Hgh; simpl; [|done].
  intros [= <-].
  apply getitem_lookup, Hx in Hgf as [Hx0 Hx1]; [|done].
  apply getitem_lookup, Hy in Hgh as [Hy0 Hy1]; [|done].
  destruct (Qc_ratio_square (a - b) w) as [Hr0 Hr1]; [lia|done|].
  pose proof (Qc_square_le_1 x y Hx0 Hx1 Hy0 Hy1) as Hs1.
  pose proof (Qc_square_nonneg (x - y)) as Hs0.
  simpl in Hr0, Hr1. rewrite !Qcmult_1_r in *.
  generalize dependent (Qc_of_Z (a - b) / Qc_of_Z w * (Qc_of_Z (a - b) / Qc_of_Z w)).
  generalize dependent ((x - y) * (x - y)).
  intros s ?? r ??. split; qc_to_q; lra.
Qed.

Lemma matched_score_range (gf gh : list Qc) (w : Z) (ms : list match_t)
    (score total : Qc) :
  Forall (λ m, ∀ t, matched_term gf gh w m = Ok t → 0 ≤ t ≤ 2) ms →
  matched_score gf gh w ms score = Ok total →
  score ≤ total ≤ score + Qc_of_Z (2 * len ms).
Proof.
  intros Hall. revert score.
  induction Hall as [|m ms Hm _ IH]; intros score.
  - intros [= <-]. unfold len. cbn [length].
    change (2 * Z.of_nat 0)%Z with 0%Z. rewrite Z2Qc_inj_0.
    split; qc_to_q; lra.
  - simpl. destruct (matched_term gf gh w m) as [t|] eqn:Ht; simpl; [|done].
    intros [H1 H2]%IH. destruct (Hm t eq_refl) as [Ht0 Ht2].
    unfold len in *. simpl length.
    replace (2 * Z.of_nat (S (length ms)))%Z
      with (2 + 2 * Z.of_nat (length ms))%Z by lia.
    rewrite Z2Qc_inj_add, Z2Qc_inj_2.
    generalize dependent (Qc_of_Z (2 * Z.of_nat (length ms))).
    intros c ??. split; qc_to_q; lra.
Qed.

End score_range_facts.

Section score_outcome_facts.
Import measures notions.
Local Open Scope Qc_scope.

Lemma length_perm_matches (ms : list match_t) (u indices : list Z)
    (f : match_t → Z) :
  (f <$> ms) ++ u ≡ₚ indices → (len ms + len u = len indices)%Z.
Proof.
  intros H%Permutation_length. rewrite length_app, length_fmap in H.
  unfold len. lia.
Qed.

(** What the code knows about the matches it scores: both indices are
    increases within the common range, at most [max_distance] apart. *)
Lemma pipeline_matches (gf gh : list Qc) (w : Z) (a b d : Z) :
  let n := Z.min (len gf) (len gh) in
  let EA := increase_indices (increase_bitmap gf n) n in
  let EB := increase_indices (increase_bitmap gh n) n in
  (a, b, d) ∈ matches (greedy_matching
                         (py.sorted dist (possible_matches EA EB w)) EA EB) →
  a ∈ EA ∧ b ∈ EB ∧ (Z.abs (a - b) ≤ w)%Z.
Proof.
  intros n EA EB Hm. unfold greedy_matching in Hm.
  destruct (greedy_partition (py.sorted dist (possible_matches EA EB w))
              (Matching [] EA EB)) as (_ & _ & Hin).
  apply Hin in Hm as [Hm|Hm]; [by apply elem_of_nil in Hm|].
  rewrite sorted_perm in Hm.
  apply elem_of_possible_matches in Hm as (? & ? & ? & ?);
    [done|apply increase_indices_sorted].
Qed.

Lemma matched_score_ok (gf gh : list Qc) (w : Z) (ms : list match_t)
    (score : Qc) :
  w ≠ 0%Z →
  Forall (λ m : match_t, (0 ≤ m.1.1 < len gf)%Z ∧ (0 ≤ m.1.2 < len gh)%Z) ms →
  ∃ total, matched_score gf gh w ms score = Ok total.
Proof.
  intros Hw Hall. revert score.
  induction Hall as [|[[a b] d] ms [Ha Hb] _ IH]; intros score; [by eexists|].
  simpl in Ha, Hb. cbn [matched_score]. unfold matched_term.
  rewrite bool_decide_eq_false_2 by done.
  destruct (getitem_in_range gf a Ha) as [x ->].
  destruct (getitem_in_range gh b Hb) as [y ->]. simpl. apply IH.
Qed.

Lemma pipeline_matches_in_range (gf gh : list Qc) (w : Z) :
  let n := Z.min (len gf) (len gh) in
  let EA := increase_indices (increase_bitmap gf n) n in
  let EB := increase_indices (increase_bitmap gh n) n in
  Forall (λ m : match_t, (0 ≤ m.1.1 < len gf)%Z ∧ (0 ≤ m.1.2 < len gh)%Z)
         (matches (greedy_matching
                     (py.sorted dist (possible_matches EA EB w)) EA EB)).
Proof.
  intros n EA EB. apply Forall_forall. intros [[a b] d] Hm.
  apply pipeline_matches in Hm as (Ha & Hb & _).
  apply elem_of_increase_indices in Ha as [Ha _].
  apply elem_of_increase_indices in Hb as [Hb _]. simpl. lia.
Qed.

(** Past the two gradients the only exception left is the division by
    zero: no index is ever out of range. *)
Lemma similarity_of_gradients_raises (gf gh : list Qc) (w : Z) (e : exn) :
  similarity_of_gradients gf gh w = Raise e → e = ZeroDivisionError.
Proof.
  unfold similarity_of_gradients.
  set (n := Z.min (len gf) (len gh)).
  set (EA := increase_indices (increase_bitmap gf n) n).
  set (EB := increase_indices (increase_bitmap gh n) n).
  set (st := greedy_matching _ EA EB).
  destruct (matched_score gf gh w (matches st) 0) as [total|e'] eqn:Hms; simpl.
  - unfold normalize_score. case_bool_decide; congruence.
  - intros [= <-]. destruct (decide (w = 0%Z)) as [->|Hw].
    + clear -Hms. generalize dependent (0 : Qc).
      induction (matches st) as [|[[a b] d] ms IH]; intros score; [done|].
      cbn [matched_score]. unfold matched_term at 1.
      rewrite bool_decide_eq_true_2 by done. simpl. congruence.
    + destruct (matched_score_ok gf gh w (matches st) 0 Hw
                  (pipeline_matches_in_range gf gh w)) as [total Htotal].
      subst st EA EB n. congruence.
Qed.

Lemma similarity_of_gradients_range (gf gh : list Qc) (w : Z) (s : Qc) :
  Forall (λ x, x ≤ 1) gf → Forall (λ x, x ≤ 1) gh →
  similarity_of_gradients gf gh w = Ok s → 0 ≤ s ≤ 1.
Proof.
  intros Hgf Hgh. unfold similarity_of_gradients.
  set (n := Z.min (len gf) (len gh)).
  set (EA := increase_indices (increase_bitmap gf n) n).
  set (EB := increase_indices (increase_bitmap gh n) n).
  set (st := greedy_matching _ EA EB).
  assert (NoDup EA ∧ NoDup EB) as [HEA HEB].
  { split; (eapply StronglySorted_NoDup; [|apply increase_indices_sorted]);
      intros x; lia. }
  destruct (greedy_partition (py.sorted dist (possible_matches EA EB w))
              (Matching [] EA EB)) as (Hpf & Hph & _).
  fold (greedy_matching (py.sorted dist (possible_matches EA EB w)) EA EB)
    in Hpf, Hph. fold st in Hpf, Hph. simpl in Hpf, Hph.
  apply length_perm_matches in Hpf, Hph.
  destruct (matched_score gf gh w (matches st) 0) as [total|] eqn:Hms;
    simpl; [|done].
  apply matched_score_range in Hms as [Ht0 Ht2].
  - unfold normalize_score. case_bool_decide as Hz; [done|]. intros [= <-].
    rewrite !unmatched_score_eq.
    assert (0 ≤ len (unmatched_fuzzer st) ∧ 0 ≤ len (unmatched_hmm st)
            ∧ 0 ≤ len (matches st))%Z as (Hu1 & Hu2 & Hu3)
      by (unfold len; lia).
    assert (0 < Qc_of_Z (2 * (len EA + len EB))) as Hpos.
    { rewrite <-Z2Qc_inj_0. apply (proj1 (Z2Qc_inj_lt _ _)). lia. }
    assert (total + Qc_of_Z (2 * len (unmatched_fuzzer st))
            + Qc_of_Z (2 * len (unmatched_hmm st))
            ≤ Qc_of_Z (2 * (len EA + len EB))) as Hle.
    { replace (2 * (len EA + len EB))%Z
        with (2 * len (matches st) + 2 * len (unmatched_fuzzer st)
              + 2 * len (unmatched_hmm st)
              + 2 * len (matches st))%Z by lia.
      rewrite !Z2Qc_inj_add.
      assert (0 ≤ Qc_of_Z (2 * len (matches st))) as H1.
      { rewrite <-Z2Qc_inj_0. apply (proj1 (Z2Qc_inj_le _ _)). lia. }
      rewrite Qcplus_0_l in Ht2.
      generalize dependent (Qc_of_Z (2 * len (matches st))).
      generalize (Qc_of_Z (2 * len (unmatched_fuzzer st))).
      generalize (Qc_of_Z (2 * len (unmatched_hmm st))).
      intros. qc_to_q. lra. }
    assert (0 ≤ total + Qc_of_Z (2 * len (unmatched_fuzzer st))
            + Qc_of_Z (2 * len (unmatched_hmm st))) as Hge.
    { assert (0 ≤ Qc_of_Z (2 * len (unmatched_fuzzer st))
              ∧ 0 ≤ Qc_of_Z (2 * len (unmatched_hmm st))) as [H1 H2].
      { rewrite <-Z2Qc_inj_0.
        split; apply (proj1 (Z2Qc_inj_le _ _)); lia. }
      generalize dependent (Qc_of_Z (2 * len (unmatched_fuzzer st))).
      generalize dependent (Qc_of_Z (2 * len (unmatched_hmm st))).
      intros. qc_to_q. lra. }
    split; [by apply Qc_div_nonneg|by apply Qc_div_le_1].
  - apply Forall_forall. intros [[a b] d] Hm t Ht.
    apply pipeline_matches in Hm as (Ha & Hb & Hab).
    apply elem_of_increase_indices in Ha as [Ha (x & Hx & Hxpos)].
    apply elem_of_increase_indices in Hb as [Hb (y & Hy & Hypos)].
    eapply (matched_term_range gf gh w a b d); [lia|lia|done| | |done].
    + intros x' Hx'. rewrite Hx in Hx'. injection Hx' as <-.
      split; [by apply Qclt_le_weak|].
      by eapply Forall_lookup_1 in Hgf.
    + intros y' Hy'. rewrite Hy in Hy'. injection Hy' as <-.
      split; [by apply Qclt_le_weak|].
      by eapply Forall_lookup_1 in Hgh.
Qed.

Lemma normalize_unit_interval (curve : list Qc) :
  Forall (λ x, 0 ≤ x ≤ 1) (normalize curve).
Proof. apply Forall_forall, normalize_bounds. Qed.

End score_outcome_facts.

Section score_outcome_claims.
Import measures notions.
Local Open Scope Qc_scope.

(** X7.  Whenever [calculate_coverage_similarity] returns, the score lies
    in [[0,1]]. *)
Theorem similarity_score_range (fuzzer hmm : list Qc) (max_distance : Z)
    (score : Qc) :
  calculate_coverage_similarity fuzzer hmm max_distance = Ok score →
  0 ≤ score ≤ 1.
Proof.
  rewrite similarity_unfold.
  destruct (np.gradient (normalize fuzzer)) as [gf|] eqn:Hf; simpl; [|done].
  destruct (np.gradient (normalize hmm)) as [gh|] eqn:Hh; simpl; [|done].
  apply similarity_of_gradients_range.
  - eapply gradient_le_1; [done|apply normalize_unit_interval].
  - eapply gradient_le_1; [done|apply normalize_unit_interval].
Qed.

Lemma similarity_score_range_witness :
  0 ≤ Qc_of_Z 10847 / Qc_of_Z 93312 ≤ 1.
Proof.
  apply (similarity_score_range examples.example_trace_a
           examples.example_trace_b default_max_distance).
  apply (bool_decide_unpack _). vm_compute. exact I.
Defined.

(** X8.  What [calculate_coverage_similarity] can raise.  It raises
    [ValueError] exactly when one of the normalized curves has fewer than
    two samples ([np.gradient] needs two); otherwise the only exception is
    [ZeroDivisionError], and no index is ever out of range.  With samples
    enough, a window other than 0 and at least one increase on either side,
    it returns a score. *)
Theorem similarity_outcome (fuzzer hmm : list Qc) (max_distance : Z) :
  (calculate_coverage_similarity fuzzer hmm max_distance = Raise ValueError
   ↔ (length (normalize fuzzer) < 2 ∨ length (normalize hmm) < 2)%nat)
  ∧ (∀ e, calculate_coverage_similarity fuzzer hmm max_distance = Raise e →
          e = ValueError ∨ e = ZeroDivisionError)
  ∧ (∀ gf gh,
       np.gradient (normalize fuzzer) = Ok gf →
       np.gradient (normalize hmm) = Ok gh →
       max_distance ≠ 0%Z →
       let n := Z.min (len gf) (len gh) in
       increase_indices (increase_bitmap gf n) n ≠ []
       ∨ increase_indices (increase_bitmap gh n) n ≠ [] →
       ∃ score,
         calculate_coverage_similarity fuzzer hmm max_distance = Ok score).
Proof.
  rewrite similarity_unfold. split; [|split].
  - destruct (np.gradient (normalize fuzzer)) as [gf|e1] eqn:Hf; simpl.
    + destruct (np.gradient (normalize hmm)) as [gh|e2] eqn:Hh; simpl.
      * apply length_gradient in Hf as [_ Hf]. apply length_gradient in Hh as [_ Hh].
        split; [|lia]. by intros ?%similarity_of_gradients_raises.
      * pose proof Hh as ->%gradient_raises. split; [|done]. intros _. right.
        destruct (normalize hmm) as [|? [|??]]; simpl in *; [lia|lia|done].
    + pose proof Hf as ->%gradient_raises. split; [|done]. intros _. left.
      destruct (normalize fuzzer) as [|? [|??]]; simpl in *; [lia|lia|done].
  - intros e.
    destruct (np.gradient (normalize fuzzer)) as [gf|e1] eqn:Hf; simpl.
    + destruct (np.gradient (normalize hmm)) as [gh|e2] eqn:Hh; simpl.
      * intros ->%similarity_of_gradients_raises. by right.
      * apply gradient_raises in Hh as ->. intros [= <-]. by left.
    + apply gradient_raises in Hf as ->. intros [= <-]. by left.
  - intros gf gh -> -> Hw n Hev. simpl. unfold similarity_of_gradients.
    fold n.
    set (EA := increase_indices (increase_bitmap gf n) n) in *.
    set (EB := increase_indices (increase_bitmap gh n) n) in *.
    destruct (matched_score_ok gf gh max_distance
                (matches (greedy_matching
                            (py.sorted dist (possible_matches EA EB max_distance))
                            EA EB)) 0 Hw
                (pipeline_matches_in_range gf gh max_distance)) as [total ->].
    simpl. unfold normalize_score. rewrite bool_decide_eq_false_2; [by eexists|].
    unfold len. destruct Hev as [Hev|Hev];
      [destruct EA|destruct EB]; simpl; try done; lia.
Qed.

Lemma similarity_outcome_witness :
  calculate_coverage_similarity [] [Qc_of_Z 1; Qc_of_Z 2] 5 = Raise ValueError.
Proof.
  apply (proj1 (similarity_outcome [] [Qc_of_Z 1; Qc_of_Z 2] 5)).
  left. simpl. lia.
Defined.

End score_outcome_claims.

(** ** More on [normalize] *)

Section normalize_more_facts.
Import measures.
Local Open Scope Qc_scope.

(** The degenerate branch is taken by the all-zero curves and by no
    other. *)
Lemma degenerate_iff_zero (curve : list Qc) :
  py.min (0 :: curve) = py.max (0 :: curve) ↔ Forall (λ x, x = 0) curve.
Proof.
  split.
  - intros Heq. apply Forall_forall. intros x Hx.
    assert (x ∈ 0 :: curve) as Hx' by (apply elem_of_cons; by right).
    assert (0 ∈ 0 :: curve) as H0 by (apply elem_of_cons; by left).
    pose proof (min_le 0 x curve Hx') as H1.
    pose proof (max_ge 0 x curve Hx') as H2.
    pose proof (min_le 0 0 curve H0) as H3.
    pose proof (max_ge 0 0 curve H0) as H4.
    rewrite <-Heq in H2, H4.
    assert (py.min (0 :: curve) = 0) as Hm by (by apply Qcle_antisym).
    rewrite Hm in H1, H2. by apply Qcle_antisym.
  - intros Hall.
    assert (∀ y, y ∈ 0 :: curve → y = 0) as Hz.
    { intros y [->|Hy]%elem_of_cons; [done|].
      by eapply Forall_forall in Hall. }
    by rewrite (Hz _ (min_elem 0 curve)), (Hz _ (max_elem 0 curve)).
Qed.




End normalize_more_facts.

Section normalize_more_claims.
Import measures.
Local Open Scope Qc_scope.

(** X9.  [normalize] returns one value per input value, except on the
    curves whose values are all 0.0 (the empty curve among them), where the
    result is one longer. *)
Theorem normalize_length (curve : list Qc) :
  length (normalize curve)
  = if decide (Forall (λ x, x = 0) curve) then S (length curve)
    else length curve.
Proof.
  case_decide as Hz.
  - rewrite normalize_degenerate by (by apply degenerate_iff_zero).
    simpl. by rewrite length_replicate.
  - rewrite normalize_nondegenerate
      by (by intros ?%degenerate_iff_zero).
    apply length_fmap.
Qed.



End normalize_more_claims.

(** ** More on the coverage map *)

Section coverage_more_facts.
Import coverage_calculation coverage_single notions.
Local Open Scope Z_scope.

Lemma setitem_nonneg {A} (l : list A) (i : Z) (v : A) :
  0 ≤ i < len l → setitem l i v = Ok (<[Z.to_nat i := v]> l).
Proof.
  intros Hi. unfold setitem.
  rewrite (bool_decide_eq_false_2 (i < 0)) by lia.
  by rewrite bool_decide_eq_true_2.
Qed.

(** The marking loop overwrites the entries of the edges with 1 and leaves
    every other entry alone. *)
Lemma mark_edges_lookup (N : Z) (nodes coverage bm : list Z) (k : nat) :
  Forall (λ e, 0 ≤ edge_index N e < len coverage) (edges nodes) →
  mark_edges nodes N coverage = Ok bm →
  (k < length coverage)%nat →
  bm !! k = if decide (Z.of_nat k ∈ edge_index N <$> edges nodes)
            then Some 1 else coverage !! k.
Proof.
  revert coverage.
  induction nodes as [|src [|dst rest] IH]; intros coverage Hall Hbm Hk.
  - injection Hbm as <-. rewrite decide_False; [done|]. by intros ?%elem_of_nil.
  - injection Hbm as <-. rewrite decide_False; [done|]. by intros ?%elem_of_nil.
  - rewrite edges_cons in Hall |- *. inversion_clear Hall as [|?? Hhd Htl].
    unfold edge_index in Hhd at 1. simpl in Hhd.
    change (mark_edges (src :: dst :: rest) N coverage)
      with (coverage' ← setitem coverage (src * N + dst) 1;
            mark_edges (dst :: rest) N coverage') in Hbm.
    rewrite setitem_nonneg in Hbm by done. simpl in Hbm.
    rewrite (IH _ ltac:(unfold len in *; by rewrite length_insert) Hbm)
      by (by rewrite length_insert).
    rewrite fmap_cons. unfold edge_index at 3. simpl.
    destruct (decide (Z.of_nat k = src * N + dst)) as [Heq|Hne].
    + rewrite (decide_True (P := _ ∈ _ :: _))
        by (apply elem_of_cons; by left).
      case_decide; [done|].
      replace (Z.to_nat (src * N + dst)) with k by lia.
      by apply list_lookup_insert_eq.
    + rewrite list_lookup_insert_ne by lia.
      case_decide as Hin.
      * rewrite decide_True; [done|]. apply elem_of_cons. by right.
      * rewrite decide_False; [done|]. by intros [?|?]%elem_of_cons.
Qed.

(** Over states of [[0, N)] the flat index determines the edge. *)
Lemma edge_index_inj (N : Z) (e e' : Z * Z) :
  0 ≤ e.2 < N → 0 ≤ e'.2 < N →
  edge_index N e = edge_index N e' → e = e'.
Proof.
  destruct e as [s d], e' as [s' d']. unfold edge_index. simpl.
  intros Hd Hd' Heq. assert (s = s') as -> by nia. f_equal. lia.
Qed.

Lemma edges_snd_in_range (N : Z) (nodes : list Z) (e : Z * Z) :
  Forall (λ s, 0 ≤ s < N) nodes → e ∈ edges nodes → 0 ≤ e.2 < N.
Proof.
  intros Hall He. unfold edges in He.
  apply list_elem_of_lookup in He as [i Hi].
  apply lookup_zip_with_Some in Hi as (x & y & -> & _ & Hy).
  rewrite lookup_drop in Hy. simpl.
  by eapply Forall_lookup_1 in Hall.
Qed.

Lemma logical_or_comm (cs : list bool) (a b : list Z) :
  np.logical_or (np.logical_or cs a) b = np.logical_or (np.logical_or cs b) a.
Proof.
  unfold np.logical_or. revert a b.
  induction cs as [|c cs IH]; intros [|x a] [|y b]; simpl; try done.
  f_equal; [|apply IH]. by destruct c, (bool_decide _), (bool_decide _).
Qed.

Lemma foldl_logical_or_perm (cs : list bool) (bms bms' : list (list Z)) :
  bms ≡ₚ bms' → foldl np.logical_or cs bms = foldl np.logical_or cs bms'.
Proof.
  intros Hperm. revert cs.
  induction Hperm as [|bm bms bms' _ IH|a b bms|bms1 bms2 bms3 _ IH1 _ IH2];
    intros cs; simpl; [done|apply IH| |by rewrite IH1, IH2].
  by rewrite logical_or_comm.
Qed.

End coverage_more_facts.

Section coverage_loop_facts.
Import coverage_calculation coverage_single notions.
Context {File Seq State : Type}.
Variable load : File → list Seq.
Variable viterbi : Seq → viterbi_res State.

(** What a run of the loop that did not raise went through: every sequence
    gave a coverage list, the summary is the OR of them all, the trace grew
    by one value per sequence, and its last value belongs to the final
    summary. *)
Lemma coverage_loop_inv (N : Z) (st st' : coverage_state) (seqs : list Seq) :
  coverage_loop viterbi N st seqs = Ok st' →
  ∃ bitmaps,
    Forall2 (λ seq bm, generate_coverage_map (viterbi seq) N = Ok bm)
            seqs bitmaps
    ∧ st'.1 = foldl np.logical_or st.1 bitmaps
    ∧ length st'.2 = (length st.2 + length seqs)%nat
    ∧ (seqs ≠ [] →
       last st'.2 = Some (Qc_of_Z (sum st'.1) / Qc_of_Z (N * N))%Qc).
Proof.
  revert st. induction seqs as [|seq seqs IH]; intros st.
  - intros [= <-]. exists []. split; [constructor|]. split; [done|].
    split; [simpl; lia|done].
  - simpl. unfold coverage_step.
    destruct (generate_coverage_map (viterbi seq) N) as [bm|] eqn:Hbm;
      simpl; [|done].
    case_bool_decide; simpl; [done|].
    intros Hrun. destruct (IH _ Hrun) as (bms & Hall & Hcs & Hlen & Hlast).
    simpl in Hcs, Hlen.
    exists (bm :: bms). split; [by constructor|]. split; [done|].
    split; [rewrite Hlen, length_app; simpl; lia|]. intros _.
    destruct seqs as [|seq' seqs]; [|by apply Hlast].
    simpl in Hrun. injection Hrun as <-. simpl. by rewrite last_snoc.
Qed.

(** The values appended to the trace are fractions of [N²] entries. *)
Lemma coverage_loop_range (N : Z) (st st' : coverage_state) (seqs : list Seq) :
  coverage_loop viterbi N st seqs = Ok st' →
  (length st.1 ≤ Z.to_nat (N * N))%nat →
  Forall (λ x, 0 ≤ x ≤ 1)%Qc st.2 →
  Forall (λ x, 0 ≤ x ≤ 1)%Qc st'.2.
Proof.
  revert st. induction seqs as [|seq seqs IH]; intros st.
  - by intros [= <-].
  - simpl. unfold coverage_step.
    destruct (generate_coverage_map (viterbi seq) N) as [bm|] eqn:Hbm;
      simpl; [|done].
    case_bool_decide as HN; simpl; [done|].
    intros Hrun Hlen Hall. apply (IH _ Hrun); simpl.
    + unfold np.logical_or. rewrite length_zip_with.
      etrans; [apply Nat.le_min_l|done].
    + apply Forall_app. split; [done|]. repeat constructor.
      * apply Qc_div_nonneg.
        -- rewrite <-Z2Qc_inj_0. apply (proj1 (Z2Qc_inj_le _ _)), sum_nonneg.
        -- rewrite <-Z2Qc_inj_0. apply (proj1 (Z2Qc_inj_lt _ _)).
           pose proof (Z.square_nonneg N). lia.
      * apply Qc_div_le_1.
        -- apply (proj1 (Z2Qc_inj_le _ _)). unfold sum, len.
           pose proof (length_filter (λ b, b = true) (np.logical_or st.1 bm))
             as Hf.
           unfold np.logical_or in *. rewrite length_zip_with in Hf.
           rewrite <-(Z2Nat.id (N * N)) by apply Z.square_nonneg.
           apply Nat2Z.inj_le.
           etrans; [exact Hf|]. etrans; [apply Nat.le_min_l|done].
        -- rewrite <-Z2Qc_inj_0. apply (proj1 (Z2Qc_inj_lt _ _)).
           pose proof (Z.square_nonneg N). lia.
Qed.

(** Coverage lists are determined by the sequences: rearranged sequences
    give rearranged lists. *)
Lemma bitmaps_perm (N : Z) (seqs seqs' : list Seq)
    (bitmaps bitmaps' : list (list Z)) :
  Forall2 (λ seq bm, generate_coverage_map (viterbi seq) N = Ok bm)
          seqs bitmaps →
  Forall2 (λ seq bm, generate_coverage_map (viterbi seq) N = Ok bm)
          seqs' bitmaps' →
  seqs ≡ₚ seqs' → bitmaps ≡ₚ bitmaps'.
Proof.
  intros H1 H2 Hperm.
  assert (∀ l bs,
            Forall2 (λ seq bm, generate_coverage_map (viterbi seq) N = Ok bm)
                    l bs →
            map (λ seq, generate_coverage_map (viterbi seq) N) l = map Ok bs)
    as Hmap.
  { induction 1 as [|???? Hx _ IH]; [done|]. simpl. by rewrite Hx, IH. }
  apply Hmap in H1, H2.
  apply (Permutation_map (λ seq, generate_coverage_map (viterbi seq) N))
    in Hperm.
  rewrite H1, H2 in Hperm.
  apply Permutation_map_inv in Hperm as (l & Hl & Hp).
  assert (l = bitmaps) as ->; [|done].
  clear -Hl. revert l Hl.
  induction bitmaps as [|b bs IH]; intros [|b' l]; simpl; try done.
  intros [= -> Hl]. f_equal. by apply IH.
Qed.

End coverage_loop_facts.

Section coverage_more_claims.
Import coverage_calculation coverage_single notions.
Context {File Seq State : Type}.
Variable load : File → list Seq.
Variable viterbi : Seq → viterbi_res State.

(** X11.  For a path whose states all lie in [[0, N)], the entry
    [src * N + dst] of the coverage list is 1 exactly when the path goes
    from [src] to [dst] in one step, and 0 otherwise: the list is the set
    of the transitions taken, however often each was taken. *)
Theorem generate_coverage_map_exact (res : viterbi_res State) (N : Z) :
  Forall (λ s, 0 ≤ s.1 < N) res.2 →
  ∃ bm, generate_coverage_map res N = Ok bm
        ∧ ∀ src dst, 0 ≤ src < N → 0 ≤ dst < N →
            bm !! Z.to_nat (src * N + dst)
            = Some (if decide ((src, dst) ∈ edges (res.2.*1)) then 1 else 0).
Proof.
  intros Hall. unfold generate_coverage_map.
  assert (Forall (λ s, 0 ≤ s < N) (res.2.*1)) as Hnodes by (by apply Forall_fmap).
  set (coverage := replicate (Z.to_nat (N * N)) 0).
  assert (len coverage = N * N) as Hlen by apply len_replicate.
  assert (Forall (λ e, 0 ≤ edge_index N e < len coverage) (edges (res.2.*1)))
    as Hedges by (rewrite Hlen; by apply edges_in_range).
  destruct (mark_edges_ok N (res.2.*1) coverage) as (bm & Hbm & _).
  { eapply Forall_impl; [exact Hedges|]. intros e He. unfold valid_index.
    simpl in He. lia. }
  exists bm. split; [done|]. intros src dst Hsrc Hdst.
  pose proof (edge_index_in_range N src dst Hsrc Hdst) as Hidx.
  unfold edge_index in Hidx. simpl in Hidx.
  rewrite (mark_edges_lookup N _ coverage bm _ Hedges Hbm)
    by (unfold len in Hlen; lia).
  rewrite Z2Nat.id by lia.
  destruct (decide ((src, dst) ∈ edges (res.2.*1))) as [Hin|Hnin].
  - rewrite decide_True; [done|]. apply list_elem_of_fmap.
    by exists (src, dst).
  - rewrite decide_False.
    + subst coverage. apply lookup_replicate_2. lia.
    + intros (e & He & Hin)%list_elem_of_fmap. apply Hnin.
      assert (e = (src, dst)) as <-; [|done]. symmetry.
      apply (edge_index_inj N); [done| |done].
      by eapply edges_snd_in_range.
Qed.

(** X12.  Every value of the trace [calculate_coverage] returns is a
    fraction between 0 and 1. *)
Theorem calculate_coverage_trace_range (N : Z) (files : list File)
    (summary : list bool) (trace : list Qc) :
  calculate_coverage load viterbi N files = Ok (summary, trace) →
  ∀ x, x ∈ trace → (0 ≤ x ≤ 1)%Qc.
Proof.
  unfold calculate_coverage. rewrite files_loop_flatten. intros Hrun.
  apply coverage_loop_range in Hrun; simpl in *.
  - intros x Hx. by eapply Forall_forall in Hrun.
  - by rewrite length_replicate.
  - constructor.
Qed.

(** X13.  The order in which the sequences are processed changes the trace
    on the way but not where it ends: two runs over the same sequences in
    different orders return the same summary, traces of the same length and
    the same final coverage value. *)
Theorem calculate_coverage_order (N : Z) (files files' : list File)
    (summary summary' : list bool) (trace trace' : list Qc) :
  calculate_coverage load viterbi N files = Ok (summary, trace) →
  calculate_coverage load viterbi N files' = Ok (summary', trace') →
  files ≫= load ≡ₚ files' ≫= load →
  summary = summary' ∧ length trace = length trace'
  ∧ last trace = last trace'.
Proof.
  unfold calculate_coverage. rewrite !files_loop_flatten.
  intros Hrun Hrun' Hperm.
  destruct (coverage_loop_inv viterbi N _ _ _ Hrun)
    as (bms & Hall & Hcs & Hlen & Hlast).
  destruct (coverage_loop_inv viterbi N _ _ _ Hrun')
    as (bms' & Hall' & Hcs' & Hlen' & Hlast').
  simpl in *.
  pose proof (bitmaps_perm viterbi N _ _ _ _ Hall Hall' Hperm) as Hbms.
  assert (summary = summary') as <-
    by (rewrite Hcs, Hcs'; by apply foldl_logical_or_perm).
  split; [done|]. split; [rewrite Hlen, Hlen'; by rewrite Hperm|].
  destruct (files ≫= load) as [|seq seqs] eqn:Hseqs.
  - apply Permutation_nil_l in Hperm. rewrite <-Hperm in Hrun'.
    simpl in Hrun, Hrun'. congruence.
  - rewrite Hlast by done. rewrite Hlast'; [done|].
    intros Hnil. rewrite Hnil in Hperm.
    by apply Permutation_nil_r in Hperm.
Qed.

(** X14.  The single-sequence entry point: an empty batch raises
    [IndexError]; of a longer batch only the first sequence counts; and on
    a batch of one sequence it agrees with [calculate_coverage] run on one
    file holding that sequence, whose summary is the returned list read as
    booleans and whose trace is the single value [popcount / N²]. *)
Theorem calculate_coverage_single_batch (N : Z) :
  calculate_coverage_single viterbi N [] = Raise IndexError
  ∧ (∀ seq rest,
       calculate_coverage_single viterbi N (seq :: rest)
       = generate_coverage_map (viterbi seq) N)
  ∧ (∀ file seq bm,
       N ≠ 0 → load file = [seq] →
       calculate_coverage_single viterbi N (load file) = Ok bm →
       calculate_coverage load viterbi N [file]
       = Ok ((λ b, bool_decide (b ≠ 0)) <$> bm,
             [(Qc_of_Z (Z.of_nat (popcount bm)) / Qc_of_Z (N * N))%Qc])).
Proof.
  split; [done|]. split; [done|].
  intros file seq bm HN Hload. rewrite Hload.
  change (calculate_coverage_single viterbi N [seq])
    with (generate_coverage_map (viterbi seq) N).
  intros Hbm. unfold calculate_coverage. simpl. rewrite Hload. simpl.
  unfold coverage_step. rewrite Hbm. simpl.
  rewrite bool_decide_eq_false_2 by nia. simpl.
  apply generate_coverage_map_length in Hbm.
  assert (∀ n (l : list Z), length l = n →
            np.logical_or (replicate n false) l
            = (λ b, bool_decide (b ≠ 0)) <$> l) as Hor.
  { intros n l <-. unfold np.logical_or.
    induction l as [|b l IH]; [done|]. simpl. by rewrite IH. }
  rewrite (Hor _ bm Hbm).
  assert (sum ((λ b, bool_decide (b ≠ 0)) <$> bm) = Z.of_nat (popcount bm))
    as ->; [|done].
  unfold sum, popcount, len. f_equal.
  clear. induction bm as [|b bm IH]; [done|].
  rewrite fmap_cons, !filter_cons.
  destruct (decide (b ≠ 0)) as [Hb|Hb].
  - rewrite decide_True by (by apply bool_decide_eq_true_2).
    simpl. by rewrite IH.
  - rewrite decide_False; [done|].
    rewrite bool_decide_eq_false_2 by done. done.
Qed.

End coverage_more_claims.

Section coverage_more_instances.
Import coverage_calculation coverage_single notions examples more_examples.
Local Open Scope Z_scope.

Lemma generate_coverage_map_exact_witness :
  ∃ bm, generate_coverage_map
          (0%Qc, [(0, tt); (1, tt); (2, tt); (1, tt)]) 3 = Ok bm
        ∧ bm !! Z.to_nat (1 * 3 + 2)
          = Some (if decide ((1, 2) ∈ edges [0; 1; 2; 1]) then 1 else 0).
Proof.
  destruct (generate_coverage_map_exact
              (0%Qc, [(0, tt); (1, tt); (2, tt); (1, tt)]) 3)
    as (bm & Hbm & Hbits).
  - repeat constructor; simpl; lia.
  - exists bm. split; [exact Hbm|]. apply (Hbits 1 2); lia.
Defined.

Lemma calculate_coverage_trace_range_witness :
  (0 ≤ 1 / Qc_of_Z 4 ≤ 1)%Qc.
Proof.
  apply (calculate_coverage_trace_range example_load example_viterbi 2 [tt]
           _ _ calculate_coverage_example).
  apply elem_of_cons. by left.
Defined.

Lemma calculate_coverage_order_witness :
  [true; true; false; false] = [true; true; false; false]
  ∧ length [(1 / Qc_of_Z 4)%Qc; (1 / Qc_of_Z 2)%Qc]
    = length [(1 / Qc_of_Z 4)%Qc; (1 / Qc_of_Z 2)%Qc]
  ∧ last [(1 / Qc_of_Z 4)%Qc; (1 / Qc_of_Z 2)%Qc]
    = last [(1 / Qc_of_Z 4)%Qc; (1 / Qc_of_Z 2)%Qc].
Proof.
  apply (calculate_coverage_order example_load_order example_viterbi 2
           [false] [true]).
  - apply (bool_decide_unpack _). vm_compute. exact I.
  - apply (bool_decide_unpack _). vm_compute. exact I.
  - simpl. apply Permutation_swap.
Defined.

Lemma calculate_coverage_single_batch_witness :
  calculate_coverage example_load_one example_viterbi 2 [tt]
  = Ok ((λ b, bool_decide (b ≠ 0)) <$> [0; 1; 0; 0],
        [(Qc_of_Z (Z.of_nat (popcount [0; 1; 0; 0]%Z)) / Qc_of_Z 4)%Qc]).
Proof.
  apply (proj2 (proj2 (calculate_coverage_single_batch
                         example_load_one example_viterbi 2)) tt [0; 1]).
  - discriminate.
  - reflexivity.
  - reflexivity.
Defined.

End coverage_more_instances.

(** ** load_data.py *)

Section dict_facts.
Context `{EqDecision K} {V : Type}.

Lemma dict_set_fresh (d : py_dict.dict K V) (k : K) (v : V) :
  k ∉ py_dict.keys d → py_dict.set d k v = d ++ [(k, v)].
Proof.
  unfold py_dict.keys. induction d as [|[k' v'] d IH]; [done|].
  rewrite fmap_cons, not_elem_of_cons. simpl. intros [Hne Hnin].
  rewrite decide_False by done. by rewrite IH.
Qed.

Lemma dict_get_set (d : py_dict.dict K V) (k k' : K) (v : V) :
  py_dict.get (py_dict.set d k v) k'
  = if decide (k' = k) then Some v else py_dict.get d k'.
Proof.
  induction d as [|[k0 v0] d IH]; simpl.
  - by repeat case_decide.
  - destruct (decide (k = k0)) as [->|Hne]; simpl.
    + by repeat case_decide.
    + rewrite IH. repeat case_decide; subst; done.
Qed.

Lemma dict_keys_set (d : py_dict.dict K V) (k : K) (v : V) :
  py_dict.keys (py_dict.set d k v)
  = if decide (k ∈ py_dict.keys d) then py_dict.keys d
    else py_dict.keys d ++ [k].
Proof.
  unfold py_dict.keys. induction d as [|[k0 v0] d IH].
  - simpl. destruct (decide (k ∈ [])) as [Hin|]; [|done].
    by apply elem_of_nil in Hin.
  - cbn [py_dict.set]. destruct (decide (k = k0)) as [->|Hne].
    + rewrite !fmap_cons. cbn [fst].
      destruct (decide (k0 ∈ k0 :: d.*1)) as [|Hnin]; [done|].
      destruct Hnin. apply elem_of_cons. by left.
    + rewrite !fmap_cons, IH. cbn [fst].
      destruct (decide (k ∈ d.*1)) as [Hin|Hnin];
        destruct (decide (k ∈ k0 :: d.*1)) as [Hin'|Hnin']; try done.
      * destruct Hnin'. apply elem_of_cons. by right.
      * apply elem_of_cons in Hin' as [?|?]; done.
Qed.

Lemma dict_get_None (d : py_dict.dict K V) (k : K) :
  py_dict.get d k = None ↔ k ∉ py_dict.keys d.
Proof.
  unfold py_dict.keys. induction d as [|[k0 v0] d IH]; simpl.
  - split; [intros _ ?%elem_of_nil; done|done].
  - rewrite not_elem_of_cons. case_decide; [split|].
    + done.
    + by intros [? _].
    + rewrite IH. tauto.
Qed.

End dict_facts.

Section syn_facts.
Import load_data packet_notions.

Lemma numbered_keys (groups : list (list packet)) :
  py_dict.keys (numbered groups) = Z.of_nat <$> seq 0 (length groups).
Proof.
  unfold py_dict.keys, numbered.
  assert (∀ j, (imap (λ i g, (Z.of_nat (j + i), raw <$> g)) groups).*1
               = Z.of_nat <$> seq j (length groups)) as H.
  { induction groups as [|g groups IH]; intros j; [done|]. simpl.
    rewrite Nat.add_0_r. f_equal. rewrite <-IH.
    f_equal. apply imap_ext. intros i x _. simpl. do 2 f_equal. lia. }
  apply (H 0%nat).
Qed.

Lemma numbered_snoc (groups : list (list packet)) (cur : list packet) :
  py_dict.set (numbered groups) (Z.of_nat (length groups)) (raw <$> cur)
  = numbered (groups ++ [cur]).
Proof.
  rewrite dict_set_fresh.
  - unfold numbered. rewrite imap_app. simpl. by rewrite Nat.add_0_r.
  - rewrite numbered_keys. intros (i & Hi & Hin)%list_elem_of_fmap.
    apply elem_of_seq in Hin. lia.
Qed.

Lemma later_syns_snoc (prefix : list packet) (pkt : packet) :
  later_syns (prefix ++ [pkt])
  = (later_syns prefix
     + if bool_decide (prefix ≠ []) && is_syn pkt then 1 else 0)%nat.
Proof.
  unfold later_syns. destruct prefix as [|p prefix]; [done|].
  rewrite (bool_decide_eq_true_2 (p :: prefix ≠ [])) by done.
  cbn [app drop andb]. rewrite drop_0, filter_app, length_app.
  f_equal. rewrite filter_cons, filter_nil.
  destruct (is_syn pkt); [by rewrite decide_True|].
  by rewrite decide_False.
Qed.

Lemma one_connection_snoc (g : list packet) (pkt : packet) :
  g ≠ [] → one_connection g → is_syn pkt = false →
  one_connection (g ++ [pkt]).
Proof.
  unfold one_connection. destruct g as [|p g]; [done|]. simpl.
  rewrite !drop_0. intros _ Hg Hp. apply Forall_app. by repeat constructor.
Qed.

(** One round of the loop keeps the invariant. *)
Lemma syn_step_inv (prefix : list packet) (st : syn_state)
    (groups : list (list packet)) (cur : list packet) (pkt : packet) :
  syn_inv prefix st groups cur →
  ∃ groups' cur', syn_inv (prefix ++ [pkt]) (syn_step st pkt) groups' cur'.
Proof.
  intros [Hst Hcur Hno Hcat Hcount Hne Hgroups [Hc1 Hc2]].
  assert (prefix ++ [pkt] ≠ []) as Hne' by (by destruct prefix).
  unfold syn_step. destruct (is_syn pkt) eqn:Hsyn.
  - case_bool_decide as Hlen.
    + (* a new run starts *)
      assert (cur ≠ []) as Hcne.
      { intros ->. rewrite Hcur in Hlen. unfold len in Hlen. simpl in Hlen. lia. }
      assert (prefix ≠ []) as Hpne.
      { intros ->. destruct groups; [by destruct cur|].
        simpl in Hcat. apply app_eq_nil in Hcat as [_ ?]. done. }
      exists (groups ++ [cur]), [pkt]. split; simpl.
      * by rewrite Hst, Hno, Hcur, numbered_snoc.
      * done.
      * rewrite Hno, length_app. simpl. lia.
      * rewrite concat_app. simpl. rewrite app_nil_r, <-Hcat.
        by rewrite <-!app_assoc.
      * rewrite length_app, later_syns_snoc, Hcount, Hsyn.
        rewrite bool_decide_eq_true_2 by done. simpl. lia.
      * done.
      * intros i g [Hg|[Hi Hg]]%lookup_app_Some; [by apply Hgroups|].
        apply list_lookup_singleton_Some in Hg as [Hi0 <-].
        split; [done|]. split; [done|]. intros Hpos. apply Hc2. lia.
      * split; [by constructor|]. intros _. by exists pkt.
    + (* the very first packet *)
      assert (cur = []) as ->.
      { destruct cur; [done|]. rewrite Hcur in Hlen. unfold len in Hlen.
        simpl in Hlen. lia. }
      assert (prefix = []) as -> by (destruct prefix; [done|by destruct Hne]).
      assert (groups = []) as ->.
      { destruct groups as [|g groups]; [done|].
        destruct (Hgroups 0%nat g eq_refl) as [Hg _].
        simpl in Hcat. rewrite app_nil_r in Hcat.
        apply app_eq_nil in Hcat as [? _]. done. }
      exists [], [pkt]. split; simpl; try done.
      * by rewrite Hcur.
      * split; [by constructor|]. lia.
  - exists groups, (cur ++ [pkt]). split; simpl.
    + done.
    + by rewrite Hcur, fmap_app.
    + done.
    + by rewrite app_assoc, Hcat.
    + rewrite later_syns_snoc, Hcount, Hsyn, andb_false_r. lia.
    + intros _. by destruct cur.
    + done.
    + destruct cur as [|p cur].
      * split; [by constructor|]. intros Hpos.
        destruct (Hc2 Hpos) as (p & Hp & _). done.
      * split; [by apply one_connection_snoc|].
        intros (p' & Hp' & Hs)%Hc2. exists p'. by simpl in *.
Qed.

Lemma syn_loop_inv (rest prefix : list packet) (st : syn_state)
    (groups : list (list packet)) (cur : list packet) :
  syn_inv prefix st groups cur →
  ∃ groups' cur',
    syn_inv (prefix ++ rest) (foldl syn_step st rest) groups' cur'.
Proof.
  revert prefix st groups cur.
  induction rest as [|pkt rest IH]; intros prefix st groups cur Hinv.
  - rewrite app_nil_r. eauto.
  - destruct (syn_step_inv _ _ _ _ pkt Hinv) as (groups1 & cur1 & Hinv1).
    destruct (IH _ _ _ _ Hinv1) as (groups2 & cur2 & Hinv2).
    rewrite <-app_assoc in Hinv2. simpl in *. eauto.
Qed.

End syn_facts.

Section ports_facts.
Import load_data packet_notions.

Lemma elem_of_first_occurrences `{EqDecision A} (l : list A) (x : A) :
  x ∈ first_occurrences l ↔ x ∈ l.
Proof.
  unfold first_occurrences.
  by rewrite elem_of_reverse, elem_of_remove_dups, elem_of_reverse.
Qed.

Lemma NoDup_first_occurrences `{EqDecision A} (l : list A) :
  NoDup (first_occurrences l).
Proof.
  unfold first_occurrences. rewrite reverse_Permutation.
  apply NoDup_remove_dups.
Qed.

Lemma first_occurrences_snoc `{EqDecision A} (l : list A) (x : A) :
  first_occurrences (l ++ [x])
  = if decide (x ∈ l) then first_occurrences l else first_occurrences l ++ [x].
Proof.
  unfold first_occurrences. rewrite reverse_snoc. simpl.
  destruct (decide_rel elem_of x (reverse l)) as [Hin|Hnin];
    rewrite elem_of_reverse in *.
  - by rewrite decide_True.
  - rewrite decide_False by done. by rewrite reverse_cons.
Qed.

Variables ip_addr_sender ip_addr_target : string.

Lemma connection_snoc (port : Z) (prefix : list packet) (pkt : packet) :
  connection ip_addr_sender ip_addr_target port (prefix ++ [pkt])
  = connection ip_addr_sender ip_addr_target port prefix
    ++ (if decide (port_of ip_addr_sender ip_addr_target pkt = Some port)
        then [pkt] else []).
Proof.
  unfold connection. by rewrite filter_app.
Qed.

Lemma connection_unseen (port : Z) (prefix : list packet) :
  port ∉ omap (port_of ip_addr_sender ip_addr_target) prefix →
  connection ip_addr_sender ip_addr_target port prefix = [].
Proof.
  intros Hnin. unfold connection. induction prefix as [|p prefix IH]; [done|].
  rewrite filter_cons. case_decide as Hp.
  - destruct Hnin. apply list_elem_of_omap. exists p. split; [|done].
    apply elem_of_cons. by left.
  - apply IH. intros (q & Hq & Hpq)%list_elem_of_omap. apply Hnin.
    apply list_elem_of_omap. exists q. split; [|done].
    apply elem_of_cons. by right.
Qed.

(** A packet that names no connection changes nothing. *)
Lemma ports_inv_skip (prefix : list packet) (st : ports_state)
    (pkt : packet) :
  port_of ip_addr_sender ip_addr_target pkt = None →
  ports_inv ip_addr_sender ip_addr_target prefix st →
  ports_inv ip_addr_sender ip_addr_target (prefix ++ [pkt]) st.
Proof.
  intros Hnone [Hseen Hkeys Hget]. split.
  - rewrite omap_app. simpl. by rewrite Hnone, app_nil_r.
  - done.
  - intros port. rewrite Hget, connection_snoc, Hnone.
    rewrite decide_False by done. by rewrite app_nil_r.
Qed.

(** One round of the loop raises no [KeyError] and keeps the invariant. *)
Lemma ports_step_inv (prefix : list packet) (st : ports_state)
    (pkt : packet) :
  ports_inv ip_addr_sender ip_addr_target prefix st →
  ∃ st', ports_step ip_addr_sender ip_addr_target st pkt = Some st'
         ∧ ports_inv ip_addr_sender ip_addr_target (prefix ++ [pkt]) st'.
Proof.
  intros Hinv. pose proof Hinv as [Hseen Hkeys Hget].
  unfold ports_step.
  destruct (has_IP pkt && has_TCP pkt) eqn:Hlayers; cycle 1.
  { exists st. split; [done|]. apply ports_inv_skip; [|done].
    unfold port_of. by rewrite Hlayers. }
  destruct (connection_port ip_addr_sender ip_addr_target pkt)
    as [port|] eqn:Hport; cycle 1.
  { exists st. split; [done|]. apply ports_inv_skip; [|done].
    unfold port_of. by rewrite Hlayers. }
  assert (port_of ip_addr_sender ip_addr_target pkt = Some port) as Hof.
  { unfold port_of. by rewrite Hlayers. }
  case_bool_decide as Hin.
  - rewrite Hget, bool_decide_eq_true_2 by done. simpl.
    eexists. split; [done|]. split; simpl.
    + rewrite omap_app. simpl. rewrite Hof. simpl.
      rewrite first_occurrences_snoc, decide_True; [done|].
      apply elem_of_first_occurrences. by rewrite <-Hseen.
    + rewrite dict_keys_set, decide_True; [done|].
      rewrite Hkeys. apply list_elem_of_fmap. eauto.
    + intros q. rewrite dict_get_set, connection_snoc, Hof.
      destruct (decide (q = port)) as [->|Hne].
      * rewrite !decide_True by done.
        rewrite bool_decide_eq_true_2 by done. by rewrite fmap_app.
      * rewrite !decide_False; [|congruence|].
        -- by rewrite Hget, app_nil_r.
        -- by intros ?%(inj pretty).
  - eexists. split; [done|]. split; simpl.
    + rewrite omap_app. simpl. rewrite Hof. simpl.
      rewrite first_occurrences_snoc, decide_False; [by rewrite Hseen|].
      rewrite <-elem_of_first_occurrences. by rewrite <-Hseen.
    + rewrite dict_keys_set, decide_False.
      * by rewrite Hkeys, fmap_app.
      * rewrite Hkeys. intros (q & ->%(inj pretty) & Hq)%list_elem_of_fmap.
        done.
    + intros q. rewrite dict_get_set, connection_snoc, Hof.
      destruct (decide (q = port)) as [->|Hne].
      * rewrite !decide_True by done.
        rewrite bool_decide_eq_true_2.
        2:{ apply elem_of_app. right. by apply list_elem_of_singleton. }
        rewrite connection_unseen; [done|].
        rewrite <-elem_of_first_occurrences. by rewrite <-Hseen.
      * rewrite !decide_False; [|congruence|].
        -- rewrite Hget, app_nil_r.
           apply (f_equal (λ b : bool, if b then _ else _)).
           apply bool_decide_ext. rewrite elem_of_app, list_elem_of_singleton.
           tauto.
        -- by intros ?%(inj pretty).
Qed.

Lemma ports_loop_inv (rest prefix : list packet) (st : ports_state) :
  ports_inv ip_addr_sender ip_addr_target prefix st →
  ∃ st', ports_loop ip_addr_sender ip_addr_target st rest = Some st'
         ∧ ports_inv ip_addr_sender ip_addr_target (prefix ++ rest) st'.
Proof.
  revert prefix st. induction rest as [|pkt rest IH]; intros prefix st Hinv.
  - rewrite app_nil_r. eauto.
  - destruct (ports_step_inv _ _ pkt Hinv) as (st1 & Hstep & Hinv1).
    destruct (IH _ _ Hinv1) as (st2 & Hloop & Hinv2).
    rewrite <-app_assoc in Hinv2. exists st2. simpl. by rewrite Hstep.
Qed.

Lemma split_ports_inv (packets : list packet) :
  ∃ st, split_ports ip_addr_sender ip_addr_target packets
          = Some (ports_split st)
        ∧ ports_inv ip_addr_sender ip_addr_target packets st.
Proof.
  destruct (ports_loop_inv packets [] (PortsState [] [])) as (st & Hloop & Hinv).
  { split; [done..|]. intros port. cbn [seen_ports ports_split].
    rewrite bool_decide_eq_false_2; [done|]. by intros ?%elem_of_nil. }
  exists st. unfold split_ports. by rewrite Hloop.
Qed.

End ports_facts.

Section load_data_facts.
Import load_data packet_notions.

Lemma numbered_values (groups : list (list packet)) :
  py_dict.values (numbered groups) = (λ g : list packet, raw <$> g) <$> groups.
Proof.
  unfold py_dict.values, numbered. rewrite fmap_imap.
  rewrite <-(imap_const (λ g : list packet, raw <$> g) groups). by apply imap_ext.
Qed.

Lemma concat_fmap_raw (groups : list (list packet)) :
  concat ((λ g : list packet, raw <$> g) <$> groups) = raw <$> concat groups.
Proof.
  induction groups as [|g groups IH]; [done|].
  rewrite fmap_cons. cbn [concat]. by rewrite fmap_app, IH.
Qed.

(** The dictionary of [load_and_split_data_syn] numbers the runs into which
    the SYN packets cut the capture. *)
Lemma split_syn_runs (packets : list packet) :
  ∃ groups,
    split_syn packets = numbered groups
    ∧ concat groups = packets
    ∧ length groups = S (later_syns packets)
    ∧ ∀ i g, groups !! i = Some g →
        one_connection g
        ∧ ((0 < i)%nat → starts_with_syn g)
        ∧ (packets ≠ [] → g ≠ []).
Proof.
  destruct (syn_loop_inv packets [] (SynState [] [] 0) [] []) as
    (groups & cur & [Hst Hcur Hno Hcat Hcount Hne Hgroups [Hc1 Hc2]]).
  { split; try done. split; [by constructor|]. simpl. lia. }
  simpl in *. exists (groups ++ [cur]). split; [|split; [|split]].
  - unfold split_syn. by rewrite Hst, Hno, Hcur, numbered_snoc.
  - rewrite concat_app. simpl. by rewrite app_nil_r.
  - rewrite length_app, Hcount. simpl. lia.
  - intros i g [Hg|[Hi Hg]]%lookup_app_Some.
    + destruct (Hgroups i g Hg) as (? & ? & ?). done.
    + apply list_lookup_singleton_Some in Hg as [Hi0 <-].
      split; [done|]. split; [|done]. intros Hpos. apply Hc2. lia.
Qed.

End load_data_facts.

Section load_data_claims.
Import load_data packet_notions.
Context {Path : Type}.
Variable sniff : Path → string → list packet.
Variables (path : Path) (filter_expr : string).

(** X15: [load_and_split_data_syn] cuts the capture into consecutive runs
    of packets and stores the raw bytes of the run number [i] under the key
    [i]: the runs put one after the other are the capture, no run has a SYN
    packet after its first packet, every run after the first starts with a
    SYN packet, and no run of a capture that has packets is empty. *)
Theorem load_and_split_data_syn_runs :
  ∃ groups,
    load_and_split_data_syn sniff path filter_expr = numbered groups
    ∧ concat groups = sniff path filter_expr
    ∧ ∀ i g, groups !! i = Some g →
        one_connection g
        ∧ ((0 < i)%nat → starts_with_syn g)
        ∧ (sniff path filter_expr ≠ [] → g ≠ []).
Proof.
  unfold load_and_split_data_syn.
  destruct (split_syn_runs (sniff path filter_expr))
    as (groups & Heq & Hcat & _ & Hgroups).
  eauto.
Qed.

(** X16: the keys of the dictionary of [load_and_split_data_syn] are the
    numbers 0, 1, ..., n in this order, where n is the number of SYN packets
    of the capture, a SYN packet that opens the capture not counted.  An
    empty capture gives the one key 0. *)
Theorem load_and_split_data_syn_keys :
  py_dict.keys (load_and_split_data_syn sniff path filter_expr)
  = Z.of_nat <$> seq 0 (S (later_syns (sniff path filter_expr))).
Proof.
  unfold load_and_split_data_syn.
  destruct (split_syn_runs (sniff path filter_expr))
    as (groups & -> & _ & <- & _).
  apply numbered_keys.
Qed.

(** X17: [load_and_split_data_syn] loses no packet, repeats none and keeps
    the order: the values of its dictionary, one after the other, are the
    raw bytes of the packets of the capture. *)
Theorem load_and_split_data_syn_keeps_packets :
  concat (py_dict.values (load_and_split_data_syn sniff path filter_expr))
  = raw <$> sniff path filter_expr.
Proof.
  unfold load_and_split_data_syn.
  destruct (split_syn_runs (sniff path filter_expr))
    as (groups & -> & Hcat & _).
  by rewrite numbered_values, concat_fmap_raw, Hcat.
Qed.

Variables ip_addr_sender ip_addr_target : string.


(** X19: the keys of the dictionary of [load_and_split_data_ports] are the
    ports of the connections of the capture as strings, without repetition,
    in the order in which the capture first shows them. *)
Theorem load_and_split_data_ports_keys :
  ∃ d,
    load_and_split_data_ports sniff path ip_addr_sender ip_addr_target
                              filter_expr = Some d
    ∧ py_dict.keys d
      = pretty <$> first_occurrences
                     (omap (port_of ip_addr_sender ip_addr_target)
                           (sniff path filter_expr))
    ∧ NoDup (py_dict.keys d).
Proof.
  unfold load_and_split_data_ports.
  destruct (split_ports_inv ip_addr_sender ip_addr_target
              (sniff path filter_expr)) as (st & -> & [Hseen Hkeys Hget]).
  eexists. split; [done|]. rewrite Hkeys, Hseen. split; [done|].
  apply (NoDup_fmap_2 _), NoDup_first_occurrences.
Qed.

End load_data_claims.

(** ** scripts/hmm_coverage.py *)

Section script_facts.
Import hmm_coverage load_data packet_notions curve_notions.
Context {Path Model Row HMM State : Type}.
Variable sniff : Path → string → list packet.
Variable predict : Model → list (list Qc) → list Row.
Variable transform : Model → list Qc → Row.
Variables joblib_load load_model : string → Model.
Variable from_dict : string → HMM.
Variable viterbi : HMM → list Row → coverage_calculation.viterbi_res State.


Lemma init_accepts (g : globals) (config : config) :
  config_preprocessor_type config = "pca"%string
  ∨ config_preprocessor_type config = "ae"%string
  ∨ config_preprocessor_type config = "ae_chiu"%string →
  init joblib_load load_model from_dict g config
  = (Globals (Some (from_dict (config_model_path config)))
             (Some (config_model_nodes config))
             (Some (if bool_decide (config_preprocessor_type config
                                    = "pca"%string)
                    then joblib_load (config_preprocessor_path config)
                    else load_model (config_preprocessor_path config)))
             (config_preprocessor_type config) true,
     Return ()).
Proof.
  intros Htype. unfold hmm_coverage.init. cbn [preprocessor_type].
  destruct Htype as [H|[H|H]]; rewrite !H; done.
Qed.

(** The batch [preprocess] returns has one sequence per run of the
    capture. *)
Lemma preprocess_numbered (groups : list (list packet)) (p : Model)
    (model_type : string) (l : list (list Row)) :
  preprocess.preprocess predict transform (numbered groups) p model_type
                        SAMPLE_SIZE = py.Ok l →
  length l = length groups.
Proof.
  unfold preprocess.preprocess, preprocess.preprocess_pca,
    preprocess.preprocess_autoencoder, preprocess.preprocess_chiu,
    py_dict.items, numbered.
  repeat case_bool_decide; intros [= <-];
    by rewrite length_fmap, length_imap.
Qed.

End script_facts.

Section script_claims.
Import hmm_coverage load_data packet_notions curve_notions.
Context {Path Model Row HMM State : Type}.
Variable sniff : Path → string → list packet.
Variable predict : Model → list (list Qc) → list Row.
Variable transform : Model → list Qc → Row.
Variables joblib_load load_model : string → Model.
Variable from_dict : string → HMM.
Variable viterbi : HMM → list Row → coverage_calculation.viterbi_res State.

(** X20: the script and the pipeline do not agree on the name of Chiu's
    autoencoder.  [init] rejects the [preprocessor_type] "chiu" with
    [AssertionError]; it accepts "ae_chiu", and then every call of
    [calculate_coverage] raises the [ValueError] of [preprocess], which
    knows "chiu" only. *)
Theorem script_chiu_names (g : globals) (config : config)
    (pcap_path : Path) :
  (config_preprocessor_type config = "chiu"%string →
   (init joblib_load load_model from_dict g config).2
   = Raise AssertionError)
  ∧ (config_preprocessor_type config = "ae_chiu"%string →
     (init joblib_load load_model from_dict g config).2 = Return ()
     ∧ calculate_coverage sniff predict transform viterbi
         (init joblib_load load_model from_dict g config).1 pcap_path
       = Raise (Pipeline py.ValueError)).
Proof.
  split; intros Htype.
  - unfold init. cbn [preprocessor_type]. by rewrite Htype.
  - rewrite init_accepts by auto. split; [done|].
    unfold calculate_coverage. cbn -[load_and_split_data_syn SAMPLE_SIZE].
    unfold preprocess.preprocess. by rewrite Htype.
Qed.


(** X22: what the script computes of a capture.  After [init] with the
    [preprocessor_type] "pca" or "ae", [calculate_coverage] raises
    [AssertionError] when the capture has a SYN packet after its first
    packet; otherwise it returns the coverage list of the path the model
    decodes from the whole capture, one row per packet, each packet cut or
    padded to [SAMPLE_SIZE] bytes and scaled. *)
Theorem script_calculate_coverage (g : globals) (config : config)
    (pcap_path : Path) :
  config_preprocessor_type config = "pca"%string
  ∨ config_preprocessor_type config = "ae"%string →
  calculate_coverage sniff predict transform viterbi
    (init joblib_load load_model from_dict g config).1 pcap_path
  = if bool_decide (later_syns (sniff pcap_path "") = 0%nat)
    then call (coverage_calculation.generate_coverage_map
                 (viterbi (from_dict (config_model_path config))
                          (encoded predict transform joblib_load load_model
                                   config (sniff pcap_path "")))
                 (config_model_nodes config))
    else Raise AssertionError.
Proof.
  intros Htype. rewrite init_accepts by tauto.
  unfold calculate_coverage, load_and_split_data_syn.
  cbn -[split_syn SAMPLE_SIZE].
  destruct (split_syn_runs (sniff pcap_path ""))
    as (groups & -> & Hcat & Hlen & _).
  destruct (preprocess.preprocess predict transform (numbered groups) _ _ _)
    as [l|e] eqn:Hpre; cycle 1.
  { unfold preprocess.preprocess in Hpre.
    destruct Htype as [H|H]; rewrite H in Hpre; done. }
  pose proof (preprocess_numbered _ _ _ _ _ _ Hpre) as Hl.
  cbn [call mbind outcome_bind]. unfold py.len. rewrite Hl, Hlen.
  destruct (decide (later_syns (sniff pcap_path "") = 0%nat)) as [Hsyn|Hsyn];
    cycle 1.
  { rewrite !bool_decide_eq_false_2 by (done || lia). done. }
  rewrite !bool_decide_eq_true_2 by (done || lia).
  assert (length groups = 1%nat) as Hone by lia. clear Hlen.
  destruct groups as [|run [|? ?]]; try done.
  simpl in Hcat. rewrite app_nil_r in Hcat. subst run.
  unfold preprocess.preprocess in Hpre. unfold encoded.
  unfold coverage_single.calculate_coverage_single.
  destruct Htype as [Ht|Ht]; rewrite Ht in *; simpl in Hpre;
    injection Hpre as <-; simpl.
  - unfold preprocess.preprocess_pca. simpl.
    by rewrite <-!list_fmap_compose.
  - unfold preprocess.preprocess_autoencoder. simpl.
    by rewrite <-!list_fmap_compose.
Qed.

End script_claims.

Section script_instances.
Import hmm_coverage load_data packet_notions curve_notions more_examples.


Lemma script_calculate_coverage_witness :
  calculate_coverage example_sniff example_predict example_transform
    example_decode
    (init example_loader example_loader example_loader
          (start (Model := unit) (HMM := unit)) (example_config "pca")).1
    false
  = Return [1; 0; 0; 0]
  ∧ calculate_coverage example_sniff example_predict
      example_transform example_decode
      (init example_loader example_loader example_loader
            (start (Model := unit) (HMM := unit)) (example_config "ae")).1
      true
    = Raise AssertionError.
Proof.
  split.
  - rewrite (script_calculate_coverage example_sniff example_predict
               example_transform example_loader example_loader example_loader
               example_decode start (example_config "pca") false);
      [reflexivity|by left].
  - rewrite (script_calculate_coverage example_sniff example_predict
               example_transform example_loader example_loader example_loader
               example_decode start (example_config "ae") true);
      [reflexivity|by right].
Defined.

End script_instances.

(** ** measures.py, [dtw_normalized_increases] *)

Section dtw_facts.
Import py dtw curve_notions.

Lemma getitem_nat {A} (l : list A) (i : nat) :
  getitem l (Z.of_nat i)
  = match l !! i with Some x => Ok x | None => Raise IndexError end.
Proof.
  unfold getitem.
  rewrite (bool_decide_eq_false_2 (Z.of_nat i < 0)) by lia.
  rewrite bool_decide_eq_true_2 by lia. by rewrite Nat2Z.id.
Qed.

Lemma increases_take_1 (curve : list Qc) : increases (take 1 curve) = 0%nat.
Proof. by destruct curve. Qed.

Lemma increases_take_S (curve : list Qc) (j : nat) (a b : Qc) :
  curve !! j = Some a → curve !! S j = Some b →
  increases (take (S (S j)) curve)
  = (increases (take (S j) curve)
     + if bool_decide (a < b)%Qc then 1 else 0)%nat.
Proof.
  revert j. induction curve as [|x curve IH]; intros j Ha Hb; [done|].
  destruct j as [|j].
  - destruct curve as [|y curve]; [done|].
    simpl in Ha, Hb. injection Ha as ->. injection Hb as ->.
    cbn [take increases]. rewrite take_0. case_bool_decide; lia.
  - simpl in Ha, Hb. specialize (IH j Ha Hb).
    destruct curve as [|y curve]; [done|].
    change (take (S (S (S j))) (x :: y :: curve))
      with (x :: take (S (S j)) (y :: curve)).
    change (take (S (S j)) (x :: y :: curve))
      with (x :: take (S j) (y :: curve)).
    change (take (S (S j)) (y :: curve)) with (y :: take (S j) curve) in *.
    change (take (S j) (y :: curve)) with (y :: take j curve) in *.
    cbn [increases] in *. lia.
Qed.

Lemma increases_fmap (f : Qc → Qc) (curve : list Qc) :
  (∀ a b, (f a < f b)%Qc ↔ (a < b)%Qc) →
  increases (f <$> curve) = increases curve.
Proof.
  intros Hf. induction curve as [|a [|b curve] IH]; [done..|].
  rewrite !fmap_cons in *. cbn [increases] in *. rewrite IH.
  f_equal. by rewrite (bool_decide_ext _ _ (Hf a b)).
Qed.

Lemma steps_S (curve : list Qc) (j : nat) (a b : Qc) :
  curve !! j = Some a → curve !! S j = Some b →
  (if bool_decide (a < b)%Qc then steps curve j + 1 else steps curve j)
  = steps curve (S j).
Proof.
  intros Ha Hb. unfold steps. rewrite (increases_take_S _ _ _ _ Ha Hb).
  case_bool_decide; lia.
Qed.

Lemma increases_step_ok (fuzzer hmm : list Qc) (j : nat)
    (st : increases_state) :
  increases_inv fuzzer hmm j st →
  (S j < length fuzzer)%nat → (S j < length hmm)%nat →
  ∃ st', increases_step fuzzer hmm st (Z.of_nat (S j)) = Ok st'
         ∧ increases_inv fuzzer hmm (S j) st'.
Proof.
  intros (Hnf & Hnh & Hf & Hh) Hjf Hjh. unfold increases_step.
  replace (Z.of_nat (S j) - 1) with (Z.of_nat j) by lia.
  rewrite !getitem_nat.
  destruct (lookup_lt_is_Some_2 fuzzer (S j)) as [fi Hfi]; [done|].
  destruct (lookup_lt_is_Some_2 fuzzer j) as [fp Hfp]; [lia|].
  destruct (lookup_lt_is_Some_2 hmm (S j)) as [hi Hhi]; [done|].
  destruct (lookup_lt_is_Some_2 hmm j) as [hp Hhp]; [lia|].
  rewrite Hfi, Hfp, Hhi, Hhp. cbn [mbind result_bind].
  rewrite Hnf, Hnh, (steps_S _ _ _ _ Hfp Hfi), (steps_S _ _ _ _ Hhp Hhi).
  eexists. split; [done|]. unfold increases_inv.
  cbn [number_of_increases_fuzzer number_of_increases_hmm normalized_fuzzer
       normalized_hmm].
  rewrite Hf, Hh. rewrite (seq_S (S j) 0), !fmap_app. done.
Qed.

Lemma increases_step_fail (fuzzer hmm : list Qc) (j : nat)
    (st : increases_state) :
  (S j < length fuzzer)%nat → (length hmm ≤ S j)%nat →
  increases_step fuzzer hmm st (Z.of_nat (S j)) = Raise IndexError.
Proof.
  intros Hjf Hjh. unfold increases_step.
  replace (Z.of_nat (S j) - 1) with (Z.of_nat j) by lia.
  rewrite !getitem_nat.
  destruct (lookup_lt_is_Some_2 fuzzer (S j)) as [fi Hfi]; [done|].
  destruct (lookup_lt_is_Some_2 fuzzer j) as [fp Hfp]; [lia|].
  rewrite Hfi, Hfp. cbn [mbind result_bind].
  by rewrite (lookup_ge_None_2 hmm (S j)).
Qed.

Lemma increases_loop_ok (fuzzer hmm : list Qc) (k j : nat)
    (st : increases_state) :
  increases_inv fuzzer hmm j st →
  (k = 0 ∨ j + k < length fuzzer)%nat → (k = 0 ∨ j + k < length hmm)%nat →
  ∃ st', increases_loop fuzzer hmm st (Z.of_nat <$> seq (S j) k) = Ok st'
         ∧ increases_inv fuzzer hmm (j + k) st'.
Proof.
  revert j st. induction k as [|k IH]; intros j st Hinv Hf Hh.
  - rewrite Nat.add_0_r. simpl. eauto.
  - destruct (increases_step_ok _ _ _ _ Hinv) as (st1 & Hstep & Hinv1);
      [lia..|].
    destruct (IH (S j) st1 Hinv1) as (st2 & Hloop & Hinv2); [lia..|].
    exists st2. cbn [seq fmap list_fmap increases_loop].
    rewrite Hstep. cbn [mbind result_bind].
    split; [done|]. by replace (j + S k)%nat with (S j + k)%nat by lia.
Qed.

Lemma increases_loop_fail (fuzzer hmm : list Qc) (k j : nat)
    (st : increases_state) :
  increases_inv fuzzer hmm j st →
  (j + S k < length fuzzer)%nat → (length hmm ≤ j + S k)%nat →
  increases_loop fuzzer hmm st (Z.of_nat <$> seq (S j) (S k))
  = Raise IndexError.
Proof.
  revert j st. induction k as [|k IH]; intros j st Hinv Hf Hh;
    cbn [seq fmap list_fmap increases_loop].
  - rewrite increases_step_fail; [done|lia..].
  - destruct (decide (S j < length hmm)%nat) as [Hlt|Hge].
    + destruct (increases_step_ok _ _ _ _ Hinv) as (st1 & Hstep & Hinv1);
        [lia..|].
      rewrite Hstep. cbn [mbind result_bind].
      apply (IH (S j) st1 Hinv1); lia.
    + rewrite increases_step_fail; [done|lia..].
Qed.

Lemma range_1_len {A} (l : list A) :
  seqZ 1 (len l - 1) = Z.of_nat <$> seq 1 (length l - 1).
Proof.
  unfold seqZ, len.
  replace (Z.to_nat (Z.of_nat (length l) - 1)) with (length l - 1)%nat by lia.
  rewrite <-(fmap_S_seq 0), <-list_fmap_compose.
  apply list_fmap_ext. intros i x _. simpl. lia.
Qed.

Lemma zip_fmap_same {A B C} (f : A → B) (g : A → C) (l : list A) :
  zip (f <$> l) (g <$> l) = (λ x, (f x, g x)) <$> l.
Proof. induction l as [|x l IH]; [done|]. cbn. by f_equal. Qed.

Lemma array2_steps (curve curve' : list Qc) (n : nat) :
  array2 (len (steps curve <$> seq 0 n))
         (seqZ 0 (len (steps curve' <$> seq 0 n)))
         (steps curve <$> seq 0 n)
  = Ok ((λ i, (Qc_of_Z (Z.of_nat i), Qc_of_Z (steps curve i))) <$> seq 0 n).
Proof.
  unfold array2, column, len.
  rewrite length_seqZ, !length_fmap, !length_seq, Nat2Z.id.
  rewrite !bool_decide_eq_true_2 by done. cbn [mbind result_bind].
  f_equal. unfold seqZ. rewrite Nat2Z.id.
  rewrite <-!list_fmap_compose, zip_fmap_same.
  apply list_fmap_ext. intros i x _. simpl. do 2 f_equal. lia.
Qed.

Section shape.
Context {D : Type}.
Variable sm_dtw : list (Qc * Qc) → list (Qc * Qc) → D.

(** What [dtw_normalized_increases] raises or prints. *)
Lemma dtw_normalized_increases_shape (fuzzer hmm : list Qc) :
  dtw_normalized_increases sm_dtw fuzzer hmm
  = if bool_decide (2 ≤ length fuzzer ∧ length hmm < length fuzzer)%nat
    then Raise IndexError
    else Ok (sm_dtw (step_curve (length fuzzer) fuzzer)
                    (step_curve (length fuzzer) hmm)).
Proof.
  unfold dtw_normalized_increases. rewrite range_1_len.
  assert (increases_inv fuzzer hmm 0 (IncreasesState 0 0 [0] [0])) as Hinv.
  { unfold increases_inv, steps. simpl. by rewrite !increases_take_1. }
  case_bool_decide as Hcase.
  - destruct Hcase as [H2 Hlt].
    replace (length fuzzer - 1)%nat with (S (length fuzzer - 2)) by lia.
    destruct (decide (length hmm ≤ 1)%nat) as [Hshort|Hlong].
    + rewrite (increases_loop_fail fuzzer hmm _ 0 _ Hinv); [done|lia..].
    + replace (S (length fuzzer - 2))
        with ((length hmm - 1) + S (length fuzzer - length hmm - 1))%nat
        by lia.
      rewrite seq_app, fmap_app.
      destruct (increases_loop_ok fuzzer hmm (length hmm - 1) 0 _ Hinv)
        as (st1 & Hloop & Hinv1); [lia..|].
      assert (∀ l1 l2 st st',
        increases_loop fuzzer hmm st l1 = Ok st' →
        increases_loop fuzzer hmm st (l1 ++ l2)
        = increases_loop fuzzer hmm st' l2) as Happ.
      { induction l1 as [|i l1 IH]; intros l2 st st' Hl1.
        - simpl in Hl1. by injection Hl1 as ->.
        - simpl in *. destruct (increases_step fuzzer hmm st i); [|done].
          simpl in *. by apply IH. }
      rewrite (Happ _ _ _ _ Hloop).
      change (1 + (length hmm - 1))%nat with (S (0 + (length hmm - 1))).
      rewrite (increases_loop_fail fuzzer hmm _ _ _ Hinv1); [done|lia..].
  - destruct (increases_loop_ok fuzzer hmm (length fuzzer - 1) 0 _ Hinv)
      as (st & -> & (_ & _ & Hf & Hh)); [lia..|].
    cbn [mbind result_bind]. rewrite Hf, Hh, !array2_steps.
    cbn [mbind result_bind]. unfold step_curve.
    replace (S (0 + (length fuzzer - 1))) with (Nat.max 1 (length fuzzer))
      by lia.
    done.
Qed.

End shape.

End dtw_facts.

Section dtw_claims.
Import py dtw curve_notions.
Context {D : Type}.
Variable sm_dtw : list (Qc * Qc) → list (Qc * Qc) → D.

(** X23: [dtw_normalized_increases] raises [IndexError] exactly when
    [fuzzer] has at least two samples and [hmm] has fewer samples than
    [fuzzer]; samples of [hmm] beyond the length of [fuzzer] are not read.
    Otherwise the two curves it compares are the step curves of the
    inputs, the number of increases so far at every index of [fuzzer]; no
    [ValueError] arises from filling the arrays. *)
Theorem dtw_normalized_increases_outcome (fuzzer hmm : list Qc) :
  dtw_normalized_increases sm_dtw fuzzer hmm
  = if bool_decide (2 ≤ length fuzzer ∧ length hmm < length fuzzer)%nat
    then Raise IndexError
    else Ok (sm_dtw (step_curve (length fuzzer) fuzzer)
                    (step_curve (length fuzzer) hmm)).
Proof. apply dtw_normalized_increases_shape. Qed.

(** X24: [dtw_normalized_increases] looks only at where the curves go up,
    not at their values: replacing the samples of either curve by their
    images under a strictly increasing function changes nothing in what it
    raises or prints. *)
Theorem dtw_normalized_increases_monotone (f g : Qc → Qc)
    (fuzzer hmm : list Qc) :
  (∀ a b, (f a < f b)%Qc ↔ (a < b)%Qc) →
  (∀ a b, (g a < g b)%Qc ↔ (a < b)%Qc) →
  dtw_normalized_increases sm_dtw (f <$> fuzzer) (g <$> hmm)
  = dtw_normalized_increases sm_dtw fuzzer hmm.
Proof.
  intros Hf Hg. rewrite !dtw_normalized_increases_shape, !length_fmap.
  assert (∀ (h : Qc → Qc) curve n,
    (∀ a b, (h a < h b)%Qc ↔ (a < b)%Qc) →
    step_curve n (h <$> curve) = step_curve n curve) as Hstep.
  { intros h curve n Hh. unfold step_curve. apply list_fmap_ext.
    intros _ i _. unfold steps.
    by rewrite <-fmap_take, (increases_fmap h _ Hh). }
  by rewrite (Hstep f _ _ Hf), (Hstep g _ _ Hg).
Qed.

End dtw_claims.

Section dtw_instances.
Import py dtw curve_notions more_examples.
Local Open Scope Qc_scope.

Lemma dtw_normalized_increases_monotone_witness :
  dtw_normalized_increases example_dtw
    ((λ x, x + 1) <$> [0; 1; 1; Qc_of_Z 3]) ((λ x, x + x) <$> [1; 0; 1; 1])
  = dtw_normalized_increases example_dtw [0; 1; 1; Qc_of_Z 3] [1; 0; 1; 1].
Proof.
  apply (dtw_normalized_increases_monotone example_dtw
           (λ x, x + 1) (λ x, x + x)).
  - intros a b. split; intros H; qc_to_q; lra.
  - intros a b. split; intros H; qc_to_q; lra.
Defined.

End dtw_instances.

(** ** preprocess.py *)

Section preprocess_claims.
Import py preprocess.
Context {Model Row K : Type}.
Variable predict : Model → list (list Qc) → list Row.
Variable transform : Model → list Qc → Row.


End preprocess_claims.
